(** * VoiceChat: room relay server and voice-activity client

    A shallow embedding of [src/Public/app.js], which holds both the
    browser client (capture pipeline, voice-activity detector, playback
    queue) and the Node server ([server.js]: room registry, relay router and
    connection lifecycle), together with the properties the specification
    states about them.

    Conventions of the embedding:
    - a JavaScript [Map] keyed by strings is a [JsMap]: the list of its
      entries in insertion order, as the language defines it; [set] on a
      key that is present replaces the value in place, on a new key it
      appends, and [Array.from(m.keys())] and [Array.from(m.entries())] are
      the keys and the entries in that order;
    - a handler of the server is a computation in the small monad [Handler]:
      it threads the server state, collects the events it emits and may
      raise (a [TypeError] for a method call on [undefined]);
    - socket.io is a collaborator: its rooms are the map [adapter] from room
      names to sets of socket identities, changed by the join of every new
      socket to the room named by its own identity, by [socket.join] and
      [socket.leave], and by the clean-up that precedes a ['disconnect']
      event; an emission records the sockets it reaches;
    - a JavaScript number is a real number or one of [NaN], [Infinity] and
      [-Infinity]; every operation of the energy computation takes the
      rounding of its result as a parameter, and the exact operations are
      the instance that does not round; a number on the wire is its JSON
      form, which has [null] for the three values that are not real;
    - a handler of the client is a function from the client's variables to
      the new variables and the list of what it does to the outside (socket
      emissions, meter updates, debug lines, started buffer sources, an
      exception that leaves the handler); the answers of the browser are
      arguments;
    - the user list of the page is the list of its items; an item whose
      identity or user name the browser would not parse back as the text
      it was built from has no model, and the handler that adds it returns
      [None];
    - [console.log] is not modelled. *)

From Stdlib Require Import Reals Lra Sorted.
From stdpp Require Import gmap strings list fin_maps pretty.

#[local] Set Warnings "-clear-no-such-hyp".

(** ** JavaScript truthiness of a string-or-null variable *)

(** [if (x)] for [x] that is [null] or a string: [null] and the empty string
    are falsy. *)
Definition truthy (x : option string) : bool :=
  match x with
  | Some r => bool_decide (r ≠ EmptyString)
  | None => false
  end.

(** * JavaScript maps *)

(** A JavaScript [Map] with string keys is the list of its entries in
    insertion order: [set] on a key the map has replaces the value where the
    entry stands, [set] on a new key appends an entry, and [delete] removes
    the entry of the key.  A key has one entry in every map built from the
    empty one. *)

Module JsMap.

Record JsMap (V : Type) := Entries {
  entries : list (string * V)      (* Array.from(m.entries()) *)
}.
Arguments Entries {V} _.
Arguments entries {V} _.

Section Operations.
Context {V : Type}.

Fixpoint lookup_entries (k : string) (l : list (string * V)) : option V :=
  match l with
  | [] => None
  | (k', v) :: l' => if decide (k' = k) then Some v else lookup_entries k l'
  end.

Fixpoint insert_entries (k : string) (v : V) (l : list (string * V))
  : list (string * V) :=
  match l with
  | [] => [(k, v)]
  | (k', v') :: l' =>
      if decide (k' = k) then (k, v) :: l'
      else (k', v') :: insert_entries k v l'
  end.

(** [m.get(k)]; [m.has(k)] is [is_Some (m !! k)]. *)
Definition get (k : string) (m : JsMap V) : option V :=
  lookup_entries k (entries m).

(** [m.set(k, v)] *)
Definition set (k : string) (v : V) (m : JsMap V) : JsMap V :=
  Entries (insert_entries k v (entries m)).

(** [m.delete(k)] *)
Definition remove (k : string) (m : JsMap V) : JsMap V :=
  Entries (filter (λ e, e.1 ≠ k) (entries m)).

(** [Array.from(m.keys())] *)
Definition keys (m : JsMap V) : list string := (entries m).*1.

(** [m.size] *)
Definition count (m : JsMap V) : nat := length (entries m).

#[global] Instance jsmap_lookup : Lookup string V (JsMap V) := get.
#[global] Instance jsmap_insert : Insert string V (JsMap V) := set.
#[global] Instance jsmap_delete : Delete string (JsMap V) := remove.
#[global] Instance jsmap_empty : Empty (JsMap V) := Entries [].
#[global] Instance jsmap_size : Size (JsMap V) := count.
#[global] Instance jsmap_dom : Dom (JsMap V) (gset string) :=
  λ m, list_to_set (keys m).

(** Every key has one entry. *)
Definition unique_keys (m : JsMap V) : Prop := NoDup (keys m).

End Operations.

#[global] Arguments get : simpl never.
#[global] Arguments set : simpl never.
#[global] Arguments remove : simpl never.
#[global] Arguments keys : simpl never.
#[global] Arguments count : simpl never.
#[global] Arguments jsmap_lookup : simpl never.
#[global] Arguments jsmap_insert : simpl never.
#[global] Arguments jsmap_delete : simpl never.
#[global] Arguments jsmap_size : simpl never.
#[global] Arguments jsmap_dom : simpl never.
#[global] Arguments jsmap_empty : simpl never.

End JsMap.

(** * The server *)

Module Server.
Import JsMap.

Section Model.
(** Payloads the server only passes through: the raw audio block and the
    energy number of a speaking event.  [energy0] is the number [0]. *)
Context {Audio Energy : Type}.
Variable energy0 : Energy.

(** The object stored per participant:
    [{ username, isSpeaking: false, energy: 0 }]. *)
Record User := mkUser {
  username : string;
  isSpeaking : bool;
  energy : Energy
}.

(** Events a client sends to the server. *)
Inductive ClientEvent :=
| Connect
| JoinRoom (room username : string)
| LeaveRoom
| Voice (data : Audio)
| Speaking (speaking : bool) (level : Energy)
| Disconnect.

(** Events the server sends, with their payloads. *)
Inductive ServerEvent :=
| EvVoice (id : string) (data : Audio)
| EvUserSpeaking (id : string) (speaking : bool) (level : Energy)
| EvUserJoined (id username : string)
| EvUserLeft (id : string)
| EvRoomUsers (users : list (string * User))
| EvRoomLeft
| EvYourId (id : string)
| EvUpdateRooms (names : list string).

(** The four ways the code addresses an emission. *)
Inductive Target :=
| ToSocket (id : string)               (* socket.emit *)
| ToRoomExcept (room id : string)      (* socket.to(room).emit *)
| ToRoom (room : string)               (* io.to(room).emit *)
| ToAll.                               (* io.emit *)

(** One emission: how it was addressed, what was sent, and the sockets
    socket.io delivered it to (resolved when the emission is made). *)
Record Emission := mkEmission {
  target : Target;
  event : ServerEvent;
  recipients : gset string
}.

(** The state of the server process:
    - [rooms]: the module-level [const rooms = new Map()], a map from room
      names to maps from socket identities to users;
    - [adapter]: socket.io's room membership, the private room of every
      socket included;
    - [conns]: the live connections, each with the [currentRoom] variable
      of its [io.on('connection')] closure. *)
Record State := mkState {
  rooms : JsMap (JsMap User);
  adapter : gmap string (gset string);
  conns : gmap string (option string)
}.

Definition init : State := mkState ∅ ∅ ∅.

(** Participants of a room in the registry ([∅] when the room is absent). *)
Definition members (s : State) (room : string) : gset string :=
  dom (default ∅ (rooms s !! room)).

(** Sockets in a socket.io room. *)
Definition in_room (s : State) (room : string) : gset string :=
  default ∅ (adapter s !! room).

Definition resolve (s : State) (t : Target) : gset string :=
  match t with
  | ToSocket id => if bool_decide (is_Some (conns s !! id)) then {[id]} else ∅
  | ToRoomExcept room id => in_room s room ∖ {[id]}
  | ToRoom room => in_room s room
  | ToAll => dom (conns s)
  end.

(** *** The handler monad: state, emitted events, exceptions *)

Definition Handler (A : Type) : Type :=
  State → option (A * State * list Emission).

Definition hret {A} (a : A) : Handler A := λ s, Some (a, s, []).

Definition hbind {A B} (m : Handler A) (f : A → Handler B) : Handler B :=
  λ s, match m s with
       | None => None
       | Some (a, s1, out1) =>
           match f a s1 with
           | None => None
           | Some (b, s2, out2) => Some (b, s2, out1 ++ out2)
           end
       end.

(** An uncaught exception. *)
Definition throw {A} : Handler A := λ _, None.

Definition get_rooms : Handler (JsMap (JsMap User)) :=
  λ s, Some (rooms s, s, []).

Definition put_rooms (rs : JsMap (JsMap User)) : Handler unit :=
  λ s, Some ((), mkState rs (adapter s) (conns s), []).

Definition emit (t : Target) (e : ServerEvent) : Handler unit :=
  λ s, Some ((), s, [mkEmission t e (resolve s t)]).

(** [socket.join(room)] *)
Definition socket_join (id room : string) : Handler unit :=
  λ s, Some ((), mkState (rooms s)
                   (<[room := {[id]} ∪ in_room s room]> (adapter s))
                   (conns s), []).

(** [socket.leave(room)] *)
Definition socket_leave (id room : string) : Handler unit :=
  λ s, Some ((), mkState (rooms s)
                   (<[room := in_room s room ∖ {[id]}]> (adapter s))
                   (conns s), []).

(** The assignment [currentRoom = v] in the closure of connection [id]. *)
Definition set_currentRoom (id : string) (v : option string) : Handler unit :=
  λ s, Some ((), mkState (rooms s) (adapter s) (<[id := v]> (conns s)), []).

(** What socket.io does when a connection closes, before the
    ['disconnect'] handler runs: the socket leaves every room and is no
    longer connected. *)
Definition socket_close (id : string) : Handler unit :=
  λ s, Some ((), mkState (rooms s)
                   ((λ sockets : gset string, sockets ∖ {[id]}) <$> adapter s)
                   (delete id (conns s)), []).

#[global] Instance handler_ret : MRet Handler := @hret.
#[global] Instance handler_bind : MBind Handler := λ A B f m, hbind m f.

(** [if (x) { body(x) }] for a string-or-null [x]. *)
Definition when_truthy (x : option string) (body : string → Handler unit)
  : Handler unit :=
  match x with
  | Some r => if truthy x then body r else mret ()
  | None => mret ()
  end.

(** *** The functions and handlers of [server.js] *)

Definition leaveRoom (id room : string) : Handler unit :=
  socket_leave id room;;
  rs ← get_rooms;
  match rs !! room with
  | Some roomUsers =>
      let roomUsers := delete id roomUsers in
      put_rooms (<[room := roomUsers]> rs);;
      emit (ToRoom room) (EvUserLeft id);;
      if bool_decide (size roomUsers = 0) then
        rs ← get_rooms;
        put_rooms (delete room rs);;
        rs ← get_rooms;
        emit ToAll (EvUpdateRooms (keys rs))
      else mret ()
  | None => mret ()
  end.

Definition joinRoom (id room name : string) : Handler unit :=
  socket_join id room;;
  set_currentRoom id (Some room);;
  rs ← get_rooms;
  (if bool_decide (is_Some (rs !! room)) then mret ()
   else put_rooms (<[room := ∅]> rs));;
  rs ← get_rooms;
  match rs !! room with
  | Some roomUsers =>
      put_rooms (<[room := <[id := mkUser name false energy0]> roomUsers]> rs)
  | None => throw
  end;;
  emit (ToRoom room) (EvUserJoined id name);;
  rs ← get_rooms;
  match rs !! room with
  | Some roomUsers => emit (ToSocket id) (EvRoomUsers (entries roomUsers))
  | None => throw
  end;;
  rs ← get_rooms;
  emit ToAll (EvUpdateRooms (keys rs));;
  emit (ToSocket id) (EvYourId id).

(** [socket.on('join room', (room, username) => ...)] *)
Definition on_join_room (id : string) (currentRoom : option string)
    (room name : string) : Handler unit :=
  when_truthy currentRoom (leaveRoom id);;
  joinRoom id room name.

(** [socket.on('leave room', () => ...)] *)
Definition on_leave_room (id : string) (currentRoom : option string)
  : Handler unit :=
  when_truthy currentRoom (λ room,
    leaveRoom id room;;
    set_currentRoom id None;;
    emit (ToSocket id) EvRoomLeft).

(** [socket.on('voice', (data) => ...)] *)
Definition on_voice (id : string) (currentRoom : option string)
    (data : Audio) : Handler unit :=
  when_truthy currentRoom (λ room,
    emit (ToRoomExcept room id) (EvVoice id data)).

(** [socket.on('speaking', ({ isSpeaking, energy }) => ...)] *)
Definition on_speaking (id : string) (currentRoom : option string)
    (speaking : bool) (level : Energy) : Handler unit :=
  when_truthy currentRoom (λ room,
    rs ← get_rooms;
    match rs !! room with
    | None => throw
    | Some roomUsers =>
        match roomUsers !! id with
        | Some user =>
            put_rooms
              (<[room := <[id := mkUser (username user) speaking level]>
                           roomUsers]> rs);;
            emit (ToRoom room) (EvUserSpeaking id speaking level)
        | None => mret ()
        end
    end).

(** [socket.on('disconnect', () => ...)], run after socket.io's own
    clean-up of the closed socket. *)
Definition on_disconnect (id : string) (currentRoom : option string)
  : Handler unit :=
  socket_close id;;
  when_truthy currentRoom (leaveRoom id).

(** [io.on('connection', (socket) => { let currentRoom = null; ... })].
    Before the callback runs socket.io has put the new socket in the room
    named by its own identity. *)
Definition on_connection (id : string) : Handler unit :=
  socket_join id id;;
  set_currentRoom id None.

Definition handle (id : string) (currentRoom : option string)
    (ev : ClientEvent) : Handler unit :=
  match ev with
  | Connect => mret ()
  | JoinRoom room name => on_join_room id currentRoom room name
  | LeaveRoom => on_leave_room id currentRoom
  | Voice data => on_voice id currentRoom data
  | Speaking speaking level => on_speaking id currentRoom speaking level
  | Disconnect => on_disconnect id currentRoom
  end.

(** Run a handler: the new state and what it emitted, or an exception. *)
Definition exec (h : Handler unit) (s : State)
  : option (State * list Emission) :=
  match h s with
  | Some (_, s', out) => Some (s', out)
  | None => None
  end.

(** One event of connection [id] reaching the server.  A socket identity
    names one connection: only [Connect] is possible for a socket that is
    not connected, and nothing else is for one that is; the other
    combinations do not occur and are modelled as ignored.  [None] is an
    uncaught exception. *)
Definition step (s : State) (id : string) (ev : ClientEvent)
  : option (State * list Emission) :=
  match conns s !! id, ev with
  | None, Connect => exec (on_connection id) s
  | None, _ => Some (s, [])
  | Some _, Connect => Some (s, [])
  | Some currentRoom, _ => exec (handle id currentRoom ev) s
  end.

(** A trace of events, with everything emitted along the way. *)
Fixpoint run (s : State) (evs : list (string * ClientEvent))
  : option (State * list Emission) :=
  match evs with
  | [] => Some (s, [])
  | (id, ev) :: evs' =>
      match step s id ev with
      | None => None
      | Some (s1, out1) =>
          match run s1 evs' with
          | None => None
          | Some (s2, out2) => Some (s2, out1 ++ out2)
          end
      end
  end.

(** The events delivered to socket [j], in order. *)
Definition inbox (j : string) (out : list Emission) : list ServerEvent :=
  event <$> filter (λ e, j ∈ recipients e) out.

(** Emissions addressed to a room or to everyone, as opposed to one
    socket. *)
Definition is_broadcast (e : Emission) : bool :=
  match target e with
  | ToSocket _ => false
  | _ => true
  end.

Definition broadcasts (out : list Emission) : list (Target * ServerEvent) :=
  (λ e, (target e, event e)) <$> filter (λ e, is_broadcast e = true) out.
End Model.

Arguments User : clear implicits.
Arguments ClientEvent : clear implicits.
Arguments ServerEvent : clear implicits.
Arguments Emission : clear implicits.
Arguments State : clear implicits.
Arguments Handler : clear implicits.

(** *** Derived notions used to state and prove the properties *)

Section Views.
Context {Audio Energy : Type}.
Variable energy0 : Energy.

Abbreviation State := (State Energy).
Abbreviation Emission := (Emission Audio Energy).

Definition no_empty_room (s : State) : Prop :=
  ∀ room roomUsers, rooms s !! room = Some roomUsers → roomUsers ≠ ∅.

(** What [leaveRoom] and [joinRoom] leave in [rooms]. *)
Definition rooms_after_leave (id room : string)
    (rs : JsMap (JsMap (User Energy))) : JsMap (JsMap (User Energy)) :=
  match rs !! room with
  | None => rs
  | Some roomUsers =>
      if bool_decide (size (delete id roomUsers) = 0) then delete room rs
      else <[room := delete id roomUsers]> rs
  end.

Definition rooms_after_join (id room name : string)
    (rs : JsMap (JsMap (User Energy))) : JsMap (JsMap (User Energy)) :=
  <[room := <[id := mkUser name false energy0]> (default ∅ (rs !! room))]> rs.

(** The state and the emissions of [leaveRoom] and of [joinRoom]. *)
Definition leave_state (id room : string) (s : State) : State :=
  mkState (rooms_after_leave id room (rooms s))
    (<[room := in_room s room ∖ {[id]}]> (adapter s))
    (conns s).

Definition leave_out (id room : string) (s : State) : list Emission :=
  match rooms s !! room with
  | None => []
  | Some roomUsers =>
      mkEmission (ToRoom room) (EvUserLeft id) (in_room s room ∖ {[id]})
      :: (if bool_decide (size (delete id roomUsers) = 0) then
            [mkEmission ToAll (EvUpdateRooms (keys (delete room (rooms s))))
               (dom (conns s))]
          else [])
  end.

Definition join_state (id room name : string) (s : State) : State :=
  mkState (rooms_after_join id room name (rooms s))
    (<[room := {[id]} ∪ in_room s room]> (adapter s))
    (<[id := Some room]> (conns s)).

Definition join_out (id room name : string) (s : State) : list Emission :=
  let s' := join_state id room name s in
  [mkEmission (ToRoom room) (EvUserJoined id name) ({[id]} ∪ in_room s room);
   mkEmission (ToSocket id)
     (EvRoomUsers
        (entries
           (<[id := mkUser name false energy0]>
              (default ∅ (rooms s !! room))))) {[id]};
   mkEmission ToAll (EvUpdateRooms (keys (rooms s'))) (dom (conns s'));
   mkEmission (ToSocket id) (EvYourId id) {[id]}].

(** The room a handler acts on: the value of [currentRoom] when it is
    truthy. *)
Definition bound_room (currentRoom : option string) : option string :=
  if truthy currentRoom then currentRoom else None.

Definition closed_state (id : string) (s : State) : State :=
  mkState (rooms s) ((λ sockets : gset string, sockets ∖ {[id]}) <$> adapter s)
    (delete id (conns s)).

(** In every state the server reaches, a connection whose [currentRoom] is
    truthy is a participant of that room; this also keeps the ['speaking']
    handler from calling [has] on [undefined]. *)
Definition bound_is_member_except (skip : option string) (s : State) : Prop :=
  ∀ id room, skip ≠ Some id →
    conns s !! id = Some (Some room) → room ≠ EmptyString → id ∈ members s room.

Definition inv_registry (s : State) : Prop :=
  no_empty_room s ∧ bound_is_member_except None s.

(** Room names are non-empty strings (the client sends none other). *)
Definition wf_event (ev : ClientEvent Audio Energy) : Prop :=
  match ev with
  | JoinRoom room _ => room ≠ EmptyString
  | _ => True
  end.

Definition wf_trace (evs : list (string * ClientEvent Audio Energy)) : Prop :=
  Forall (λ e, wf_event e.2) evs.

(** The socket.io room of a name holds the participants the registry lists
    for it and, at most, one socket more: the connected socket whose
    identity is that name.  A connection is a participant of exactly the
    room its [currentRoom] names. *)
Definition binding_except (skip : option string) (s : State) : Prop :=
  (∀ r, members s r ⊆ in_room s r)
  ∧ (∀ r j, j ∈ in_room s r →
       j ∈ members s r ∨ (j = r ∧ is_Some (conns s !! j)))
  ∧ (∀ id r, skip ≠ Some id →
       (conns s !! id = Some (Some r) ↔ id ∈ members s r))
  ∧ (∀ id r, skip = Some id → id ∉ members s r)
  ∧ members s EmptyString = ∅.

Definition inv_binding (s : State) : Prop := binding_except None s.

(** The states the server reaches from its start on a trace whose room
    names are non-empty. *)
Definition reachable (s : State) : Prop :=
  ∃ evs out, wf_trace evs ∧ run (Audio:=Audio) energy0 init evs = Some (s, out).

(** The registry entry of a socket in a room, if any:
    [rooms.get(room)?.get(id)]. *)
Definition entry (s : State) (room id : string) : option (User Energy) :=
  rooms s !! room ≫= (λ roomUsers, roomUsers !! id).

End Views.

End Server.

(** * A scenario

    Three sockets and two rooms, with audio blocks as lists of integers and
    energies as integers: ["A"] and ["B"] are in ["lobby"], ["C"] is in
    ["den"]. *)

Module Scenario.
Import Server.

Definition lobby_trace : list (string * ClientEvent (list Z) Z) :=
  [("A", Connect); ("B", Connect); ("C", Connect);
   ("A", JoinRoom "lobby" "alice");
   ("B", JoinRoom "lobby" "bob");
   ("C", JoinRoom "den" "carol")].

Definition lobby_state : State Z :=
  match run (Audio:=list Z) 0%Z init lobby_trace with
  | Some (s, _) => s
  | None => init
  end.

(** A room named after a socket: ["A"] is in ["lobby"], and ["B"] joins
    the room called ["A"]. *)
Definition namesake_trace : list (string * ClientEvent (list Z) Z) :=
  [("A", Connect); ("B", Connect);
   ("A", JoinRoom "lobby" "alice");
   ("B", JoinRoom "A" "bob")].

Definition namesake_state : State Z :=
  match run (Audio:=list Z) 0%Z init namesake_trace with
  | Some (s, _) => s
  | None => init
  end.

(** A state the server does not reach: the closure of ["A"] names
    ["lobby"], whose participant map does not list ["A"]. *)
Definition stale_state : State Z :=
  mkState (JsMap.Entries
             [("lobby", JsMap.Entries [("B", mkUser "bob" false 0%Z)])])
    ∅ {["A" := Some "lobby"]}.

End Scenario.

(** * JavaScript numbers

  A JavaScript number is an IEEE-754 double.  The client computes with
  them only in [calculateEnergy] and in the threshold comparison of the
  detector.  They are modelled as the reals extended with the three special
  values, every operation following the IEEE/ECMAScript rules for special
  values and zero; the two zeros are one.  On finite operands the
  operations [add], [mul], [div], [sqrt] and [log10] are exact, which is an
  idealisation: a double operation rounds its result.  The operations
  [add_r] to [log10_r] at the end of the module take the rounding as a
  parameter, and what is stated with them holds of every rounding. *)

Module JsNum.

Inductive num :=
| Fin (x : R)
| PosInf
| NegInf
| NaN.

Definition Rsign (x : R) : comparison :=
  match total_order_T x 0 with
  | inleft (left _) => Lt
  | inleft (right _) => Eq
  | inright _ => Gt
  end.

(** [a + b] *)
Definition add (a b : num) : num :=
  match a, b with
  | NaN, _ | _, NaN => NaN
  | Fin x, Fin y => Fin (x + y)
  | PosInf, NegInf | NegInf, PosInf => NaN
  | PosInf, _ | _, PosInf => PosInf
  | NegInf, _ | _, NegInf => NegInf
  end.

Definition scale_inf (positive : bool) (x : R) : num :=
  match Rsign x with
  | Eq => NaN
  | Gt => if positive then PosInf else NegInf
  | Lt => if positive then NegInf else PosInf
  end.

(** [a * b] *)
Definition mul (a b : num) : num :=
  match a, b with
  | NaN, _ | _, NaN => NaN
  | Fin x, Fin y => Fin (x * y)
  | Fin x, PosInf | PosInf, Fin x => scale_inf true x
  | Fin x, NegInf | NegInf, Fin x => scale_inf false x
  | PosInf, PosInf | NegInf, NegInf => PosInf
  | PosInf, NegInf | NegInf, PosInf => NegInf
  end.

(** [a / b] *)
Definition div (a b : num) : num :=
  match a, b with
  | NaN, _ | _, NaN => NaN
  | Fin x, Fin y =>
      match Rsign y with
      | Eq => match Rsign x with Eq => NaN | Gt => PosInf | Lt => NegInf end
      | _ => Fin (x / y)
      end
  | Fin _, (PosInf | NegInf) => Fin 0
  | PosInf, Fin y => match Rsign y with Lt => NegInf | _ => PosInf end
  | NegInf, Fin y => match Rsign y with Lt => PosInf | _ => NegInf end
  | (PosInf | NegInf), (PosInf | NegInf) => NaN
  end.

(** [Math.sqrt(a)] *)
Definition sqrt (a : num) : num :=
  match a with
  | Fin x => match Rsign x with Lt => NaN | _ => Fin (R_sqrt.sqrt x) end
  | PosInf => PosInf
  | NegInf | NaN => NaN
  end.

(** [Math.log10(a)] *)
Definition log10 (a : num) : num :=
  match a with
  | Fin x =>
      match Rsign x with
      | Lt => NaN
      | Eq => NegInf
      | Gt => Fin (ln x / ln 10)
      end
  | PosInf => PosInf
  | NegInf | NaN => NaN
  end.

(** [a > b]: false as soon as one side is [NaN]. *)
Definition gtb (a b : num) : bool :=
  match a, b with
  | NaN, _ | _, NaN => false
  | Fin x, Fin y => if Rlt_dec y x then true else false
  | PosInf, PosInf => false
  | PosInf, _ => true
  | NegInf, _ => false
  | Fin _, PosInf => false
  | Fin _, NegInf => true
  end.

(** [a < b] *)
Definition ltb (a b : num) : bool := gtb b a.

(** [Number.isNaN(a)] *)
Definition isNaN (a : num) : bool :=
  match a with
  | NaN => true
  | _ => false
  end.

(** A length as a number. *)
Definition of_nat (n : nat) : num := Fin (INR n).

(** *** Rounding

    On finite operands a double operation returns the double nearest to the
    exact result, or an infinity when the exact result is out of range; the
    operations above are the case in which nothing is rounded.  [rnd] is
    the rounding of an exact result, and [log10_pos] is [Math.log10] on a
    positive finite number, which ECMAScript leaves to the implementation
    to approximate.  Special values and zero divisors follow the same rules
    as above. *)
Section Rounded.
Variable rnd : R → num.
Variable log10_pos : R → num.

Definition add_r (a b : num) : num :=
  match a, b with
  | Fin x, Fin y => rnd (x + y)
  | _, _ => add a b
  end.

Definition mul_r (a b : num) : num :=
  match a, b with
  | Fin x, Fin y => rnd (x * y)
  | _, _ => mul a b
  end.

Definition div_r (a b : num) : num :=
  match a, b with
  | Fin x, Fin y =>
      match Rsign y with
      | Eq => div a b
      | _ => rnd (x / y)
      end
  | _, _ => div a b
  end.

Definition sqrt_r (a : num) : num :=
  match a with
  | Fin x => match Rsign x with Lt => NaN | _ => rnd (R_sqrt.sqrt x) end
  | _ => sqrt a
  end.

Definition log10_r (a : num) : num :=
  match a with
  | Fin x => match Rsign x with Gt => log10_pos x | _ => log10 a end
  | _ => log10 a
  end.
End Rounded.

(** A number that is zero, positive or [+Infinity]. *)
Definition nonneg (a : num) : Prop :=
  match a with
  | Fin y => (0 <= y)%R
  | PosInf => True
  | _ => False
  end.

(** No rounding. *)
Definition exact_log10 (x : R) : num := Fin (ln x / ln 10).

(** *** Numbers on the wire

    socket.io sends the arguments of an event as JSON, and
    [JSON.stringify] writes [null] for [NaN] and for the infinities. *)
Inductive Json :=
| JNumber (x : R)
| JNull.

Definition to_json (a : num) : Json :=
  match a with
  | Fin x => JNumber x
  | _ => JNull
  end.

End JsNum.

(** * The client *)

Module Client.
Import JsNum.

(** VAD parameters *)
Definition ENERGY_THRESHOLD : num := Fin (-45).
Definition SPEECH_PADDING : Z := 300.

(** [audioContext.state] *)
Inductive ContextState := Running | Suspended | Closed.

(** An entry of [audioQueue]: [{ id, buffer: new Float32Array(data) }]. *)
Record AudioData := mkAudioData {
  sender : string;
  buffer : list num
}.

(** The module-level variables of the client: the [let] declarations of
    [app.js], and [sources], the buffer sources that [playNextAudio] has
    started and whose ['ended'] event has not fired yet (they live in the
    audio context). *)
Record State := mkState {
  stream : bool;                       (* a media stream is held *)
  audioContext : option ContextState;  (* [None]: still undefined *)
  scriptProcessor : bool;              (* [onaudioprocess] is attached *)
  vadEnabled : bool;
  lastVoiceDetectTime : Z;
  isCurrentlySpeaking : bool;
  currentUserId : option string;
  audioQueue : list AudioData;
  isPlaying : bool;
  sources : list AudioData
}.

Definition init : State :=
  mkState false None false false 0 false None [] false [].

(** Messages the client sends over the socket. *)
Inductive Message :=
| MsgJoinRoom (room username : string)
| MsgLeaveRoom
| MsgVoice (data : list num)
| MsgSpeaking (speaking : bool) (level : num).

(** Lines handed to [debugLog]; the two that format a number keep it as a
    number. *)
Inductive LogLine :=
| LogText (message : string)
| LogSpeakingDetected (level : num)
| LogSpeakingChanged (speaking : bool).

(** What a handler of the client does to the outside. *)
Inductive Effect :=
| Emit (m : Message)                     (* socket.emit *)
| Meter (userId : string) (level : num)  (* the meter element is updated *)
| Log (line : LogLine)                   (* debugLog *)
| ConsoleError (message : string)        (* console.error *)
| Start (a : AudioData)                  (* source.start(0) *)
| Uncaught (name : string).              (* an exception leaves the handler *)

(** [calculateEnergy(buffer)], every operation rounding its result with
    [rnd] and [Math.log10] being [log10_pos] on positive numbers. *)
Definition calculateEnergy_with (rnd log10_pos : R → num) (buffer : list num)
  : num :=
  let sum :=
    fold_left (λ sum x, add_r rnd sum (mul_r rnd x x)) buffer (Fin 0) in
  let rms := sqrt_r rnd (div_r rnd sum (of_nat (length buffer))) in
  mul_r rnd (Fin 20) (log10_r log10_pos rms).

(** [calculateEnergy(buffer)] in exact arithmetic: no operation rounds. *)
Definition calculateEnergy (buffer : list num) : num :=
  let sum := fold_left (λ sum x, add sum (mul x x)) buffer (Fin 0) in
  let rms := sqrt (div sum (of_nat (length buffer))) in
  mul (Fin 20) (log10 rms).

(** [detectVoiceActivity(energy)], with the value of [Date.now()]. *)
Definition detectVoiceActivity (energy : num) (now : Z) (c : State)
  : bool * State :=
  let timeSinceLastDetection := (now - lastVoiceDetectTime c)%Z in
  if gtb energy ENERGY_THRESHOLD then
    (true,
     mkState (stream c) (audioContext c) (scriptProcessor c) (vadEnabled c)
       now (isCurrentlySpeaking c) (currentUserId c) (audioQueue c)
       (isPlaying c) (sources c))
  else if bool_decide (timeSinceLastDetection < SPEECH_PADDING)%Z then
    (true, c)
  else (false, c).

(** [updateActivityMeter(userId, energy)]; the look-up of the meter element
    and its restyling are the effect [Meter]. *)
Definition updateActivityMeter (userId : option string) (energy : num)
  : list Effect :=
  match userId with
  | Some uid =>
      if truthy userId then [Meter uid energy]
      else [Log (LogText
              "Error: Attempted to update meter with undefined user ID")]
  | None =>
      [Log (LogText
         "Error: Attempted to update meter with undefined user ID")]
  end.

Definition set_isCurrentlySpeaking (b : bool) (c : State) : State :=
  mkState (stream c) (audioContext c) (scriptProcessor c) (vadEnabled c)
    (lastVoiceDetectTime c) b (currentUserId c) (audioQueue c)
    (isPlaying c) (sources c).

(** [processAudio(audioProcessingEvent)]: [inputData] is channel 0 of the
    event's input buffer. *)
Definition processAudio (inputData : list num) (now : Z) (c : State)
  : State * list Effect :=
  if negb (vadEnabled c) || negb (truthy (currentUserId c)) then (c, [])
  else
    let energy := calculateEnergy inputData in
    let '(isSpeaking, c1) := detectVoiceActivity energy now c in
    let out1 :=
      if isSpeaking then
        [Emit (MsgVoice inputData); Log (LogSpeakingDetected energy)]
      else [] in
    let out2 := updateActivityMeter (currentUserId c1) energy in
    if negb (Bool.eqb isSpeaking (isCurrentlySpeaking c1)) then
      (set_isCurrentlySpeaking isSpeaking c1,
       out1 ++ out2 ++
       [Emit (MsgSpeaking isSpeaking energy);
        Log (LogSpeakingChanged isSpeaking)])
    else (c1, out1 ++ out2).

(** [socket.on('your id', (id) => ...)] *)
Definition on_your_id (id : string) (c : State) : State * list Effect :=
  (mkState (stream c) (audioContext c) (scriptProcessor c) (vadEnabled c)
     (lastVoiceDetectTime c) (isCurrentlySpeaking c) (Some id)
     (audioQueue c) (isPlaying c) (sources c),
   [Log (LogText ("Received user ID: " ++ id))]).

(** *** Playback *)

(** [playNextAudio()].  [createBuffer(1, length, sampleRate)] raises a
    [NotSupportedError] when [length] is zero; by then [isPlaying] is set
    and the block is off the queue, and the exception leaves the handler
    that called [playNextAudio], where the call stands last. *)
Definition playNextAudio (c : State) : State * list Effect :=
  match audioQueue c with
  | [] =>
      (mkState (stream c) (audioContext c) (scriptProcessor c)
         (vadEnabled c) (lastVoiceDetectTime c) (isCurrentlySpeaking c)
         (currentUserId c) [] false (sources c), [])
  | audioData :: rest =>
      match buffer audioData with
      | [] =>
          (mkState (stream c) (audioContext c) (scriptProcessor c)
             (vadEnabled c) (lastVoiceDetectTime c) (isCurrentlySpeaking c)
             (currentUserId c) rest true (sources c),
           [Uncaught "NotSupportedError"])
      | _ :: _ =>
          (mkState (stream c) (audioContext c) (scriptProcessor c)
             (vadEnabled c) (lastVoiceDetectTime c) (isCurrentlySpeaking c)
             (currentUserId c) rest true (sources c ++ [audioData]),
           [Start audioData])
      end
  end.

(** [socket.on('voice', ({ id, data }) => ...)] *)
Definition on_voice (id : string) (data : list num) (c : State)
  : State * list Effect :=
  match audioContext c with
  | Some Running =>
      let audioData := mkAudioData id data in
      let c1 :=
        mkState (stream c) (audioContext c) (scriptProcessor c)
          (vadEnabled c) (lastVoiceDetectTime c) (isCurrentlySpeaking c)
          (currentUserId c) (audioQueue c ++ [audioData]) (isPlaying c)
          (sources c) in
      if negb (isPlaying c1) then playNextAudio c1 else (c1, [])
  | _ => (c, [])
  end.

(** The ['ended'] event of the [i]-th live source, whose handler is
    [playNextAudio] ([source.onended = playNextAudio]).  There is no such
    event for a source that is not live. *)
Definition on_ended (i : nat) (c : State) : State * list Effect :=
  match sources c !! i with
  | Some _ =>
      playNextAudio
        (mkState (stream c) (audioContext c) (scriptProcessor c)
           (vadEnabled c) (lastVoiceDetectTime c) (isCurrentlySpeaking c)
           (currentUserId c) (audioQueue c) (isPlaying c)
           (delete i (sources c)))
  | None => (c, [])
  end.

(** The browser changes the state of the audio context (if there is
    one). *)
Definition on_statechange (st : ContextState) (c : State) : State :=
  match audioContext c with
  | Some _ =>
      mkState (stream c) (Some st) (scriptProcessor c) (vadEnabled c)
        (lastVoiceDetectTime c) (isCurrentlySpeaking c) (currentUserId c)
        (audioQueue c) (isPlaying c) (sources c)
  | None => c
  end.

(** What can happen to the playback side of a listening client. *)
Inductive PlaybackEvent :=
| VoiceArrives (id : string) (data : list num)
| SourceEnded (i : nat)
| ContextChanges (st : ContextState).

Definition playback_step (c : State) (ev : PlaybackEvent)
  : State * list Effect :=
  match ev with
  | VoiceArrives id data => on_voice id data c
  | SourceEnded i => on_ended i c
  | ContextChanges st => (on_statechange st c, [])
  end.

Fixpoint playback_run (c : State) (evs : list PlaybackEvent)
  : State * list Effect :=
  match evs with
  | [] => (c, [])
  | ev :: evs' =>
      let '(c1, out1) := playback_step c ev in
      let '(c2, out2) := playback_run c1 evs' in
      (c2, out1 ++ out2)
  end.

(** The blocks handed to [source.start], in order. *)
Fixpoint started (out : list Effect) : list AudioData :=
  match out with
  | [] => []
  | Start a :: out' => a :: started out'
  | _ :: out' => started out'
  end.

(** The blocks of a trace that the ['voice'] handler pushed on the queue,
    in arrival order: those that arrived while the context was running. *)
Fixpoint enqueued (c : State) (evs : list PlaybackEvent) : list AudioData :=
  match evs with
  | [] => []
  | ev :: evs' =>
      match ev, audioContext c with
      | VoiceArrives id data, Some Running =>
          mkAudioData id data :: enqueued (fst (playback_step c ev)) evs'
      | _, _ => enqueued (fst (playback_step c ev)) evs'
      end
  end.

(** *** Starting capture *)

(** How a promise of the browser settles. *)
Inductive Outcome := Resolved | Rejected (message : string).

(** The answers of the browser during one call of [startVoiceChat]. *)
Record Browser := mkBrowser {
  getUserMedia : Outcome;          (* navigator.mediaDevices.getUserMedia *)
  newContextState : ContextState;  (* state of the new AudioContext *)
  resume : Outcome                 (* audioContext.resume() *)
}.

Definition state_name (st : ContextState) : string :=
  match st with
  | Running => "running"
  | Suspended => "suspended"
  | Closed => "closed"
  end.

(** The [catch (error)] block of [startVoiceChat]. *)
Definition catch_error (message : string) : list Effect :=
  [ConsoleError "Error starting voice chat:";
   Log (LogText ("Error starting voice chat: " ++ message));
   Log (LogText "Full error object:")].

(** [startVoiceChat()], from the creation of the media stream source to
    the end of the [try] block. *)
Definition attach_processing (st : ContextState) (c : State)
  : State * list Effect :=
  (mkState true (Some st) true true (lastVoiceDetectTime c)
     (isCurrentlySpeaking c) (currentUserId c) (audioQueue c) (isPlaying c)
     (sources c),
   [Log (LogText "Media stream source created.");
    Log (LogText "Analyser node created and configured.");
    Log (LogText "Script processor node created.");
    Log (LogText "Audio nodes connected.");
    Log (LogText "Audio processing function attached.");
    Log (LogText "Voice chat started successfully.")]).

(** [startVoiceChat()] *)
Definition startVoiceChat (env : Browser) (c : State)
  : State * list Effect :=
  if negb (truthy (currentUserId c)) then
    (c, [Log (LogText
           "Error: User ID not set. Please try rejoining the room.")])
  else
    let out0 := [Log (LogText "Starting voice chat...");
                 Log (LogText "Requesting microphone access...")] in
    match getUserMedia env with
    | Rejected message => (c, out0 ++ catch_error message)
    | Resolved =>
        let st := newContextState env in
        let c1 :=
          mkState true (Some st) (scriptProcessor c) (vadEnabled c)
            (lastVoiceDetectTime c) (isCurrentlySpeaking c)
            (currentUserId c) (audioQueue c) (isPlaying c) (sources c) in
        let out1 :=
          out0 ++
          [Log (LogText "Microphone access granted.");
           Log (LogText
                  ("Audio context created. State: " ++ state_name st))] in
        match st with
        | Suspended =>
            let out2 :=
              out1 ++
              [Log (LogText
                 "Audio context is suspended. Attempting to resume...")] in
            match resume env with
            | Rejected message => (c1, out2 ++ catch_error message)
            | Resolved =>
                let '(c2, out3) := attach_processing Running c1 in
                (c2,
                 out2 ++
                 [Log (LogText
                    ("Audio context resumed. New state: "
                     ++ state_name Running))] ++ out3)
            end
        | _ =>
            let '(c2, out3) := attach_processing st c1 in
            (c2, out1 ++ out3)
        end
    end.

(** *** Traces of the capture side *)

(** The detector run over a sequence of readings [(energy, now)]. *)
Fixpoint vad_run (c : State) (readings : list (num * Z)) : list bool :=
  match readings with
  | [] => []
  | (energy, now) :: rest =>
      let '(speaking, c1) := detectVoiceActivity energy now c in
      speaking :: vad_run c1 rest
  end.

(** [processAudio] run over a sequence of blocks [(inputData, now)]: for
    each block, how the detector classifies it and what the handler
    does. *)
Fixpoint capture_run (c : State) (blocks : list (list num * Z))
  : list (bool * list Effect) :=
  match blocks with
  | [] => []
  | (inputData, now) :: rest =>
      let speaking :=
        (detectVoiceActivity (calculateEnergy inputData) now c).1 in
      (speaking, (processAudio inputData now c).2)
      :: capture_run (processAudio inputData now c).1 rest
  end.

(** The root-mean-square amplitude of a block, as the specification words
    it: the square root of the mean of the squared samples. *)
Fixpoint sum_of_squares (samples : list num) : num :=
  match samples with
  | [] => Fin 0
  | x :: rest => add (mul x x) (sum_of_squares rest)
  end.

Definition rms_spec (samples : list num) : num :=
  sqrt (div (sum_of_squares samples) (of_nat (length samples))).

(** The flag [isPlaying] tells whether a source is live; there is at most
    one, and nothing waits in the queue while none is. *)
Definition playback_inv (c : State) : Prop :=
  (isPlaying c = false → audioQueue c = [] ∧ sources c = [])
  ∧ (isPlaying c = true → length (sources c) = 1).

(** Blocks of at least one sample: those a client sends, the script
    processor handing [processAudio] 1024 samples at a time. *)
Definition has_samples (a : AudioData) : Prop := buffer a ≠ [].

(** What the playback side keeps when every block has samples. *)
Definition playback_ok (c : State) : Prop :=
  playback_inv c ∧ Forall has_samples (audioQueue c).

Definition blocks_have_samples (evs : list PlaybackEvent) : Prop :=
  Forall (λ ev, match ev with
                | VoiceArrives _ data => data ≠ []
                | _ => True
                end) evs.

End Client.

(** * The rest of the client: page, meter, user list, stopping *)

Module ClientPage.
Import JsNum Client.

(** [Math.min(a, b)] and [Math.max(a, b)]: [NaN] as soon as one argument
    is. *)
Definition min (a b : num) : num :=
  if isNaN a || isNaN b then NaN else if gtb a b then b else a.

Definition max (a b : num) : num :=
  if isNaN a || isNaN b then NaN else if gtb a b then a else b.

(** The width [updateActivityMeter] gives the meter element, in percent:
    [Math.max(0, Math.min(100, (energy + 60) * 2.5))]. *)
Definition normalizedEnergy (energy : num) : num :=
  max (Fin 0) (min (Fin 100) (mul (add energy (Fin 60)) (Fin (5 / 2)))).

(** [getColorForEnergy(energy)] *)
Definition getColorForEnergy (energy : num) : string :=
  if ltb energy (Fin 30) then "#00ff00"
  else if ltb energy (Fin 70) then "#ffff00"
  else "#ff0000".

(** What the effect [Meter] writes on the meter element: its width and its
    background colour. *)
Definition meter_style (energy : num) : num * string :=
  (normalizedEnergy energy, getColorForEnergy (normalizedEnergy energy)).

(** The elements of the page the handlers read and write.  [userList] holds
    the [li] children of the list element in document order, each with the
    identity its [id] attribute carries (after the prefix ["user-"]) and the
    user name its [span] shows; the meter element of an identity exists
    exactly when such a child does. *)
Record Page := mkPage {
  usernameInput : string;      (* usernameInput.value *)
  roomInput : string;          (* roomInput.value *)
  currentRoomText : string;    (* currentRoom.textContent *)
  startDisabled : bool;        (* startButton.disabled *)
  stopDisabled : bool;         (* stopButton.disabled *)
  userList : list (string * string)
}.

Definition set_userList (ul : list (string * string)) (p : Page) : Page :=
  mkPage (usernameInput p) (roomInput p) (currentRoomText p)
    (startDisabled p) (stopDisabled p) ul.

(** [if (s)] for a string: the empty string is falsy. *)
Definition truthy_string (s : string) : bool := bool_decide (s ≠ EmptyString).

(** [joinRoom()] of the client, the click handler of the join button.
    [trim] is [String.prototype.trim]. *)
Definition joinRoom (trim : string → string) (p : Page)
  : Page * list Effect :=
  let room := trim (roomInput p) in
  let username := trim (usernameInput p) in
  if truthy_string room && truthy_string username then
    (mkPage (usernameInput p) EmptyString room false true (userList p),
     [Emit (MsgJoinRoom room username);
      Log (LogText ("Joining room: " ++ room ++ " as " ++ username))])
  else (p, []).

(** Whether a character occurs in a string. *)
Fixpoint occurs (c : Ascii.ascii) (s : string) : bool :=
  match s with
  | EmptyString => false
  | String c' s' => bool_decide (c' = c) || occurs c s'
  end.

(** The characters with a meaning in markup: ["<"] (60), ["&"] (38) and
    the double quote (34). *)
Definition less_than_sign : Ascii.ascii := Ascii.ascii_of_nat 60.
Definition ampersand : Ascii.ascii := Ascii.ascii_of_nat 38.
Definition quotation_mark : Ascii.ascii := Ascii.ascii_of_nat 34.

(** A string that stays text when it is written between two tags. *)
Definition text_safe (s : string) : bool :=
  negb (occurs less_than_sign s) && negb (occurs ampersand s).

(** A string that stays inside a double-quoted attribute value. *)
Definition attribute_safe (s : string) : bool :=
  negb (occurs quotation_mark s) && negb (occurs ampersand s).

(** [addUserToList({ id, username })].  The content of the new item is
    markup: the user name is written between the tags of a [span] and the
    identity inside the [id] attribute of the meter, neither being escaped,
    and the browser parses the result.  When the two stay in their places
    the item is the one described at [Page].  Otherwise the name or the
    identity is parsed as markup of its own, and what elements the document
    then holds is outside this model: the result is [None]. *)
Definition addUserToList (id username : string) (p : Page)
  : option (Page * list Effect) :=
  if text_safe username && attribute_safe id then
    Some (set_userList (userList p ++ [(id, username)]) p,
          [Log (LogText ("Added user to list: " ++ username ++ " (ID: " ++ id
                         ++ ")"))])
  else None.

(** The children without the first one whose identity is [userId]:
    [document.getElementById] finds the first element in document order. *)
Fixpoint remove_first (userId : string) (ul : list (string * string))
  : list (string * string) :=
  match ul with
  | [] => []
  | (id, username) :: rest =>
      if bool_decide (id = userId) then rest
      else (id, username) :: remove_first userId rest
  end.

(** [removeUserFromList(userId)] *)
Definition removeUserFromList (userId : string) (p : Page)
  : Page * list Effect :=
  if bool_decide (userId ∈ (userList p).*1) then
    (set_userList (remove_first userId (userList p)) p,
     [Log (LogText ("Removed user from list: " ++ userId))])
  else (p, []).

(** [updateUserList(users)]: the list is emptied, then each user of the
    array is added. *)
Definition updateUserList (users : list (string * Server.User Json))
    (p : Page) : option (Page * list Effect) :=
  fold_left
    (λ acc entry,
       '(p0, out0) ← acc;
       '(p1, out1) ← addUserToList entry.1 (Server.username entry.2) p0;
       Some (p1, out0 ++ out1))
    users (Some (set_userList [] p, [])).

(** [socket.on('room users', (users) => ...)] *)
Definition on_room_users (users : list (string * Server.User Json))
    (p : Page) : option (Page * list Effect) :=
  '(p1, out1) ← updateUserList users p;
  Some (p1, out1 ++ [Log (LogText ("Updated user list. Users in room: "
                                   ++ pretty (length users)))]).

(** [socket.on('user joined', (user) => ...)] *)
Definition on_user_joined (id username : string) (p : Page)
  : option (Page * list Effect) :=
  '(p1, out1) ← addUserToList id username p;
  Some (p1, out1 ++ [Log (LogText ("User joined: " ++ username ++ " (ID: "
                                   ++ id ++ ")"))]).

(** [socket.on('user left', (userId) => ...)] *)
Definition on_user_left (userId : string) (p : Page) : Page * list Effect :=
  let '(p1, out1) := removeUserFromList userId p in
  (p1, out1 ++ [Log (LogText ("User left: " ++ userId))]).

(** [socket.on('room left', () => ...)] *)
Definition on_room_left (p : Page) : Page * list Effect :=
  (mkPage (usernameInput p) (roomInput p) "None" (startDisabled p)
     (stopDisabled p) [],
   [Log (LogText "Left the room.")]).

(** What the page does with an event of the server.  The client registers
    no listener for ['update rooms']; ['voice'] and ['your id'] do not touch
    the elements of [Page], and ['user speaking'] writes the style of a
    meter only, also when [energy.toFixed] then raises on an energy that
    arrived as [null]. *)
Definition page_event (ev : Server.ServerEvent (list num) Json) (p : Page)
  : option Page :=
  match ev with
  | Server.EvRoomUsers users => fst <$> on_room_users users p
  | Server.EvUserJoined id username => fst <$> on_user_joined id username p
  | Server.EvUserLeft id => Some (on_user_left id p).1
  | Server.EvRoomLeft => Some (on_room_left p).1
  | _ => Some p
  end.

(** *** Observations on the effects of the capture side *)

(** The flags of the ['speaking'] messages among the effects, in order. *)
Fixpoint notified (out : list Effect) : list bool :=
  match out with
  | [] => []
  | Emit (MsgSpeaking speaking _) :: out' => speaking :: notified out'
  | _ :: out' => notified out'
  end.

(** [n] flags that alternate, the first being [b]. *)
Fixpoint alternating (b : bool) (n : nat) : list bool :=
  match n with
  | 0 => []
  | S n' => b :: alternating (negb b) n'
  end.

(** *** Stopping capture *)

(** What [stopVoiceChat] does to the outside: calls on the browser's
    objects, and effects as before. *)
Inductive Action :=
| StopTracks             (* stream.getTracks().forEach(track => track.stop()) *)
| CloseContext           (* audioContext.close() *)
| DisconnectProcessor    (* scriptProcessor.disconnect() *)
| Do (e : Effect).

(** [stopVoiceChat()].  The variables [stream], [audioContext] and
    [scriptProcessor] keep their objects; the context reports its closing
    later, as a change of its state.  The writes to the two buttons are
    outside [State]. *)
Definition stopVoiceChat (c : State) : State * list Action :=
  (mkState (stream c) (audioContext c) (scriptProcessor c) false
     (lastVoiceDetectTime c) (isCurrentlySpeaking c) (currentUserId c)
     (audioQueue c) (isPlaying c) (sources c),
   (if stream c then [StopTracks] else [])
   ++ match audioContext c with
      | Some _ => [CloseContext]
      | None => []
      end
   ++ (if scriptProcessor c then [DisconnectProcessor] else [])
   ++ [Do (Log (LogText "Voice chat stopped.")); Do (Emit MsgLeaveRoom)]).

(** *** The wire between client and server *)

(** A message of the client as the event the server receives: the event
    names of [socket.emit] in the client are those of [socket.on] in the
    server.  The audio block travels as binary data, sample by sample; the
    energy of a ['speaking'] message travels as JSON. *)
Definition to_server (m : Message) : Server.ClientEvent (list num) Json :=
  match m with
  | MsgJoinRoom room username => Server.JoinRoom room username
  | MsgLeaveRoom => Server.LeaveRoom
  | MsgVoice data => Server.Voice data
  | MsgSpeaking speaking level => Server.Speaking speaking (to_json level)
  end.

(** The [0] the server stores as the energy of a new user. *)
Definition energy0 : Json := JNumber 0.

(** The messages among the effects of a handler, in order. *)
Fixpoint sent (out : list Effect) : list Message :=
  match out with
  | [] => []
  | Emit m :: out' => m :: sent out'
  | _ :: out' => sent out'
  end.

(** What a page looks like after the events of [evs], in order. *)
Definition handle_all (evs : list (Server.ServerEvent (list num) Json))
    (p : Page) : option Page :=
  fold_left (λ acc ev, acc ≫= page_event ev) evs (Some p).

(** The item of the user list for an entry of the registry. *)
Definition item (e : string * Server.User Json) : string * string :=
  (e.1, Server.username e.2).

(** The entries the registry holds for a room, in the order of joining
    ([[]] when the room is absent). *)
Definition roster (s : Server.State Json) (room : string)
  : list (string * Server.User Json) :=
  JsMap.entries (default ∅ (Server.rooms s !! room)).

(** The user list behind every connection bound to a room is the roster of
    that room. *)
Definition lists_mirror (s : Server.State Json)
    (lists : string → list (string * string)) : Prop :=
  ∀ j r, Server.conns s !! j = Some (Some r) → lists j = item <$> roster s r.

(** The entries and the events whose identities and user names stay in
    their places in the markup of the user list, and what such an event
    makes of the list. *)
Definition entry_safe (e : string * Server.User Json) : Prop :=
  attribute_safe e.1 = true ∧ text_safe (Server.username e.2) = true.

Definition event_safe (ev : Server.ServerEvent (list num) Json) : Prop :=
  match ev with
  | Server.EvUserJoined id name =>
      attribute_safe id = true ∧ text_safe name = true
  | Server.EvRoomUsers users => Forall entry_safe users
  | _ => True
  end.

(** A socket and its event, as far as the markup goes. *)
Definition sender_safe (id : string)
    (ev : Server.ClientEvent (list num) Json) : Prop :=
  attribute_safe id = true
  ∧ match ev with
    | Server.JoinRoom _ name => text_safe name = true
    | _ => True
    end.

(** A socket of [ids] and its event, no room being named after a socket of
    [ids]. *)
Definition sender_apart (ids : gset string) (id : string)
    (ev : Server.ClientEvent (list num) Json) : Prop :=
  id ∈ ids
  ∧ match ev with
    | Server.JoinRoom room _ => room ∉ ids
    | _ => True
    end.

Definition list_after (ev : Server.ServerEvent (list num) Json)
    (l : list (string * string)) : list (string * string) :=
  match ev with
  | Server.EvRoomUsers users => item <$> users
  | Server.EvUserJoined id name => l ++ [(id, name)]
  | Server.EvUserLeft id => remove_first id l
  | Server.EvRoomLeft => []
  | _ => l
  end.

(** *** Traces the pages can follow *)

(** The sockets of a trace, and the traces on which no room is named after
    one of them: socket.io keeps a room of its own for every socket, under
    the socket's identity. *)
Definition socket_ids (evs : list (string * Server.ClientEvent (list num) Json))
  : gset string :=
  list_to_set evs.*1.

Definition apart (ids : gset string)
    (evs : list (string * Server.ClientEvent (list num) Json)) : Prop :=
  Forall (λ e, sender_apart ids e.1 e.2) evs.

Definition names_apart
    (evs : list (string * Server.ClientEvent (list num) Json)) : Prop :=
  apart (socket_ids evs) evs.

(** The traces on which every identity and every user name stays in its
    place in the markup of the user list. *)
Definition markup_safe
    (evs : list (string * Server.ClientEvent (list num) Json)) : Prop :=
  Forall (λ e, sender_safe e.1 e.2) evs.

(** What holds of the registry on such traces: the entries of every room
    are safe, and every participant has one entry. *)
Definition room_ok (us : JsMap.JsMap (Server.User Json)) : Prop :=
  Forall entry_safe (JsMap.entries us) ∧ JsMap.unique_keys us.

Definition registry_ok (s : Server.State Json) : Prop :=
  ∀ r us, Server.rooms s !! r = Some us → room_ok us.

Definition rooms_apart (ids : gset string) (s : Server.State Json) : Prop :=
  dom (Server.conns s) ⊆ ids
  ∧ ∀ j r, Server.conns s !! j = Some (Some r) → r ∉ ids.

(** What an event of the server means to the playback side of a client:
    only ['voice'] reaches it. *)
Definition playback_of (ev : Server.ServerEvent (list num) Json)
  : option PlaybackEvent :=
  match ev with
  | Server.EvVoice id data => Some (VoiceArrives id data)
  | _ => None
  end.

(** *** A scenario with clients

    Two sockets in ["lobby"], with audio blocks and energies as the client
    sends them. *)
Definition pair_trace : list (string * Server.ClientEvent (list num) Json) :=
  [("A", Server.Connect); ("B", Server.Connect);
   ("A", Server.JoinRoom "lobby" "alice");
   ("B", Server.JoinRoom "lobby" "bob")].

Definition pair_state : Server.State Json :=
  match Server.run (Audio:=list num) energy0 Server.init pair_trace with
  | Some (s, _) => s
  | None => Server.init
  end.

End ClientPage.

(** * Properties of the client *)

Module JsNumFacts.
Import JsNum.
Local Open Scope R_scope.

Lemma Rsign_pos x : 0 < x → Rsign x = Gt.
Proof.
  intros Hx. unfold Rsign.
  destruct (total_order_T x 0) as [[H | H] | H]; [lra | lra | reflexivity].
Qed.

Lemma Rsign_zero : Rsign 0 = Eq.
Proof.
  unfold Rsign.
  destruct (total_order_T 0 0) as [[H | H] | H]; [lra | reflexivity | lra].
Qed.

Lemma Rsign_neg x : x < 0 → Rsign x = Lt.
Proof.
  intros Hx. unfold Rsign.
  destruct (total_order_T x 0) as [[H | H] | H]; [reflexivity | lra | lra].
Qed.

Lemma add_comm a b : add a b = add b a.
Proof. destruct a, b; simpl; try reflexivity. f_equal. ring. Qed.

Lemma add_assoc a b c : add a (add b c) = add (add a b) c.
Proof. destruct a, b, c; simpl; try reflexivity. f_equal. ring. Qed.

Lemma add_zero_l a : add (Fin 0) a = a.
Proof. destruct a; simpl; try reflexivity. f_equal. ring. Qed.

Lemma gtb_Fin x y : gtb (Fin x) (Fin y) = true ↔ y < x.
Proof. simpl. destruct (Rlt_dec y x); split; auto; discriminate. Qed.

(** Nothing is below [NegInf]: it is the floor of the numbers. *)
Lemma NegInf_floor a : gtb NegInf a = false.
Proof. destruct a; reflexivity. Qed.

Lemma mul_20_NegInf : mul (Fin 20) NegInf = NegInf.
Proof. simpl. unfold scale_inf. rewrite Rsign_pos by lra. reflexivity. Qed.

Example special_values :
  add PosInf NegInf = NaN ∧ add (Fin 1) PosInf = PosInf
  ∧ div (Fin 0) (Fin 0) = NaN ∧ div (Fin 1) (Fin 0) = PosInf
  ∧ log10 (Fin 0) = NegInf ∧ sqrt NegInf = NaN
  ∧ gtb NaN (Fin 0) = false ∧ gtb (Fin 0) NaN = false
  ∧ gtb PosInf NegInf = true.
Proof.
  unfold div, log10. rewrite Rsign_zero, (Rsign_pos 1) by lra.
  repeat split.
Qed.
End JsNumFacts.

Module ClientFacts.
Import JsNum JsNumFacts Client.

(** **** Energy meter *)

(** The loop of [calculateEnergy] started from any partial sum. *)
Lemma energy_loop samples acc :
  fold_left (λ sum x, add sum (mul x x)) samples acc
  = add acc (sum_of_squares samples).
Proof.
  revert acc. induction samples as [| x rest IH]; intros acc; simpl.
  - destruct acc; simpl; try reflexivity. f_equal. ring.
  - rewrite IH, add_assoc. reflexivity.
Qed.

Lemma calculateEnergy_rms samples :
  calculateEnergy samples = mul (Fin 20) (log10 (rms_spec samples)).
Proof.
  unfold calculateEnergy, rms_spec.
  rewrite energy_loop, add_zero_l. reflexivity.
Qed.

(** A block of no samples has no mean: [0 / 0]. *)
Example calculateEnergy_empty : calculateEnergy [] = NaN.
Proof.
  unfold calculateEnergy, of_nat, div. cbn [fold_left length INR].
  rewrite Rsign_zero. reflexivity.
Qed.

Lemma sum_of_squares_uniform (a : R) n :
  sum_of_squares (replicate n (Fin a)) = Fin (INR n * (a * a)).
Proof.
  induction n as [| n IH].
  - simpl. f_equal. ring.
  - cbn [replicate sum_of_squares]. rewrite IH, S_INR. simpl. f_equal. ring.
Qed.

Lemma rms_uniform (a : R) n :
  (0 < n)%nat → (0 <= a)%R → rms_spec (replicate n (Fin a)) = Fin a.
Proof.
  intros Hn Ha. unfold rms_spec, of_nat.
  rewrite sum_of_squares_uniform, length_replicate.
  assert (0 < INR n)%R as Hpos by (apply lt_0_INR; lia).
  unfold div. rewrite (Rsign_pos (INR n)) by assumption.
  replace (INR n * (a * a) / INR n)%R with (a * a)%R by (field; lra).
  unfold sqrt.
  destruct (Rle_lt_or_eq_dec 0 a Ha) as [Hlt | Heq].
  - rewrite Rsign_pos by nra. f_equal. apply sqrt_square. lra.
  - subst a. replace (0 * 0)%R with 0%R by ring.
    rewrite Rsign_zero. f_equal. apply sqrt_0.
Qed.

Lemma all_zero_replicate (samples : list num) :
  Forall (λ x, x = Fin 0) samples →
  samples = replicate (length samples) (Fin 0).
Proof.
  induction 1 as [| x rest Hx _ IH]; simpl; [reflexivity |].
  rewrite Hx. f_equal. exact IH.
Qed.

Lemma calculateEnergy_silent samples :
  samples ≠ [] → Forall (λ x, x = Fin 0) samples →
  calculateEnergy samples = NegInf.
Proof.
  intros Hne Hzero.
  rewrite calculateEnergy_rms, (all_zero_replicate samples Hzero).
  rewrite rms_uniform.
  - simpl. rewrite Rsign_zero. apply mul_20_NegInf.
  - destruct samples; [congruence | simpl; lia].
  - lra.
Qed.

(** The claim of C6 fails on the code: for a silent block the meter returns
    [-Infinity], the unguarded [20 * log10(0)].  It is no finite floor, and
    no number on the wire: the ['speaking'] message that carries it arrives
    with [null] for its energy. *)
Lemma silent_block_has_no_floor :
  calculateEnergy [Fin 0; Fin 0] = NegInf
  ∧ (∀ x, calculateEnergy [Fin 0; Fin 0] ≠ Fin x)
  ∧ to_json (calculateEnergy [Fin 0; Fin 0]) = JNull.
Proof.
  assert (calculateEnergy [Fin 0; Fin 0] = NegInf) as ->
    by (apply calculateEnergy_silent; [discriminate | repeat constructor]).
  repeat split. discriminate.
Qed.

(** Without rounding the operations are those of the model. *)
Lemma calculateEnergy_exact samples :
  calculateEnergy_with Fin exact_log10 samples = calculateEnergy samples.
Proof.
  assert (∀ a b, add_r Fin a b = add a b) as Hadd
    by (intros [] []; reflexivity).
  assert (∀ a b, mul_r Fin a b = mul a b) as Hmul
    by (intros [] []; reflexivity).
  assert (∀ a b, div_r Fin a b = div a b) as Hdiv
    by (intros [x | | |] [y | | |]; try reflexivity; cbn;
        destruct (Rsign y); reflexivity).
  assert (∀ a, sqrt_r Fin a = sqrt a) as Hsqrt
    by (intros [x | | |]; reflexivity).
  assert (∀ a, log10_r exact_log10 a = log10 a) as Hlog
    by (intros [x | | |]; try reflexivity; cbn; destruct (Rsign x);
        reflexivity).
  unfold calculateEnergy_with, calculateEnergy.
  rewrite Hmul, Hlog, Hsqrt, Hdiv. do 4 f_equal.
  generalize (Fin 0). induction samples as [| x rest IH]; intros acc;
    [reflexivity |].
  cbn [fold_left]. rewrite Hadd, Hmul. apply IH.
Qed.

Section Rounding.
(** A rounding of the exact results: zero is exact, the result is a number,
    and the result of a non-negative number is not negative.
    [Math.log10] of a positive number is a number. *)
Variables rnd log10_pos : R → num.
Hypothesis rnd_zero : rnd 0 = Fin 0.
Hypothesis rnd_number : ∀ x, isNaN (rnd x) = false.
Hypothesis rnd_nonneg : ∀ x, (0 <= x)%R → nonneg (rnd x).
Hypothesis log10_number : ∀ x, (0 < x)%R → isNaN (log10_pos x) = false.

Lemma rounded_loop_zero samples :
  Forall (λ x, x = Fin 0) samples →
  fold_left (λ sum x, add_r rnd sum (mul_r rnd x x)) samples (Fin 0) = Fin 0.
Proof.
  induction 1 as [| x rest -> _ IH]; [reflexivity |].
  cbn [fold_left mul_r add_r].
  replace (0 * 0)%R with 0%R by ring. rewrite rnd_zero.
  replace (0 + 0)%R with 0%R by ring. rewrite rnd_zero. exact IH.
Qed.

Lemma rounded_loop_nonneg samples acc :
  Forall (λ x, ∃ y, x = Fin y) samples → nonneg acc →
  nonneg (fold_left (λ sum x, add_r rnd sum (mul_r rnd x x)) samples acc).
Proof.
  intros Hfin. revert acc.
  induction Hfin as [| x rest [y ->] _ IH]; intros acc Hacc; [exact Hacc |].
  cbn [fold_left]. apply IH. cbn [mul_r].
  pose proof (rnd_nonneg (y * y) ltac:(nra)) as Hsq.
  destruct acc as [a | | |]; try contradiction;
    destruct (rnd (y * y)) as [q | | |]; try contradiction; cbn in *;
    try exact I.
  apply rnd_nonneg. lra.
Qed.

(** C6, amended (energy meter contract).  [calculateEnergy] is a pure
    function of the block.  Whatever the rounding of the arithmetic, it
    applies no floor: a non-empty all-zero block yields [-Infinity], which
    is not [NaN] and exceeds no threshold, but is sent over the socket as
    [null]; a non-empty block of finite samples never yields [NaN], and the
    empty block does.  Without rounding the result is [20 * log10] of the
    block's root-mean-square amplitude, and [20 * log10(a)] for a non-empty
    block of uniform positive amplitude [a]. *)
Theorem energy_meter_contract :
  calculateEnergy_with rnd log10_pos [] = NaN
  ∧ (∀ samples, samples ≠ [] → Forall (λ x, x = Fin 0) samples →
       calculateEnergy_with rnd log10_pos samples = NegInf)
  ∧ (isNaN NegInf = false ∧ (∀ x, gtb NegInf x = false)
     ∧ to_json NegInf = JNull)
  ∧ (∀ samples, samples ≠ [] → Forall (λ x, ∃ y, x = Fin y) samples →
       isNaN (calculateEnergy_with rnd log10_pos samples) = false)
  ∧ (∀ samples,
       calculateEnergy_with Fin exact_log10 samples
       = mul (Fin 20) (log10 (rms_spec samples)))
  ∧ (∀ n a, (0 < n)%nat → (0 < a)%R →
       calculateEnergy_with Fin exact_log10 (replicate n (Fin a))
       = mul (Fin 20) (log10 (Fin a))).
Proof.
  assert (∀ samples : list num, samples ≠ [] →
            Rsign (INR (length samples)) = Gt) as Hlen.
  { intros samples Hne. apply Rsign_pos, lt_0_INR.
    destruct samples; [congruence | simpl; lia]. }
  split; [| split; [| split; [| split; [| split]]]].
  - unfold calculateEnergy_with, of_nat, div_r.
    cbn [fold_left length INR]. rewrite Rsign_zero.
    unfold div. rewrite Rsign_zero. reflexivity.
  - intros samples Hne Hzero. unfold calculateEnergy_with.
    rewrite (rounded_loop_zero samples Hzero). unfold of_nat, div_r.
    rewrite (Hlen samples Hne).
    replace (0 / INR (length samples))%R with 0%R by (unfold Rdiv; ring).
    rewrite rnd_zero. unfold sqrt_r. rewrite Rsign_zero, sqrt_0, rnd_zero.
    unfold log10_r. rewrite Rsign_zero. unfold log10. rewrite Rsign_zero.
    apply mul_20_NegInf.
  - split; [reflexivity |]. split; [apply NegInf_floor | reflexivity].
  - intros samples Hne Hfin. unfold calculateEnergy_with.
    pose proof (rounded_loop_nonneg samples (Fin 0) Hfin (Rle_refl 0)) as Hsum.
    set (sum := fold_left _ samples (Fin 0)) in *.
    assert (nonneg (div_r rnd sum (of_nat (length samples)))) as Hmean.
    { unfold of_nat, div_r. destruct sum as [q | | |]; try contradiction.
      - rewrite (Hlen samples Hne). apply rnd_nonneg. cbn in Hsum.
        apply Rmult_le_pos; [exact Hsum |].
        apply Rlt_le, Rinv_0_lt_compat, lt_0_INR.
        destruct samples; [congruence | simpl; lia].
      - unfold div. rewrite (Hlen samples Hne). exact I. }
    set (mean := div_r rnd sum _) in *.
    assert (nonneg (sqrt_r rnd mean)) as Hrms.
    { unfold sqrt_r. destruct mean as [q | | |]; try contradiction.
      - cbn in Hmean.
        destruct (Rsign q) eqn:Hq;
          [apply rnd_nonneg, sqrt_pos | | apply rnd_nonneg, sqrt_pos].
        unfold Rsign in Hq.
        destruct (total_order_T q 0) as [[? | ?] | ?]; try discriminate. lra.
      - exact I. }
    set (rms := sqrt_r rnd mean) in *.
    assert (isNaN (log10_r log10_pos rms) = false) as Hlog.
    { unfold log10_r. destruct rms as [q | | |]; try contradiction.
      - cbn in Hrms. destruct (Rsign q) eqn:Hq.
        + unfold log10. rewrite Hq. reflexivity.
        + unfold Rsign in Hq.
          destruct (total_order_T q 0) as [[? | ?] | ?]; try discriminate. lra.
        + apply log10_number. unfold Rsign in Hq.
          destruct (total_order_T q 0) as [[? | ?] | ?]; try discriminate. lra.
      - reflexivity. }
    unfold mul_r. destruct (log10_r log10_pos rms) as [q | | |];
      try discriminate.
    + apply rnd_number.
    + unfold mul, scale_inf. rewrite Rsign_pos by lra. reflexivity.
    + rewrite mul_20_NegInf. reflexivity.
  - intros samples. rewrite calculateEnergy_exact. apply calculateEnergy_rms.
  - intros n a Hn Ha.
    rewrite calculateEnergy_exact, calculateEnergy_rms, rms_uniform
      by (lia || lra).
    reflexivity.
Qed.
End Rounding.

Lemma energy_meter_contract_witness :
  calculateEnergy_with Fin exact_log10 [Fin 0; Fin 0] = NegInf
  ∧ calculateEnergy_with Fin exact_log10 [Fin 1; Fin 1]
    = mul (Fin 20) (log10 (Fin 1)).
Proof.
  destruct (energy_meter_contract Fin exact_log10 eq_refl
              (λ _, eq_refl) (λ x H, H) (λ _ _, eq_refl))
    as (_ & Hzero & _ & _ & _ & Huniform).
  split.
  - apply (Hzero [Fin 0; Fin 0]); [discriminate | repeat constructor].
  - apply (Huniform 2%nat 1%R); [lia | lra].
Defined.

(** **** Voice-activity detector *)

Lemma gtb_asym a b : gtb a b = true → gtb b a = false.
Proof.
  destruct a, b; simpl; try reflexivity; try discriminate.
  destruct (Rlt_dec x0 x), (Rlt_dec x x0); try reflexivity; try discriminate.
  lra.
Qed.

(** C3 (VAD hysteresis).  A reading above the threshold of -45 dB records
    [lastVoiceDetectTime = now] and is classified speaking; otherwise the
    reading is speaking when [now - lastVoiceDetectTime] is below the
    padding of 300 ms and not speaking when it is not, the state staying
    as it was.  Readings above, below, below the threshold at [t0],
    [t0 + 50] and [t0 + 350] are classified speaking, speaking, not
    speaking. *)
Theorem vad_hysteresis :
  (∀ c energy now,
     (gtb energy ENERGY_THRESHOLD = true →
      (detectVoiceActivity energy now c).1 = true
      ∧ lastVoiceDetectTime (detectVoiceActivity energy now c).2 = now)
     ∧ (gtb energy ENERGY_THRESHOLD = false →
        (now - lastVoiceDetectTime c < SPEECH_PADDING)%Z →
        detectVoiceActivity energy now c = (true, c))
     ∧ (gtb energy ENERGY_THRESHOLD = false →
        ¬ (now - lastVoiceDetectTime c < SPEECH_PADDING)%Z →
        detectVoiceActivity energy now c = (false, c)))
  ∧ (∀ c e0 e1 e2 t0,
       gtb e0 ENERGY_THRESHOLD = true →
       ltb e1 ENERGY_THRESHOLD = true →
       ltb e2 ENERGY_THRESHOLD = true →
       vad_run c [(e0, t0); (e1, t0 + 50); (e2, t0 + 350)]%Z
       = [true; true; false]).
Proof.
  split.
  - intros c energy now. unfold detectVoiceActivity.
    split; [| split]; intros Hgt; rewrite Hgt.
    + split; reflexivity.
    + intros Hpad. rewrite bool_decide_eq_true_2 by exact Hpad. reflexivity.
    + intros Hpad. rewrite bool_decide_eq_false_2 by exact Hpad. reflexivity.
  - intros c e0 e1 e2 t0 H0 H1 H2.
    apply gtb_asym in H1, H2.
    unfold vad_run, detectVoiceActivity.
    rewrite H0. cbn [lastVoiceDetectTime]. rewrite H1.
    rewrite bool_decide_eq_true_2 by (unfold SPEECH_PADDING; lia).
    cbn [lastVoiceDetectTime]. rewrite H2.
    rewrite bool_decide_eq_false_2 by (unfold SPEECH_PADDING; lia).
    reflexivity.
Qed.

Lemma vad_hysteresis_witness :
  vad_run init [(Fin (-20), 1000); (Fin (-60), 1050); (Fin (-60), 1350)]%Z
  = [true; true; false].
Proof.
  apply (proj2 vad_hysteresis init (Fin (-20)) (Fin (-60)) (Fin (-60)) 1000%Z);
    unfold ltb, ENERGY_THRESHOLD; apply gtb_Fin; lra.
Defined.

(** **** Capture pipeline *)

(** One processed block, with identity assigned and capture enabled. *)
Lemma processAudio_enabled c inputData now :
  vadEnabled c = true →
  truthy (currentUserId c) = true →
  let energy := calculateEnergy inputData in
  let speaking := (detectVoiceActivity energy now c).1 in
  let c' := (processAudio inputData now c).1 in
  let out := (processAudio inputData now c).2 in
  (In (Emit (MsgVoice inputData)) out ↔ speaking = true)
  ∧ (∀ data, In (Emit (MsgVoice data)) out → data = inputData)
  ∧ (∀ b level,
       In (Emit (MsgSpeaking b level)) out
       ↔ speaking ≠ isCurrentlySpeaking c ∧ b = speaking ∧ level = energy)
  ∧ isCurrentlySpeaking c' = speaking
  ∧ vadEnabled c' = true
  ∧ currentUserId c' = currentUserId c.
Proof.
  intros Hvad Hid. unfold processAudio. rewrite Hvad, Hid. cbn [negb orb].
  unfold detectVoiceActivity, updateActivityMeter.
  destruct (currentUserId c) as [uid |] eqn:Huid; [| discriminate].
  destruct (gtb (calculateEnergy inputData) ENERGY_THRESHOLD);
    [| destruct (bool_decide _)];
    cbn [fst snd currentUserId isCurrentlySpeaking];
    rewrite ?Huid, ?Hid;
    destruct (isCurrentlySpeaking c) eqn:Hcur;
    cbn [Bool.eqb negb fst snd app set_isCurrentlySpeaking
         isCurrentlySpeaking vadEnabled currentUserId];
    rewrite ?Hvad, ?Huid, ?Hcur;
    (split; [| split; [| split; [| split; [| split]]]]);
    try reflexivity;
    try (simpl; intuition (congruence || discriminate));
    try (intros b level; simpl; intuition (congruence || discriminate)).
Qed.

(** C7 (capture pipeline, per block).  With identity assigned and capture
    enabled, the handler transmits a block if and only if the detector
    classifies it as speaking, and emits a speaking notification if and only
    if that classification differs from the previous block's (for the first
    block: from the initial speaking flag); the notification carries the new
    classification and the energy of the block, whether or not the block
    was transmitted. *)
Theorem capture_per_block blocks c k inputData now speaking out :
  vadEnabled c = true →
  truthy (currentUserId c) = true →
  blocks !! k = Some (inputData, now) →
  capture_run c blocks !! k = Some (speaking, out) →
  let previous :=
    match k with
    | 0 => isCurrentlySpeaking c
    | S j => default false (fst <$> capture_run c blocks !! j)
    end in
  (In (Emit (MsgVoice inputData)) out ↔ speaking = true)
  ∧ (∀ b level,
       In (Emit (MsgSpeaking b level)) out
       ↔ speaking ≠ previous ∧ b = speaking
         ∧ level = calculateEnergy inputData).
Proof.
  revert c k. induction blocks as [| [data0 now0] rest IH]; intros c k.
  - intros _ _ Hk. discriminate Hk.
  - intros Hvad Hid Hk Hrun.
    destruct (processAudio_enabled c data0 now0 Hvad Hid)
      as (Hvoice & _ & Hspeak & Hcur & Hvad' & Hid').
    destruct k as [| k]; cbn in Hk, Hrun.
    + injection Hk as -> ->. injection Hrun as <- <-.
      split; [exact Hvoice | exact Hspeak].
    + rewrite <- Hid' in Hid.
      specialize (IH _ k Hvad' Hid Hk Hrun).
      destruct k as [| j]; cbn [capture_run lookup list_lookup fmap option_fmap
                                option_map default fst] in *.
      * rewrite <- Hcur. exact IH.
      * exact IH.
Qed.

Lemma capture_per_block_witness :
  let c := mkState true (Some Running) true true 0 false (Some "A") [] false []
  in
  In (Emit (MsgVoice [Fin 1])) (processAudio [Fin 1] 1000 c).2
  ↔ (detectVoiceActivity (calculateEnergy [Fin 1]) 1000 c).1 = true.
Proof.
  intros c.
  apply (capture_per_block [([Fin 1], 1000%Z)] c 0 [Fin 1] 1000%Z
           (detectVoiceActivity (calculateEnergy [Fin 1]) 1000 c).1
           (processAudio [Fin 1] 1000 c).2);
    reflexivity.
Defined.

(** **** Playback queue *)

Lemma started_app out1 out2 :
  started (out1 ++ out2) = started out1 ++ started out2.
Proof.
  induction out1 as [| e out1 IH]; [reflexivity |].
  destruct e; simpl; rewrite IH; reflexivity.
Qed.

(** [playNextAudio] on a queue whose head has samples. *)
Lemma playNextAudio_head c a rest :
  audioQueue c = a :: rest → has_samples a →
  playNextAudio c
  = (mkState (stream c) (audioContext c) (scriptProcessor c) (vadEnabled c)
       (lastVoiceDetectTime c) (isCurrentlySpeaking c) (currentUserId c)
       rest true (sources c ++ [a]),
     [Start a]).
Proof.
  intros Hq Ha. unfold playNextAudio. rewrite Hq.
  unfold has_samples in Ha. destruct (buffer a); [congruence | reflexivity].
Qed.

Lemma playNextAudio_empty c :
  audioQueue c = [] →
  playNextAudio c
  = (mkState (stream c) (audioContext c) (scriptProcessor c) (vadEnabled c)
       (lastVoiceDetectTime c) (isCurrentlySpeaking c) (currentUserId c)
       [] false (sources c), []).
Proof. intros Hq. unfold playNextAudio. rewrite Hq. reflexivity. Qed.

Lemma playback_step_inv c ev :
  playback_ok c → blocks_have_samples [ev] →
  playback_ok (playback_step c ev).1
  ∧ started (playback_step c ev).2 ++ audioQueue (playback_step c ev).1
    = audioQueue c ++ enqueued c [ev].
Proof.
  intros [[Hidle Hbusy] Hqueue] Hev. apply Forall_cons in Hev as [Hev _].
  unfold playback_ok, playback_inv.
  destruct ev as [id data | i | st]; cbn [playback_step enqueued].
  - unfold on_voice.
    destruct (audioContext c) as [[| |] |]; cbn [fst snd started app];
      rewrite ?app_nil_r;
      try (split; [split; [split; assumption | assumption] | reflexivity]).
    cbn [isPlaying]. destruct (isPlaying c) eqn:Hplaying; cbn [negb].
    + cbn [fst snd started app isPlaying audioQueue sources].
      split; [| reflexivity]. split; [split; [discriminate | auto] |].
      apply Forall_app. split; [exact Hqueue |]. repeat constructor. exact Hev.
    + destruct (Hidle eq_refl) as [Hq Hs].
      erewrite playNextAudio_head;
        [| cbn [audioQueue]; rewrite Hq; reflexivity | exact Hev].
      cbn [fst snd started app isPlaying audioQueue sources].
      rewrite Hq, Hs. cbn [app length].
      split; [| reflexivity].
      split; [split; [discriminate | reflexivity] | constructor].
  - unfold on_ended. destruct (sources c !! i) as [a |] eqn:Hi;
      cbn [fst snd started app]; rewrite ?app_nil_r;
      [| split; [split; [split; assumption | assumption] | reflexivity]].
    destruct (isPlaying c) eqn:Hplaying.
    + specialize (Hbusy eq_refl).
      destruct (sources c) as [| a0 [| a1 rest]] eqn:Hs; try discriminate.
      destruct i as [| i]; [| discriminate].
      destruct (audioQueue c) as [| next rest] eqn:Hq.
      * rewrite playNextAudio_empty by reflexivity.
        cbn [fst snd started app isPlaying audioQueue sources delete
             list_delete].
        split; [| reflexivity].
        split; [split; [auto | discriminate] | constructor].
      * apply Forall_cons in Hqueue as [Hnext Hrest].
        erewrite playNextAudio_head; [| reflexivity | exact Hnext].
        cbn [fst snd started app isPlaying audioQueue sources delete
             list_delete length].
        split; [| reflexivity].
        split; [split; [discriminate | reflexivity] | exact Hrest].
    + destruct (Hidle eq_refl) as [_ Hs]. rewrite Hs in Hi. discriminate.
  - unfold on_statechange.
    destruct (audioContext c);
      cbn [fst snd started app isPlaying audioQueue sources];
      rewrite app_nil_r;
      (split; [split; [split; assumption | assumption] | reflexivity]).
Qed.

Lemma enqueued_cons c ev evs :
  enqueued c (ev :: evs)
  = enqueued c [ev] ++ enqueued (playback_step c ev).1 evs.
Proof.
  cbn [enqueued].
  destruct ev; try reflexivity.
  destruct (audioContext c) as [[| |] |]; reflexivity.
Qed.

Lemma playback_run_inv evs c :
  playback_ok c → blocks_have_samples evs →
  playback_ok (playback_run c evs).1
  ∧ started (playback_run c evs).2 ++ audioQueue (playback_run c evs).1
    = audioQueue c ++ enqueued c evs.
Proof.
  revert c. induction evs as [| ev evs IH]; intros c Hinv Hevs.
  - cbn. rewrite app_nil_r. split; [exact Hinv | reflexivity].
  - apply Forall_cons in Hevs as [Hev Hevs].
    destruct (playback_step_inv c ev Hinv) as [Hinv1 Hq1];
      [repeat constructor; exact Hev |].
    specialize (IH _ Hinv1 Hevs) as [Hinv2 Hq2].
    rewrite enqueued_cons. cbn [playback_run].
    destruct (playback_step c ev) as [c1 out1]. cbn [fst snd] in *.
    destruct (playback_run c1 evs) as [c2 out2].
    cbn [fst snd] in *. split; [exact Hinv2 |].
    rewrite started_app, <- app_assoc, Hq2, !app_assoc, Hq1. reflexivity.
Qed.

(** The claim of C9 fails on the code: a block of no samples that arrives
    while nothing plays is taken off the queue and never started,
    [createBuffer] raising on its length; [isPlaying] stays set with no
    source live, so no ['ended'] event will come and the block that arrives
    next waits in the queue for good. *)
Lemma empty_block_stops_playback :
  let c := mkState false (Some Running) false false 0 false None [] false [] in
  let r := playback_run c [VoiceArrives "B" []; VoiceArrives "C" [Fin 1]] in
  started r.2 = []
  ∧ audioQueue r.1 = [mkAudioData "C" [Fin 1]]
  ∧ isPlaying r.1 = true
  ∧ sources r.1 = [].
Proof. repeat split. Qed.

(** C9, amended (playback queue discipline).  From an idle playback side,
    after every sequence of arriving voice blocks of at least one sample,
    source-ended events and context state changes: at most one source is
    live; the blocks started so far followed by the blocks still queued are
    exactly the enqueued blocks in arrival order (played in enqueue order,
    none dropped); [isPlaying] holds exactly when a source is live, and
    while nothing plays nothing waits.  A block that arrives while one
    plays starts nothing; and when the live source ends, the head of the
    queue is started and becomes the one live source, or playback turns
    idle when the queue is empty. *)
Theorem playback_discipline c evs :
  isPlaying c = false → audioQueue c = [] → sources c = [] →
  blocks_have_samples evs →
  let c' := (playback_run c evs).1 in
  let out := (playback_run c evs).2 in
  length (sources c') ≤ 1
  ∧ started out ++ audioQueue c' = enqueued c evs
  ∧ (isPlaying c' = true ↔ length (sources c') = 1)
  ∧ (isPlaying c' = false → audioQueue c' = [])
  ∧ (isPlaying c' = true →
     ∀ id data, started (on_voice id data c').2 = [])
  ∧ (isPlaying c' = true →
     started (on_ended 0 c').2 = take 1 (audioQueue c')
     ∧ sources (on_ended 0 c').1 = take 1 (audioQueue c')
     ∧ audioQueue (on_ended 0 c').1 = drop 1 (audioQueue c')
     ∧ isPlaying (on_ended 0 c').1 = bool_decide (audioQueue c' ≠ [])).
Proof.
  intros Hplaying Hq Hs Hevs.
  assert (playback_ok c) as Hinv.
  { split; [split; [auto | rewrite Hplaying; discriminate] |].
    rewrite Hq. constructor. }
  destruct (playback_run_inv evs c Hinv Hevs)
    as [[[Hidle Hbusy] Hqueue] Horder].
  rewrite Hq in Horder. cbn [app] in Horder. cbv zeta.
  set (c' := (playback_run c evs).1) in *.
  split; [| split; [exact Horder | split; [| split; [| split]]]].
  - destruct (isPlaying c') eqn:Hp.
    + rewrite (Hbusy eq_refl). lia.
    + destruct (Hidle eq_refl) as [_ Hs']. rewrite Hs'. cbn. lia.
  - split; [exact Hbusy |]. intros Hlen.
    destruct (isPlaying c') eqn:Hp; [reflexivity |].
    destruct (Hidle eq_refl) as [_ Hs']. rewrite Hs' in Hlen. discriminate.
  - intros Hp. apply Hidle. exact Hp.
  - intros Hp id data. unfold on_voice.
    destruct (audioContext c') as [[| |] |]; try reflexivity.
    cbn [isPlaying]. rewrite Hp. reflexivity.
  - intros Hp. specialize (Hbusy Hp).
    destruct (sources c') as [| a0 [| a1 rest]] eqn:Hs'; try discriminate.
    unfold on_ended. rewrite Hs'. cbn [lookup list_lookup].
    destruct (audioQueue c') as [| next rest] eqn:Hq'.
    + rewrite playNextAudio_empty by reflexivity. repeat split.
    + apply Forall_cons in Hqueue as [Hnext _].
      erewrite playNextAudio_head; [| reflexivity | exact Hnext].
      repeat split.
Qed.

Lemma playback_discipline_witness :
  let c := mkState false (Some Running) false false 0 false None [] false [] in
  let evs :=
    [VoiceArrives "B" [Fin 1]; VoiceArrives "C" [Fin 0]; SourceEnded 0] in
  started (playback_run c evs).2 ++ audioQueue (playback_run c evs).1
  = [mkAudioData "B" [Fin 1]; mkAudioData "C" [Fin 0]].
Proof.
  intros c evs.
  apply (playback_discipline c evs eq_refl eq_refl eq_refl).
  repeat constructor; discriminate.
Defined.

(** **** Failure to acquire the microphone *)

(** The claim of C10 fails on the code: on a client that has its identity
    and has never started voice chat there is no audio context; when
    [getUserMedia] rejects none is created, and a voice block arriving
    afterwards is neither queued nor played. *)
Lemma mic_failure_drops_voice :
  let c := (on_your_id "A" init).1 in
  let env := mkBrowser (Rejected "Permission denied") Running Resolved in
  let c' := (startVoiceChat env c).1 in
  on_voice "B" [Fin 1] c' = (c', []) ∧ audioQueue c' = [] ∧ sources c' = [].
Proof. repeat split. Qed.

(** C10, amended (failure to acquire the microphone).  When
    [getUserMedia] rejects, [startVoiceChat] returns normally, logs the
    failure description and leaves every variable of the client as it was:
    no stream, no new audio context, capture not enabled.  A voice block
    received afterwards is queued for playback exactly when an audio
    context from an earlier start is running (on an idle client, the block
    that is started having at least one sample), and is dropped
    otherwise. *)
Theorem mic_failure_contained env c message :
  truthy (currentUserId c) = true →
  getUserMedia env = Rejected message →
  (startVoiceChat env c).1 = c
  ∧ In (Log (LogText ("Error starting voice chat: " ++ message)))
       (startVoiceChat env c).2
  ∧ ∀ id data,
      let c' := (startVoiceChat env c).1 in
      let r := on_voice id data c' in
      (audioContext c = Some Running →
       (isPlaying c = false →
        ∀ a, head (audioQueue c ++ [mkAudioData id data]) = Some a →
             has_samples a) →
       started r.2 ++ audioQueue r.1 = audioQueue c ++ [mkAudioData id data])
      ∧ (audioContext c ≠ Some Running → r = (c', [])).
Proof.
  intros Hid Hmic. unfold startVoiceChat. rewrite Hid, Hmic. cbn [negb fst snd].
  split; [reflexivity |]. split; [simpl; auto |].
  intros id data. cbv zeta. unfold on_voice. split.
  - intros Hctx Hhead. rewrite Hctx. cbn [isPlaying].
    destruct (isPlaying c); cbn [negb fst snd started app audioQueue];
      [reflexivity |].
    destruct (audioQueue c ++ [mkAudioData id data]) as [| a rest] eqn:Hq;
      [destruct (audioQueue c); discriminate |].
    erewrite playNextAudio_head;
      [| reflexivity | exact (Hhead eq_refl a eq_refl)].
    reflexivity.
  - intros Hctx. destruct (audioContext c) as [[| |] |]; congruence.
Qed.

Lemma mic_failure_contained_witness :
  let c := (on_your_id "A" init).1 in
  let env := mkBrowser (Rejected "Permission denied") Running Resolved in
  (startVoiceChat env c).1 = c.
Proof.
  intros c env.
  exact (proj1 (mic_failure_contained env c "Permission denied"
                  eq_refl eq_refl)).
Defined.

End ClientFacts.

(** * Properties of JavaScript maps *)

Module JsMapFacts.
Import JsMap.

Section Facts.
Context {V : Type}.
Implicit Types (m : JsMap V) (k j : string) (v : V).

Lemma jsmap_eq m1 m2 : entries m1 = entries m2 → m1 = m2.
Proof. destruct m1, m2. cbn. congruence. Qed.

Lemma jsmap_lookup_empty k : (∅ : JsMap V) !! k = None.
Proof. reflexivity. Qed.

Lemma jsmap_lookup_insert m k v j :
  <[k := v]> m !! j = if decide (k = j) then Some v else m !! j.
Proof.
  destruct m as [l].
  unfold lookup, jsmap_lookup, insert, jsmap_insert, get, set.
  cbn [entries].
  induction l as [| [k' v'] l IH]; cbn [insert_entries lookup_entries].
  - repeat case_decide; congruence.
  - destruct (decide (k' = k)) as [-> | Hk]; cbn [lookup_entries].
    + repeat case_decide; congruence.
    + rewrite IH. repeat case_decide; congruence.
Qed.

Lemma jsmap_lookup_insert_eq m k v : <[k := v]> m !! k = Some v.
Proof. rewrite jsmap_lookup_insert, decide_True; reflexivity. Qed.

Lemma jsmap_lookup_insert_ne m k v j : k ≠ j → <[k := v]> m !! j = m !! j.
Proof. intros. rewrite jsmap_lookup_insert, decide_False; done. Qed.

Lemma jsmap_lookup_delete m k j :
  delete k m !! j = if decide (k = j) then None else m !! j.
Proof.
  destruct m as [l]. unfold lookup, jsmap_lookup, delete, jsmap_delete, get,
    remove. cbn [entries]. induction l as [| [k' v'] l IH].
  - cbn. case_decide; reflexivity.
  - rewrite filter_cons. cbn [fst].
    destruct (decide (k' ≠ k)) as [Hk | Hk]; cbn [lookup_entries].
    + rewrite IH. repeat case_decide; congruence.
    + apply dec_stable in Hk. subst k'. rewrite IH.
      repeat case_decide; congruence.
Qed.

Lemma jsmap_lookup_delete_eq m k : delete k m !! k = None.
Proof. rewrite jsmap_lookup_delete, decide_True; reflexivity. Qed.

Lemma jsmap_lookup_delete_ne m k j : k ≠ j → delete k m !! j = m !! j.
Proof. intros. rewrite jsmap_lookup_delete, decide_False; done. Qed.

Lemma jsmap_elem_of_dom m k : k ∈ dom m ↔ is_Some (m !! k).
Proof.
  destruct m as [l]. unfold dom, jsmap_dom, keys, lookup, jsmap_lookup, get.
  cbn [entries]. rewrite elem_of_list_to_set.
  induction l as [| [k' v'] l IH]; cbn [fmap list_fmap lookup_entries fst].
  - rewrite elem_of_nil. split; [tauto | intros [? ?]; discriminate].
  - rewrite elem_of_cons, IH. destruct (decide (k' = k)) as [-> | Hk].
    + split; [eauto | auto].
    + split; [intros [? | ?]; [congruence | assumption] | auto].
Qed.

Lemma jsmap_not_elem_of_dom m k : k ∉ dom m ↔ m !! k = None.
Proof. rewrite jsmap_elem_of_dom, eq_None_not_Some. reflexivity. Qed.

Lemma jsmap_elem_of_dom_2 m k v : m !! k = Some v → k ∈ dom m.
Proof. intros H. apply jsmap_elem_of_dom. eauto. Qed.

Lemma jsmap_dom_empty : dom (∅ : JsMap V) = (∅ : gset string).
Proof. reflexivity. Qed.

Lemma jsmap_dom_insert m k v : dom (<[k := v]> m) = ({[k]} ∪ dom m : gset string).
Proof.
  apply set_eq. intros j. rewrite elem_of_union, elem_of_singleton, !jsmap_elem_of_dom.
  rewrite jsmap_lookup_insert. case_decide; subst; split; eauto; try tauto.
  intros [-> | ?]; [congruence | assumption].
Qed.

Lemma jsmap_dom_delete m k : dom (delete k m) = (dom m ∖ {[k]} : gset string).
Proof.
  apply set_eq. intros j.
  rewrite elem_of_difference, elem_of_singleton, !jsmap_elem_of_dom, jsmap_lookup_delete.
  case_decide; subst.
  - split; [intros [? ?]; discriminate | tauto].
  - split; [auto | tauto].
Qed.

Lemma jsmap_dom_empty_iff m : dom m = (∅ : gset string) ↔ m = ∅.
Proof.
  destruct m as [[| [k v] l]]; cbn.
  - split; reflexivity.
  - split; [| discriminate]. unfold dom, jsmap_dom, keys. cbn. set_solver.
Qed.

Lemma jsmap_size_empty_iff m : size m = 0 ↔ m = ∅.
Proof.
  destruct m as [[| e l]]; cbn; split; try reflexivity; discriminate.
Qed.

Lemma jsmap_insert_non_empty m k v : <[k := v]> m ≠ ∅.
Proof.
  intros H. apply jsmap_dom_empty_iff in H. rewrite jsmap_dom_insert in H. set_solver.
Qed.

Lemma jsmap_insert_insert_eq m k v1 v2 : <[k := v2]> (<[k := v1]> m) = <[k := v2]> m.
Proof.
  destruct m as [l]. apply jsmap_eq.
  unfold insert, jsmap_insert, set. cbn [entries].
  induction l as [| [k' v'] l IH]; cbn [insert_entries].
  - rewrite decide_True by reflexivity. reflexivity.
  - destruct (decide (k' = k)) as [-> | Hk]; cbn [insert_entries].
    + rewrite decide_True by reflexivity. reflexivity.
    + rewrite decide_False by exact Hk. rewrite IH. reflexivity.
Qed.

Lemma jsmap_delete_insert_eq m k v : delete k (<[k := v]> m) = delete k m.
Proof.
  destruct m as [l]. apply jsmap_eq.
  unfold delete, jsmap_delete, insert, jsmap_insert, remove, set.
  cbn [entries].
  induction l as [| [k' v'] l IH]; cbn [insert_entries].
  - rewrite filter_cons. cbn [fst]. rewrite decide_False by tauto.
    reflexivity.
  - destruct (decide (k' = k)) as [-> | Hk].
    + rewrite !filter_cons. cbn [fst]. rewrite !decide_False by tauto.
      reflexivity.
    + rewrite !filter_cons. cbn [fst]. rewrite !decide_True by exact Hk.
      rewrite IH. reflexivity.
Qed.

(** Writing back the value a key has changes nothing. *)
Lemma jsmap_insert_id m k v : m !! k = Some v → <[k := v]> m = m.
Proof.
  destruct m as [l]. intros H. apply jsmap_eq. revert H.
  unfold lookup, jsmap_lookup, get, insert, jsmap_insert, set. cbn [entries].
  induction l as [| [k' v'] l IH]; cbn [lookup_entries insert_entries];
    [discriminate |].
  destruct (decide (k' = k)) as [-> | Hk].
  - intros [= ->]. reflexivity.
  - intros H. rewrite IH by exact H. reflexivity.
Qed.

(** **** The order of the entries *)

Lemma entries_insert_new m k v :
  m !! k = None → entries (<[k := v]> m) = entries m ++ [(k, v)].
Proof.
  destruct m as [l].
  unfold lookup, jsmap_lookup, get, insert, jsmap_insert, set. cbn [entries].
  induction l as [| [k' v'] l IH]; cbn [lookup_entries insert_entries app];
    [reflexivity |].
  destruct (decide (k' = k)); [discriminate |].
  intros H. rewrite IH by exact H. reflexivity.
Qed.

Lemma keys_insert_new m k v :
  m !! k = None → keys (<[k := v]> m) = keys m ++ [k].
Proof.
  intros H. unfold keys. rewrite entries_insert_new by exact H.
  rewrite fmap_app. reflexivity.
Qed.

Lemma keys_insert_old m k v :
  is_Some (m !! k) → keys (<[k := v]> m) = keys m.
Proof.
  destruct m as [l].
  unfold lookup, jsmap_lookup, get, keys, insert, jsmap_insert, set.
  cbn [entries].
  induction l as [| [k' v'] l IH]; cbn [lookup_entries insert_entries];
    [intros [? ?]; discriminate |].
  destruct (decide (k' = k)) as [-> | Hk]; [reflexivity |].
  intros H. cbn [fmap list_fmap]. rewrite IH by exact H. reflexivity.
Qed.

Lemma keys_delete m k : keys (delete k m) = filter (λ j, j ≠ k) (keys m).
Proof.
  destruct m as [l]. unfold keys, delete, jsmap_delete, remove.
  cbn [entries].
  induction l as [| [k' v'] l IH]; [reflexivity |].
  cbn [fmap list_fmap]. rewrite !filter_cons. cbn [fst].
  destruct (decide (k' ≠ k)); cbn [fmap list_fmap fst]; rewrite <- IH;
    reflexivity.
Qed.

Lemma elem_of_keys m k : k ∈ keys m ↔ is_Some (m !! k).
Proof. rewrite <- jsmap_elem_of_dom. unfold dom, jsmap_dom. set_solver. Qed.

Lemma entries_delete m k :
  entries (delete k m) = filter (λ e, e.1 ≠ k) (entries m).
Proof. reflexivity. Qed.

Lemma entries_empty : entries (∅ : JsMap V) = [].
Proof. reflexivity. Qed.

Lemma elem_of_entries m k v : m !! k = Some v → (k, v) ∈ entries m.
Proof.
  destruct m as [l]. unfold lookup, jsmap_lookup, get. cbn [entries].
  induction l as [| [k' v'] l IH]; cbn [lookup_entries]; [discriminate |].
  destruct (decide (k' = k)) as [-> | Hk].
  - intros [= ->]. apply list_elem_of_here.
  - intros H. apply list_elem_of_further, IH, H.
Qed.

Lemma Forall_entries_insert (P : string * V → Prop) m k v :
  P (k, v) → Forall P (entries m) → Forall P (entries (<[k := v]> m)).
Proof.
  destruct m as [l]. unfold insert, jsmap_insert, set. cbn [entries].
  intros Hkv. induction 1 as [| [k' v'] l He Hl IH]; cbn [insert_entries].
  - repeat constructor. exact Hkv.
  - destruct (decide (k' = k)); constructor; assumption.
Qed.

(** A value written over the value of a key, seen through a function that
    does not tell the two apart. *)
Lemma fmap_entries_insert {B} (f : string * V → B) m k v v' :
  m !! k = Some v → f (k, v') = f (k, v) →
  f <$> entries (<[k := v']> m) = f <$> entries m.
Proof.
  destruct m as [l].
  unfold lookup, jsmap_lookup, get, insert, jsmap_insert, set.
  cbn [entries]. intros Hk Hf. revert Hk.
  induction l as [| [k' v0] l IH]; cbn [lookup_entries insert_entries];
    [discriminate |].
  destruct (decide (k' = k)) as [-> | Hne].
  - intros [= ->]. cbn [fmap list_fmap]. rewrite Hf. reflexivity.
  - intros H. cbn [fmap list_fmap]. rewrite IH by exact H. reflexivity.
Qed.

(** **** Every key has one entry *)

Lemma unique_keys_empty : unique_keys (∅ : JsMap V).
Proof. constructor. Qed.

Lemma unique_keys_insert m k v : unique_keys m → unique_keys (<[k := v]> m).
Proof.
  unfold unique_keys. intros H.
  destruct (m !! k) as [v0 |] eqn:Hk.
  - rewrite keys_insert_old by eauto. exact H.
  - rewrite keys_insert_new by exact Hk. apply NoDup_app.
    split; [exact H |]. split; [| apply NoDup_singleton].
    intros j Hj Hj'. apply list_elem_of_singleton in Hj' as ->.
    apply elem_of_keys in Hj as [? Hj]. congruence.
Qed.

Lemma unique_keys_delete m k : unique_keys m → unique_keys (delete k m).
Proof.
  unfold unique_keys. rewrite keys_delete. apply NoDup_filter.
Qed.

End Facts.

End JsMapFacts.

(** * Properties of the server *)

Module ServerFacts.
Import JsMap JsMapFacts Server.

Section Facts.
Context {Audio Energy : Type}.
Variable energy0 : Energy.

Abbreviation State := (State Energy).
Abbreviation Emission := (Emission Audio Energy).

(** **** What the two room functions compute *)

Lemma in_room_insert (s : State) room sockets
    (rs : JsMap (JsMap (User Energy))) cs r :
  in_room (mkState rs (<[room := sockets]> (adapter s)) cs) r
  = if decide (room = r) then sockets else in_room s r.
Proof.
  unfold in_room. cbn. rewrite lookup_insert.
  destruct (decide (room = r)); reflexivity.
Qed.

Lemma leaveRoom_run (id room : string) (s : State) :
  leaveRoom (Audio:=Audio) id room s =
  let ad := <[room := in_room s room ∖ {[id]}]> (adapter s) in
  let left :=
    mkEmission (ToRoom room) (EvUserLeft id) (in_room s room ∖ {[id]}) in
  match rooms s !! room with
  | None => Some ((), mkState (rooms s) ad (conns s), [])
  | Some roomUsers =>
      if bool_decide (size (delete id roomUsers) = 0) then
        Some ((), mkState (delete room (rooms s)) ad (conns s),
              [left;
               mkEmission ToAll (EvUpdateRooms (keys (delete room (rooms s))))
                 (dom (conns s))])
      else
        Some ((), mkState (<[room := delete id roomUsers]> (rooms s)) ad
                    (conns s), [left])
  end.
Proof.
  unfold leaveRoom. cbn. unfold mbind, handler_bind, hbind. cbn.
  destruct (rooms s !! room) as [us |] eqn:Hr; cbn; [| reflexivity].
  destruct (bool_decide (size (delete id us) = 0)); cbn;
    rewrite in_room_insert, decide_True by reflexivity;
    rewrite ?jsmap_delete_insert_eq; reflexivity.
Qed.

Lemma joinRoom_run (id room name : string) (s : State) :
  joinRoom (Audio:=Audio) energy0 id room name s =
  let sockets := {[id]} ∪ in_room s room in
  let roomUsers :=
    <[id := mkUser name false energy0]> (default ∅ (rooms s !! room)) in
  let s' :=
    mkState (<[room := roomUsers]> (rooms s))
      (<[room := sockets]> (adapter s))
      (<[id := Some room]> (conns s)) in
  Some ((), s',
        [mkEmission (ToRoom room) (EvUserJoined id name) sockets;
         mkEmission (ToSocket id) (EvRoomUsers (entries roomUsers)) {[id]};
         mkEmission ToAll (EvUpdateRooms (keys (rooms s'))) (dom (conns s'));
         mkEmission (ToSocket id) (EvYourId id) {[id]}]).
Proof.
  unfold joinRoom. cbn. unfold mbind, handler_bind, hbind. cbn.
  destruct (rooms s !! room) as [us |] eqn:Hr; cbn;
    repeat (rewrite ?Hr, ?jsmap_lookup_insert_eq, ?lookup_insert_eq,
              ?in_room_insert, ?jsmap_insert_insert_eq,
              ?decide_True by reflexivity; cbn);
    reflexivity.
Qed.
(** **** The registry after a leave and after a join *)

Lemma leaveRoom_eq id room (s : State) :
  leaveRoom (Audio:=Audio) id room s
  = Some ((), leave_state id room s, leave_out id room s).
Proof.
  rewrite leaveRoom_run.
  unfold leave_state, leave_out, rooms_after_leave. cbv zeta.
  destruct (rooms s !! room) as [us |]; [| reflexivity].
  destruct (bool_decide _); reflexivity.
Qed.

Lemma joinRoom_eq id room name (s : State) :
  joinRoom (Audio:=Audio) energy0 id room name s
  = Some ((), join_state energy0 id room name s,
          join_out energy0 id room name s).
Proof. rewrite joinRoom_run. reflexivity. Qed.

Lemma dom_rooms_after_leave id room
    (rs : JsMap (JsMap (User Energy))) r :
  dom (default ∅ (rooms_after_leave id room rs !! r))
  = if decide (room = r) then dom (default ∅ (rs !! room)) ∖ {[id]}
    else dom (default ∅ (rs !! r)).
Proof.
  unfold rooms_after_leave.
  destruct (rs !! room) as [us |] eqn:Hroom.
  - case_bool_decide as Hsize.
    + apply jsmap_size_empty_iff in Hsize.
      destruct (decide (room = r)) as [<- | Hne].
      * rewrite jsmap_lookup_delete_eq. cbn. rewrite <- jsmap_dom_delete, Hsize.
        reflexivity.
      * rewrite jsmap_lookup_delete_ne by assumption. reflexivity.
    + destruct (decide (room = r)) as [<- | Hne].
      * rewrite jsmap_lookup_insert_eq. cbn. apply jsmap_dom_delete.
      * rewrite jsmap_lookup_insert_ne by assumption. reflexivity.
  - destruct (decide (room = r)) as [<- | Hne]; [| reflexivity].
    rewrite Hroom. cbn. set_solver.
Qed.

Lemma rooms_after_leave_nonempty id room
    (rs : JsMap (JsMap (User Energy))) :
  (∀ r us, rs !! r = Some us → us ≠ ∅) →
  ∀ r us, rooms_after_leave id room rs !! r = Some us → us ≠ ∅.
Proof.
  intros Hrs r us. unfold rooms_after_leave.
  destruct (rs !! room) as [us0 |] eqn:Hroom; [| apply Hrs].
  case_bool_decide as Hsize.
  - rewrite jsmap_lookup_delete. case_decide; [discriminate | apply Hrs].
  - rewrite jsmap_lookup_insert. case_decide; [| apply Hrs].
    intros [= <-] Hempty. apply Hsize. rewrite Hempty. reflexivity.
Qed.

Lemma dom_rooms_after_join id room name
    (rs : JsMap (JsMap (User Energy))) r :
  dom (default ∅ (rooms_after_join energy0 id room name rs !! r))
  = if decide (room = r) then {[id]} ∪ dom (default ∅ (rs !! room))
    else dom (default ∅ (rs !! r)).
Proof.
  unfold rooms_after_join. rewrite jsmap_lookup_insert.
  destruct (decide (room = r)); [| reflexivity].
  cbn. apply jsmap_dom_insert.
Qed.

Lemma rooms_after_join_nonempty id room name
    (rs : JsMap (JsMap (User Energy))) :
  (∀ r us, rs !! r = Some us → us ≠ ∅) →
  ∀ r us, rooms_after_join energy0 id room name rs !! r = Some us → us ≠ ∅.
Proof.
  intros Hrs r us. unfold rooms_after_join. rewrite jsmap_lookup_insert.
  case_decide; [| apply Hrs].
  intros [= <-]. apply jsmap_insert_non_empty.
Qed.

(** **** What each event does *)

Lemma bound_room_Some currentRoom room :
  bound_room currentRoom = Some room ↔ currentRoom = Some room ∧ room ≠ EmptyString.
Proof.
  unfold bound_room, truthy. destruct currentRoom as [r |]; [| naive_solver].
  case_bool_decide; naive_solver.
Qed.

Lemma when_truthy_eq currentRoom (body : string → Handler Audio Energy unit) :
  when_truthy currentRoom body
  = match bound_room currentRoom with
    | Some room => body room
    | None => mret ()
    end.
Proof.
  unfold when_truthy, bound_room.
  destruct currentRoom as [r |]; [| reflexivity].
  destruct (truthy (Some r)); reflexivity.
Qed.

Lemma step_connect (s : State) id :
  conns s !! id = None →
  step (Audio:=Audio) energy0 s id Connect
  = Some (mkState (rooms s) (<[id := {[id]} ∪ in_room s id]> (adapter s))
            (<[id := None]> (conns s)), []).
Proof. intros Hid. unfold step. rewrite Hid. reflexivity. Qed.

Lemma step_ignored (s : State) id ev :
  conns s !! id = None → ev ≠ Connect →
  step (Audio:=Audio) energy0 s id ev = Some (s, []).
Proof. intros Hid Hev. unfold step. rewrite Hid. destruct ev; congruence. Qed.

Lemma step_connect_again (s : State) id currentRoom :
  conns s !! id = Some currentRoom →
  step (Audio:=Audio) energy0 s id Connect = Some (s, []).
Proof. intros Hid. unfold step. rewrite Hid. reflexivity. Qed.

Lemma step_join (s : State) id currentRoom room name :
  conns s !! id = Some currentRoom →
  step (Audio:=Audio) energy0 s id (JoinRoom room name)
  = let s1 := match bound_room currentRoom with
              | Some old => leave_state id old s
              | None => s
              end in
    let out1 := match bound_room currentRoom with
                | Some old => leave_out id old s
                | None => []
                end in
    Some (join_state energy0 id room name s1,
          out1 ++ join_out energy0 id room name s1).
Proof.
  intros Hid. unfold step. rewrite Hid.
  unfold exec, handle, on_join_room. rewrite when_truthy_eq.
  unfold mbind, handler_bind, hbind.
  destruct (bound_room currentRoom) as [old |].
  - rewrite leaveRoom_eq, joinRoom_eq. reflexivity.
  - cbn. rewrite joinRoom_eq. reflexivity.
Qed.

Lemma step_leave (s : State) id currentRoom :
  conns s !! id = Some currentRoom →
  step (Audio:=Audio) energy0 s id LeaveRoom
  = match bound_room currentRoom with
    | Some old =>
        let s1 := leave_state id old s in
        Some (mkState (rooms s1) (adapter s1) (<[id := None]> (conns s1)),
              leave_out id old s
              ++ [mkEmission (ToSocket id) EvRoomLeft {[id]}])
    | None => Some (s, [])
    end.
Proof.
  intros Hid. unfold step. rewrite Hid.
  unfold exec, handle, on_leave_room. rewrite when_truthy_eq.
  destruct (bound_room currentRoom) as [old |]; [| reflexivity].
  unfold mbind, handler_bind, hbind. rewrite leaveRoom_eq. cbn.
  rewrite lookup_insert_eq. reflexivity.
Qed.

Lemma step_voice (s : State) id currentRoom data :
  conns s !! id = Some currentRoom →
  step (Audio:=Audio) energy0 s id (Voice data)
  = match bound_room currentRoom with
    | Some room =>
        Some (s, [mkEmission (ToRoomExcept room id) (EvVoice id data)
                    (in_room s room ∖ {[id]})])
    | None => Some (s, [])
    end.
Proof.
  intros Hid. unfold step. rewrite Hid.
  unfold exec, handle, on_voice. rewrite when_truthy_eq.
  destruct (bound_room currentRoom) as [room |]; reflexivity.
Qed.

Lemma step_speaking (s : State) id currentRoom speaking level :
  conns s !! id = Some currentRoom →
  step (Audio:=Audio) energy0 s id (Speaking speaking level)
  = match bound_room currentRoom with
    | Some room =>
        match rooms s !! room with
        | None => None
        | Some roomUsers =>
            match roomUsers !! id with
            | Some user =>
                Some (mkState
                        (<[room := <[id := mkUser (username user) speaking
                                             level]> roomUsers]> (rooms s))
                        (adapter s) (conns s),
                      [mkEmission (ToRoom room)
                         (EvUserSpeaking id speaking level) (in_room s room)])
            | None => Some (s, [])
            end
        end
    | None => Some (s, [])
    end.
Proof.
  intros Hid. unfold step. rewrite Hid.
  unfold exec, handle, on_speaking. rewrite when_truthy_eq.
  destruct (bound_room currentRoom) as [room |]; [| reflexivity].
  unfold mbind, handler_bind, hbind. cbn.
  destruct (rooms s !! room) as [us |]; [| reflexivity].
  destruct (us !! id); reflexivity.
Qed.

Lemma step_disconnect (s : State) id currentRoom :
  conns s !! id = Some currentRoom →
  step (Audio:=Audio) energy0 s id Disconnect
  = match bound_room currentRoom with
    | Some old =>
        Some (leave_state id old (closed_state id s),
              leave_out id old (closed_state id s))
    | None => Some (closed_state id s, [])
    end.
Proof.
  intros Hid. unfold step. rewrite Hid.
  unfold exec, handle, on_disconnect. rewrite when_truthy_eq.
  unfold mbind, handler_bind, hbind. cbn.
  destruct (bound_room currentRoom) as [old |]; [| reflexivity].
  rewrite leaveRoom_eq. reflexivity.
Qed.

(** **** Membership after a leave, a join and a close *)

Lemma members_leave_state id room (s : State) r :
  members (leave_state id room s) r
  = if decide (room = r) then members s room ∖ {[id]} else members s r.
Proof. apply dom_rooms_after_leave. Qed.

Lemma in_room_leave_state id room (s : State) r :
  in_room (leave_state id room s) r
  = if decide (room = r) then in_room s room ∖ {[id]} else in_room s r.
Proof. apply in_room_insert. Qed.

Lemma no_empty_room_leave_state id room (s : State) :
  no_empty_room s → no_empty_room (leave_state id room s).
Proof. intros H. exact (rooms_after_leave_nonempty id room (rooms s) H). Qed.

Lemma members_join_state id room name (s : State) r :
  members (join_state energy0 id room name s) r
  = if decide (room = r) then {[id]} ∪ members s room else members s r.
Proof. apply dom_rooms_after_join. Qed.

Lemma in_room_join_state id room name (s : State) r :
  in_room (join_state energy0 id room name s) r
  = if decide (room = r) then {[id]} ∪ in_room s room else in_room s r.
Proof. apply in_room_insert. Qed.

Lemma no_empty_room_join_state id room name (s : State) :
  no_empty_room s → no_empty_room (join_state energy0 id room name s).
Proof.
  intros H. exact (rooms_after_join_nonempty id room name (rooms s) H).
Qed.

Lemma in_room_closed_state id (s : State) r :
  in_room (closed_state id s) r = in_room s r ∖ {[id]}.
Proof.
  unfold in_room, closed_state. cbn. rewrite lookup_fmap.
  destruct (adapter s !! r); cbn; [reflexivity | set_solver].
Qed.

Lemma members_lookup (s : State) id room :
  id ∈ members s room ↔
  ∃ roomUsers user, rooms s !! room = Some roomUsers ∧ roomUsers !! id = Some user.
Proof.
  unfold members. destruct (rooms s !! room) as [us |]; cbn.
  - rewrite jsmap_elem_of_dom. unfold is_Some. naive_solver.
  - rewrite (jsmap_dom_empty (V:=User Energy)). set_solver.
Qed.

(** **** The registry never holds an empty room *)

Lemma bound_is_member_weaken skip (s : State) :
  bound_is_member_except None s → bound_is_member_except skip s.
Proof. intros H id room _. apply H. discriminate. Qed.

Lemma bound_is_member_leave id old skip (s : State) :
  skip = Some id →
  bound_is_member_except skip s →
  bound_is_member_except skip (leave_state id old s).
Proof.
  intros -> H id' room Hne Hconn Hroom.
  rewrite members_leave_state.
  specialize (H id' room Hne Hconn Hroom).
  destruct (decide (old = room)) as [-> |]; [| exact H].
  set_solver.
Qed.

Lemma bound_is_member_join id room name (s : State) :
  bound_is_member_except (Some id) s →
  bound_is_member_except None (join_state energy0 id room name s).
Proof.
  intros H id' r _. cbn. rewrite members_join_state, lookup_insert.
  destruct (decide (id = id')) as [<- | Hne].
  - intros [= <-] _. rewrite decide_True by reflexivity. set_solver.
  - intros Hconn Hr. specialize (H id' r ltac:(congruence) Hconn Hr).
    destruct (decide (room = r)) as [-> |]; set_solver.
Qed.

Lemma bound_is_member_unbind id
    (rs : JsMap (JsMap (User Energy))) ad (s : State) :
  (∀ r, members (mkState rs ad (<[id := None]> (conns s))) r = members s r) →
  bound_is_member_except (Some id) s →
  bound_is_member_except None (mkState rs ad (<[id := None]> (conns s))).
Proof.
  intros Hm H id' r _. cbn. rewrite Hm, lookup_insert.
  destruct (decide (id = id')) as [<- | Hne]; [discriminate |].
  apply H. congruence.
Qed.

Lemma bound_is_member_closed id (s : State) :
  bound_is_member_except None s →
  bound_is_member_except (Some id) (closed_state id s).
Proof.
  intros H id' r Hne. cbn. rewrite lookup_delete_ne by congruence.
  apply H. discriminate.
Qed.

Lemma bound_is_member_gone id (s : State) :
  conns s !! id = None →
  bound_is_member_except (Some id) s → bound_is_member_except None s.
Proof.
  intros Hid H id' r _ Hconn Hr.
  apply (H id' r); [intros [= ->]; congruence | assumption | assumption].
Qed.

(** The event leaves the state as it was. *)
Ltac state_unchanged :=
  eexists _, _; split; [reflexivity | split; assumption].

Lemma step_inv_registry (s : State) id ev :
  inv_registry s →
  ∃ s' out, step (Audio:=Audio) energy0 s id ev = Some (s', out)
            ∧ inv_registry s'.
Proof.
  intros [Hne Hb].
  destruct (conns s !! id) as [currentRoom |] eqn:Hid.
  - destruct ev as [| room name | | data | speaking level |].
    + rewrite (step_connect_again s id currentRoom Hid).
      state_unchanged.
    + rewrite (step_join s id currentRoom room name Hid). cbv zeta.
      eexists _, _. split; [reflexivity |].
      destruct (bound_room currentRoom) as [old |].
      * split.
        -- apply no_empty_room_join_state, no_empty_room_leave_state, Hne.
        -- apply bound_is_member_join, bound_is_member_leave;
             [reflexivity | apply bound_is_member_weaken, Hb].
      * split.
        -- apply no_empty_room_join_state, Hne.
        -- apply bound_is_member_join, bound_is_member_weaken, Hb.
    + rewrite (step_leave s id currentRoom Hid).
      destruct (bound_room currentRoom) as [old |].
      * eexists _, _. split; [reflexivity |]. split.
        -- apply (no_empty_room_leave_state id old s Hne).
        -- apply (bound_is_member_unbind id _ _ (leave_state id old s));
             [reflexivity |].
           apply bound_is_member_leave;
             [reflexivity | apply bound_is_member_weaken, Hb].
      * state_unchanged.
    + rewrite (step_voice s id currentRoom data Hid).
      destruct (bound_room currentRoom); state_unchanged.
    + rewrite (step_speaking s id currentRoom speaking level Hid).
      destruct (bound_room currentRoom) as [room |] eqn:Hbound;
        [| state_unchanged].
      apply bound_room_Some in Hbound as [-> Hroom].
      destruct (proj1 (members_lookup s id room) (Hb id room ltac:(discriminate) Hid Hroom))
        as (us & user & Hus & Huser).
      rewrite Hus, Huser. eexists _, _. split; [reflexivity |].
      assert (∀ r, members (mkState
                 (<[room := <[id := mkUser (username user) speaking level]> us]>
                    (rooms s)) (adapter s) (conns s)) r = members s r) as Hm.
      { intros r. unfold members. cbn. rewrite jsmap_lookup_insert.
        destruct (decide (room = r)) as [<- |]; [| reflexivity].
        rewrite Hus. cbn. rewrite jsmap_dom_insert.
        apply jsmap_elem_of_dom_2 in Huser. set_solver. }
      split.
      * intros r us'. cbn. rewrite jsmap_lookup_insert.
        destruct (decide (room = r)); [| apply Hne].
        intros [= <-]. apply jsmap_insert_non_empty.
      * intros id' r Hskip. cbn. rewrite Hm. apply Hb. exact Hskip.
    + rewrite (step_disconnect s id currentRoom Hid).
      destruct (bound_room currentRoom) as [old |];
        (eexists _, _; split; [reflexivity |]).
      * split.
        -- apply no_empty_room_leave_state. exact Hne.
        -- apply (bound_is_member_gone id); [apply lookup_delete_eq |].
           apply bound_is_member_leave; [reflexivity |].
           apply bound_is_member_closed, Hb.
      * split; [exact Hne |].
        apply (bound_is_member_gone id); [apply lookup_delete_eq |].
        apply bound_is_member_closed, Hb.
  - destruct ev;
      try (rewrite (step_ignored s id _ Hid) by discriminate;
           state_unchanged).
    rewrite (step_connect s id Hid). eexists _, _. split; [reflexivity |].
    split; [exact Hne |].
    intros id' r _. cbn. rewrite lookup_insert.
    destruct (decide (id = id')); [discriminate |].
    apply Hb. discriminate.
Qed.

Lemma run_inv_registry evs (s : State) :
  inv_registry s →
  ∃ s' out, run (Audio:=Audio) energy0 s evs = Some (s', out)
            ∧ inv_registry s'.
Proof.
  revert s. induction evs as [| [id ev] evs IH]; intros s Hinv.
  - eexists _, _. split; [reflexivity | exact Hinv].
  - destruct (step_inv_registry s id ev Hinv) as (s1 & out1 & Hstep & Hinv1).
    destruct (IH s1 Hinv1) as (s2 & out2 & Hrun & Hinv2).
    cbn [run]. rewrite Hstep, Hrun. eauto.
Qed.

Lemma inv_registry_init : inv_registry (init : State).
Proof.
  split.
  - intros room us. cbn. rewrite jsmap_lookup_empty. discriminate.
  - intros id room _. cbn. rewrite lookup_empty. discriminate.
Qed.

(** C2 (no empty room).  After every sequence of connection, join, leave,
    voice, speaking and disconnect events the server has not raised, and
    every room present in the registry has a non-empty participant set: a
    room is in the registry exactly when it has a participant. *)
Theorem no_empty_room_invariant evs :
  ∃ (s : State) out,
    run (Audio:=Audio) energy0 init evs = Some (s, out)
    ∧ (∀ room roomUsers, rooms s !! room = Some roomUsers → roomUsers ≠ ∅)
    ∧ (∀ room, is_Some (rooms s !! room) ↔ members s room ≠ ∅).
Proof.
  destruct (run_inv_registry evs init inv_registry_init)
    as (s & out & Hrun & Hne & _).
  exists s, out. split; [exact Hrun |]. split; [exact Hne |].
  intros room. unfold members. split.
  - intros [us Hus]. rewrite Hus. cbn. intros Hdom.
    apply (Hne room us Hus). apply jsmap_dom_empty_iff. exact Hdom.
  - destruct (rooms s !! room); [eauto |]. cbn. rewrite (jsmap_dom_empty (V:=User Energy)). done.
Qed.

(** **** One room per connection *)

Lemma inv_binding_unique (s : State) id r1 r2 :
  inv_binding s → id ∈ members s r1 → id ∈ members s r2 → r1 = r2.
Proof.
  intros (_ & _ & Hb & _ & _) H1 H2.
  apply Hb in H1, H2; try discriminate. congruence.
Qed.

Lemma inv_binding_bound (s : State) id currentRoom :
  inv_binding s → conns s !! id = Some currentRoom →
  bound_room currentRoom = currentRoom.
Proof.
  intros (_ & _ & Hb & _ & Hempty) Hid.
  destruct currentRoom as [r |]; [| reflexivity].
  unfold bound_room, truthy. rewrite bool_decide_eq_true_2; [reflexivity |].
  intros ->. apply Hb in Hid; [| discriminate]. set_solver.
Qed.

(** A socket.io room without the socket whose identity names it holds the
    participants of the registry and no one else. *)
Lemma inv_binding_exact skip (s : State) r :
  binding_except skip s → conns s !! r = None → in_room s r = members s r.
Proof.
  intros (Hsub & Hsup & _) Hr. apply set_eq. intros j. split.
  - intros Hj. destruct (Hsup r j Hj) as [Hm | [-> [x Hx]]]; [exact Hm |].
    congruence.
  - apply Hsub.
Qed.

Lemma binding_leave (s : State) id old :
  inv_binding s → conns s !! id = Some (Some old) →
  binding_except (Some id) (leave_state id old s).
Proof.
  intros (Hsub & Hsup & Hb & _ & Hempty) Hid.
  assert (id ∈ members s old) as Hin by (apply Hb; [discriminate | exact Hid]).
  split; [| split; [| split; [| split]]].
  - intros r. rewrite in_room_leave_state, members_leave_state.
    pose proof (Hsub r). pose proof (Hsub old).
    destruct (decide (old = r)); set_solver.
  - intros r j. rewrite in_room_leave_state, members_leave_state.
    change (conns (leave_state id old s)) with (conns s).
    destruct (decide (old = r)) as [-> |]; [| apply Hsup].
    intros Hj. apply elem_of_difference in Hj as [Hj Hne].
    destruct (Hsup r j Hj) as [Hm | Hown]; [left; set_solver | right; exact Hown].
  - intros id' r Hne. cbn. rewrite members_leave_state.
    rewrite (Hb id' r) by discriminate.
    destruct (decide (old = r)) as [-> |]; [| reflexivity].
    assert (id' ≠ id) by congruence. set_solver.
  - intros id' r [= <-]. rewrite members_leave_state.
    destruct (decide (old = r)) as [-> |]; [set_solver |].
    intros Hr. apply Hb in Hr; [| discriminate]. congruence.
  - rewrite members_leave_state.
    destruct (decide (old = EmptyString)); set_solver.
Qed.

Lemma binding_unbound (s : State) id :
  inv_binding s → conns s !! id = Some None →
  binding_except (Some id) s.
Proof.
  intros (Hsub & Hsup & Hb & _ & Hempty) Hid.
  split; [exact Hsub | split; [exact Hsup | split; [| split; [| exact Hempty]]]].
  - intros id' r _. apply Hb. discriminate.
  - intros id' r [= <-] Hr. apply Hb in Hr; [| discriminate]. congruence.
Qed.

Lemma binding_join (s : State) id room name :
  room ≠ EmptyString →
  binding_except (Some id) s →
  inv_binding (join_state energy0 id room name s).
Proof.
  intros Hname (Hsub & Hsup & Hb & Hout & Hempty).
  split; [| split; [| split; [| split]]].
  - intros r. rewrite in_room_join_state, members_join_state.
    pose proof (Hsub r). pose proof (Hsub room).
    destruct (decide (room = r)); set_solver.
  - intros r j. rewrite in_room_join_state, members_join_state.
    cbn [conns join_state].
    assert (∀ x, is_Some (conns s !! x) →
                 is_Some (<[id := Some room]> (conns s) !! x)) as Hkeep.
    { intros x Hx. rewrite lookup_insert. case_decide; eauto. }
    destruct (decide (room = r)) as [-> |].
    + intros Hj. apply elem_of_union in Hj as [Hj | Hj]; [left; set_solver |].
      destruct (Hsup r j Hj) as [Hm | [-> Hx]]; [left; set_solver |].
      right. auto.
    + intros Hj. destruct (Hsup r j Hj) as [Hm | [-> Hx]]; [left; exact Hm |].
      right. auto.
  - intros id' r _. cbn. rewrite members_join_state, lookup_insert.
    destruct (decide (id = id')) as [<- | Hne].
    + specialize (Hout id r eq_refl).
      destruct (decide (room = r)) as [-> |]; [set_solver |].
      split; [congruence | tauto].
    + rewrite (Hb id' r) by congruence.
      destruct (decide (room = r)) as [-> |]; set_solver.
  - discriminate.
  - rewrite members_join_state. rewrite decide_False by exact Hname.
    exact Hempty.
Qed.

Lemma binding_unbind id
    (rs : JsMap (JsMap (User Energy))) ad (s : State) :
  (∀ r, members (mkState rs ad (<[id := None]> (conns s))) r = members s r) →
  (∀ r, in_room (mkState rs ad (<[id := None]> (conns s))) r = in_room s r) →
  binding_except (Some id) s →
  inv_binding (mkState rs ad (<[id := None]> (conns s))).
Proof.
  intros Hm Hi (Hsub & Hsup & Hb & Hout & Hempty).
  split; [| split; [| split; [| split]]].
  - intros r. rewrite Hm, Hi. apply Hsub.
  - intros r j. rewrite Hm, Hi. cbn [conns]. intros Hj.
    destruct (Hsup r j Hj) as [? | [-> Hx]]; [left; assumption | right].
    split; [reflexivity |]. rewrite lookup_insert. case_decide; eauto.
  - intros id' r _. cbn. rewrite Hm, lookup_insert.
    destruct (decide (id = id')) as [<- | Hne].
    + specialize (Hout id r eq_refl). split; [discriminate | tauto].
    + apply Hb. congruence.
  - discriminate.
  - rewrite Hm. exact Hempty.
Qed.

Lemma binding_connect id (s : State) :
  conns s !! id = None →
  inv_binding s →
  inv_binding (mkState (rooms s) (<[id := {[id]} ∪ in_room s id]> (adapter s))
                 (<[id := None]> (conns s))).
Proof.
  intros Hid (Hsub & Hsup & Hb & _ & Hempty).
  split; [| split; [| split; [| split; [discriminate | exact Hempty]]]].
  - intros r. rewrite in_room_insert.
    change (members (mkState (rooms s) ?ad ?cs) r) with (members s r).
    specialize (Hsub r). destruct (decide (id = r)) as [<- |]; set_solver.
  - intros r j. rewrite in_room_insert.
    change (members (mkState (rooms s) ?ad ?cs) r) with (members s r).
    cbn [conns].
    assert (∀ x, is_Some (conns s !! x) →
                 is_Some (<[id := None]> (conns s) !! x)) as Hkeep.
    { intros x Hx. rewrite lookup_insert. case_decide; eauto. }
    destruct (decide (id = r)) as [<- |].
    + intros Hj. apply elem_of_union in Hj as [Hj | Hj].
      * apply elem_of_singleton in Hj as ->. right.
        split; [reflexivity |]. rewrite lookup_insert_eq. eauto.
      * destruct (Hsup id j Hj) as [? | [-> Hx]]; [left; assumption |].
        right. auto.
    + intros Hj. destruct (Hsup r j Hj) as [? | [-> Hx]]; [left; assumption |].
      right. auto.
  - intros id' r _. cbn. rewrite lookup_insert.
    change (members (mkState (rooms s) ?ad ?cs) r) with (members s r).
    destruct (decide (id = id')) as [<- | Hne]; [| apply Hb; discriminate].
    rewrite <- (Hb id r) by discriminate. rewrite Hid. split; discriminate.
Qed.

Lemma binding_disconnect id currentRoom (s : State) :
  conns s !! id = Some currentRoom →
  inv_binding s →
  inv_binding (match currentRoom with
               | Some old => leave_state id old (closed_state id s)
               | None => closed_state id s
               end).
Proof.
  intros Hid Hinv. pose proof Hinv as (Hsub & Hsup & Hb & _ & Hempty).
  assert (∀ r, currentRoom ≠ Some r → id ∉ members s r) as Hout.
  { intros r Hne Hr. apply Hb in Hr; [| discriminate]. congruence. }
  assert (∀ r j, j ∈ in_room s r ∖ {[id]} →
            j ∈ members s r ∖ {[id]}
            ∨ (j = r ∧ is_Some (delete id (conns s) !! j))) as Hsup'.
  { intros r j Hj. apply elem_of_difference in Hj as [Hj Hne].
    destruct (Hsup r j Hj) as [? | [-> Hx]]; [left; set_solver | right].
    split; [reflexivity |]. rewrite lookup_delete_ne; [exact Hx | set_solver]. }
  destruct currentRoom as [old |].
  - split; [| split; [| split; [| split]]].
    + intros r.
      rewrite in_room_leave_state, members_leave_state, !in_room_closed_state.
      change (members (closed_state id s)) with (members s).
      specialize (Hsub r). destruct (decide (old = r)) as [-> |]; [set_solver |].
      specialize (Hout r ltac:(congruence)). set_solver.
    + intros r j.
      rewrite in_room_leave_state, members_leave_state, !in_room_closed_state.
      change (members (closed_state id s)) with (members s).
      cbn [conns leave_state closed_state].
      destruct (decide (old = r)) as [-> |].
      * intros Hj. apply (Hsup' r j). set_solver.
      * intros Hj. destruct (Hsup' r j Hj) as [? | ?]; [left; set_solver | auto].
    + intros id' r _. cbn. rewrite members_leave_state.
      change (members (closed_state id s)) with (members s).
      destruct (decide (id = id')) as [<- | Hne].
      * rewrite lookup_delete_eq. split; [discriminate |].
        destruct (decide (old = r)) as [-> |]; [set_solver |].
        intros Hr. exfalso. apply (Hout r); [congruence | exact Hr].
      * rewrite lookup_delete_ne by exact Hne.
        rewrite (Hb id' r) by discriminate.
        destruct (decide (old = r)) as [-> |]; set_solver.
    + discriminate.
    + rewrite members_leave_state.
      change (members (closed_state id s)) with (members s).
      destruct (decide (old = EmptyString)); set_solver.
  - split; [| split; [| split; [| split; [discriminate | exact Hempty]]]].
    + intros r. rewrite in_room_closed_state.
      change (members (closed_state id s)) with (members s).
      specialize (Hsub r). specialize (Hout r ltac:(discriminate)). set_solver.
    + intros r j. rewrite in_room_closed_state.
      change (members (closed_state id s)) with (members s).
      cbn [conns closed_state]. intros Hj.
      destruct (Hsup' r j Hj) as [? | ?]; [left; set_solver | auto].
    + intros id' r _. cbn.
      change (members (closed_state id s)) with (members s).
      destruct (decide (id = id')) as [<- | Hne].
      * rewrite lookup_delete_eq. split; [discriminate |].
        intros Hr. exfalso. apply (Hout r); [discriminate | exact Hr].
      * rewrite lookup_delete_ne by exact Hne. apply Hb. discriminate.
Qed.

Lemma inv_binding_init : inv_binding (init : State).
Proof.
  assert (∀ r, members (init : State) r = ∅) as Hm.
  { intros r. unfold members. cbn. rewrite jsmap_lookup_empty. reflexivity. }
  assert (∀ r, in_room (init : State) r = ∅) as Hi.
  { intros r. unfold in_room. cbn. rewrite lookup_empty. reflexivity. }
  split; [| split; [| split; [| split]]].
  - intros r. rewrite Hm. set_solver.
  - intros r j. rewrite Hi. set_solver.
  - intros id r _. rewrite Hm. cbn. rewrite lookup_empty.
    split; [discriminate | set_solver].
  - discriminate.
  - apply Hm.
Qed.

Lemma members_speaking (s : State) room us id user speaking level r :
  rooms s !! room = Some us → us !! id = Some user →
  members (mkState
             (<[room := <[id := mkUser (username user) speaking level]> us]>
                (rooms s)) (adapter s) (conns s)) r
  = members s r.
Proof.
  intros Hus Huser. unfold members. cbn [rooms].
  rewrite jsmap_lookup_insert.
  destruct (decide (room = r)) as [<- |]; [| reflexivity].
  rewrite Hus.
  change (dom (<[id := mkUser (username user) speaking level]> us) = dom us).
  rewrite jsmap_dom_insert.
  apply jsmap_elem_of_dom_2 in Huser. set_solver.
Qed.

Lemma step_inv_binding (s s' : State) id ev out :
  wf_event ev → inv_binding s →
  step (Audio:=Audio) energy0 s id ev = Some (s', out) →
  inv_binding s'.
Proof.
  intros Hwf Hinv.
  destruct (conns s !! id) as [currentRoom |] eqn:Hid.
  - pose proof (inv_binding_bound s id currentRoom Hinv Hid) as Hbound.
    destruct ev as [| room name | | data | speaking level |].
    + rewrite (step_connect_again s id currentRoom Hid). congruence.
    + rewrite (step_join s id currentRoom room name Hid), Hbound. cbv zeta.
      intros [= <- _]. apply binding_join; [exact Hwf |].
      destruct currentRoom as [old |].
      * apply binding_leave; assumption.
      * apply binding_unbound; assumption.
    + rewrite (step_leave s id currentRoom Hid), Hbound.
      destruct currentRoom as [old |]; [| congruence].
      cbv zeta. intros [= <- _].
      apply (binding_unbind id _ _ (leave_state id old s));
        [reflexivity | reflexivity |].
      apply binding_leave; assumption.
    + rewrite (step_voice s id currentRoom data Hid).
      destruct (bound_room currentRoom); congruence.
    + rewrite (step_speaking s id currentRoom speaking level Hid).
      destruct (bound_room currentRoom) as [room |]; [| congruence].
      destruct (rooms s !! room) as [us |] eqn:Hus; [| discriminate].
      destruct (us !! id) as [user |] eqn:Huser; [| congruence].
      intros [= <- _].
      pose proof (members_speaking s room us id user speaking level) as Hm.
      destruct Hinv as (Hsub & Hsup & Hb & Hskip & Hempty).
      split; [| split; [| split; [| split]]].
      * intros r. rewrite Hm by assumption. apply Hsub.
      * intros r j. rewrite Hm by assumption. apply Hsup.
      * intros id' r Hne. rewrite Hm by assumption. apply Hb. exact Hne.
      * discriminate.
      * rewrite Hm by assumption. exact Hempty.
    + rewrite (step_disconnect s id currentRoom Hid), Hbound.
      pose proof (binding_disconnect id currentRoom s Hid Hinv) as Hd.
      destruct currentRoom; intros [= <- _]; exact Hd.
  - destruct ev;
      try (rewrite (step_ignored s id _ Hid) by discriminate; congruence).
    rewrite (step_connect s id Hid). intros [= <- _].
    apply binding_connect; assumption.
Qed.

(** The states the server reaches on traces with non-empty room names. *)
Lemma run_inv evs (s : State) :
  wf_trace evs → inv_registry s → inv_binding s →
  ∃ s' out, run (Audio:=Audio) energy0 s evs = Some (s', out)
            ∧ inv_registry s' ∧ inv_binding s'.
Proof.
  revert s. induction evs as [| [id ev] evs IH]; intros s Hwf Hreg Hbind.
  - eexists _, _. split; [reflexivity | split; assumption].
  - apply Forall_cons in Hwf as [Hev Hwf]. cbn in Hev.
    destruct (step_inv_registry s id ev Hreg) as (s1 & out1 & Hstep & Hreg1).
    pose proof (step_inv_binding s s1 id ev out1 Hev Hbind Hstep) as Hbind1.
    destruct (IH s1 Hwf Hreg1 Hbind1) as (s2 & out2 & Hrun & Hinv2).
    cbn [run]. rewrite Hstep, Hrun. eauto.
Qed.

Lemma reachable_inv (s : State) :
  reachable (Audio:=Audio) energy0 s → inv_registry s ∧ inv_binding s.
Proof.
  intros (evs & out & Hwf & Hrun).
  destruct (run_inv evs init Hwf inv_registry_init inv_binding_init)
    as (s' & out' & Hrun' & Hinv).
  rewrite Hrun in Hrun'. injection Hrun' as <- <-. exact Hinv.
Qed.

Lemma in_room_bounds skip (s : State) r :
  binding_except skip s →
  members s r ⊆ in_room s r ∧ in_room s r ⊆ members s r ∪ {[r]}.
Proof.
  intros (Hsub & Hsup & _). split; [apply Hsub |].
  intros j Hj. destruct (Hsup r j Hj) as [? | [-> _]]; set_solver.
Qed.

(** **** Relay of audio *)


(** **** Fan-out of a join *)

(** C5, amended (fan-out of a join).  In every state the server reaches, a
    join by a connected socket emits, after the emissions of the implicit
    leave of its old room, four events in this order: ['user joined'] to
    every participant of the new room, the joiner included (and to no one
    else, unless a connected socket has the room's name as its identity);
    the snapshot of that room's participants, in the order they joined and
    the joiner last, to the joiner only; the room names, in the order the
    rooms were created, to every connected socket; and the joiner's
    identity to the joiner only. *)
Theorem join_fanout evs :
  wf_trace evs →
  ∃ (s : State) out,
    run (Audio:=Audio) energy0 init evs = Some (s, out)
    ∧ ∀ id currentRoom room name,
        conns s !! id = Some currentRoom → room ≠ EmptyString →
        ∃ s' pre joined users rooms_list your_id roomUsers,
          step (Audio:=Audio) energy0 s id (JoinRoom room name)
          = Some (s', pre ++ [joined; users; rooms_list; your_id])
          ∧ match currentRoom with
            | Some old =>
                ∃ s1, exec (leaveRoom (Audio:=Audio) id old) s = Some (s1, pre)
            | None => pre = []
            end
          ∧ rooms s' !! room = Some roomUsers
          ∧ event joined = EvUserJoined id name
          ∧ (members s' room ⊆ recipients joined)
          ∧ (recipients joined ⊆ members s' room ∪ {[room]})
          ∧ (conns s' !! room = None → recipients joined = members s' room)
          ∧ id ∈ recipients joined
          ∧ event users = EvRoomUsers (entries roomUsers)
          ∧ last (entries roomUsers) = Some (id, mkUser name false energy0)
          ∧ recipients users = {[id]}
          ∧ event rooms_list = EvUpdateRooms (keys (rooms s'))
          ∧ recipients rooms_list = dom (conns s')
          ∧ event your_id = EvYourId id
          ∧ recipients your_id = {[id]}.
Proof.
  intros Hwf.
  destruct (run_inv evs init Hwf inv_registry_init inv_binding_init)
    as (s & out & Hrun & Hreg & Hbind).
  exists s, out. split; [exact Hrun |].
  intros id currentRoom room name Hid Hroom.
  destruct (step_inv_registry s id (JoinRoom room name) Hreg)
    as (s' & out' & Hstep & _).
  pose proof (step_inv_binding s s' id (JoinRoom room name) out' Hroom Hbind
                Hstep) as Hbind'.
  rewrite Hstep.
  rewrite (step_join s id currentRoom room name Hid) in Hstep.
  rewrite (inv_binding_bound s id currentRoom Hbind Hid) in Hstep.
  cbv zeta in Hstep. injection Hstep as Hs' Hout'.
  set (s1 := match currentRoom with
             | Some old => leave_state id old s
             | None => s
             end) in *.
  assert (binding_except (Some id) s1) as Hbind1.
  { unfold s1. destruct currentRoom;
      [apply binding_leave | apply binding_unbound]; assumption. }
  assert (default ∅ (rooms s1 !! room) !! id = None) as Hfresh.
  { apply jsmap_not_elem_of_dom. destruct Hbind1 as (_ & _ & _ & Hout & _).
    exact (Hout id room eq_refl). }
  destruct (in_room_bounds None s' room Hbind') as [Hsub Hsup].
  assert (in_room s' room = {[id]} ∪ in_room s1 room) as Hin.
  { rewrite <- Hs', in_room_join_state, decide_True by reflexivity.
    reflexivity. }
  rewrite <- Hout'. unfold join_out. cbv zeta.
  eexists _, _, _, _, _, _, _. split; [reflexivity |].
  split.
  { destruct currentRoom as [old |]; [| reflexivity].
    unfold exec. rewrite leaveRoom_eq. eauto. }
  split.
  { rewrite <- Hs'. cbn [rooms join_state]. unfold rooms_after_join.
    apply jsmap_lookup_insert_eq. }
  cbn [event recipients]. rewrite <- Hin.
  split; [reflexivity |]. split; [exact Hsub |]. split; [exact Hsup |].
  split; [intros Hfree; exact (inv_binding_exact None s' room Hbind' Hfree) |].
  split; [rewrite Hin; set_solver |].
  split; [reflexivity |].
  split; [rewrite entries_insert_new by exact Hfresh; apply last_snoc |].
  rewrite <- Hs'. repeat split.
Qed.

(** **** Relay of speaking state *)

(** C8 (relay of speaking state).  In every state the server reaches, a
    ['speaking'] event from a connection bound to a room finds the sender
    among that room's participants, stores the new flag and energy in the
    sender's entry (the user name and the entry's place stay) and emits
    ['user speaking'] with the sender's identity to every participant of
    the room, the sender included -- and to no one else, unless a connected
    socket has the room's name as its identity; from a connection bound to
    no room it changes nothing and emits nothing.  And in any state, when
    the room of the sender does not list the sender, the event changes
    nothing and emits nothing. *)
Theorem speaking_relay :
  (∀ evs, wf_trace evs →
     ∃ (s : State) out,
       run (Audio:=Audio) energy0 init evs = Some (s, out)
       ∧ ∀ id speaking level,
           match conns s !! id with
           | Some (Some room) =>
               ∃ roomUsers user e,
                 rooms s !! room = Some roomUsers
                 ∧ roomUsers !! id = Some user
                 ∧ step (Audio:=Audio) energy0 s id (Speaking speaking level)
                   = Some (mkState
                             (<[room := <[id := mkUser (username user)
                                                  speaking level]>
                                          roomUsers]> (rooms s))
                             (adapter s) (conns s),
                           [e])
                 ∧ target e = ToRoom room
                 ∧ event e = EvUserSpeaking id speaking level
                 ∧ (members s room ⊆ recipients e)
                 ∧ (recipients e ⊆ members s room ∪ {[room]})
                 ∧ (conns s !! room = None → recipients e = members s room)
                 ∧ id ∈ members s room
           | _ =>
               step (Audio:=Audio) energy0 s id (Speaking speaking level)
               = Some (s, [])
           end)
  ∧ (∀ (s : State) id room roomUsers speaking level,
       conns s !! id = Some (Some room) → room ≠ EmptyString →
       rooms s !! room = Some roomUsers → roomUsers !! id = None →
       step (Audio:=Audio) energy0 s id (Speaking speaking level)
       = Some (s, [])).
Proof.
  split.
  - intros evs Hwf.
    destruct (run_inv evs init Hwf inv_registry_init inv_binding_init)
      as (s & out & Hrun & _ & Hbind).
    exists s, out. split; [exact Hrun |]. intros id speaking level.
    destruct (conns s !! id) as [currentRoom |] eqn:Hid;
      [| apply step_ignored; [exact Hid | discriminate]].
    rewrite (step_speaking s id currentRoom speaking level Hid).
    rewrite (inv_binding_bound s id currentRoom Hbind Hid).
    destruct currentRoom as [room |]; [| reflexivity].
    pose proof Hbind as (_ & _ & Hb & _ & _).
    assert (id ∈ members s room) as Hin by (apply Hb; [discriminate | exact Hid]).
    destruct (proj1 (members_lookup s id room) Hin) as (us & user & Hus & Huser).
    destruct (in_room_bounds None s room Hbind) as [Hsub Hsup].
    exists us, user. rewrite Hus, Huser. eexists.
    split; [reflexivity |]. split; [reflexivity |]. split; [reflexivity |].
    cbn [target event recipients].
    split; [reflexivity |]. split; [reflexivity |]. split; [exact Hsub |].
    split; [exact Hsup |].
    split; [intros Hfree; exact (inv_binding_exact None s room Hbind Hfree) |].
    exact Hin.
  - intros s id room us speaking level Hid Hroom Hus Huser.
    rewrite (step_speaking s id (Some room) speaking level Hid).
    unfold bound_room, truthy. rewrite bool_decide_eq_true_2 by exact Hroom.
    rewrite Hus, Huser. reflexivity.
Qed.

(** **** Disconnect and leave *)

Lemma broadcasts_app (out1 out2 : list Emission) :
  broadcasts (out1 ++ out2) = broadcasts out1 ++ broadcasts out2.
Proof. unfold broadcasts. rewrite filter_app, fmap_app. reflexivity. Qed.

Lemma inbox_app j (out1 out2 : list Emission) :
  inbox j (out1 ++ out2) = inbox j out1 ++ inbox j out2.
Proof. unfold inbox. rewrite filter_app, fmap_app. reflexivity. Qed.

Lemma inbox_cons j (e : Emission) out :
  inbox j (e :: out)
  = if decide (j ∈ recipients e) then event e :: inbox j out else inbox j out.
Proof.
  unfold inbox. rewrite filter_cons.
  destruct (decide (j ∈ recipients e)); reflexivity.
Qed.

Lemma leave_out_closed_broadcasts id old (s : State) :
  broadcasts (Audio:=Audio) (leave_out id old (closed_state id s))
  = broadcasts (leave_out id old s).
Proof.
  unfold leave_out. cbn [rooms closed_state].
  destruct (rooms s !! old) as [us |]; [| reflexivity].
  destruct (bool_decide _); reflexivity.
Qed.

Lemma leave_out_closed_inbox id old (s : State) j :
  j ≠ id →
  inbox (Audio:=Audio) j (leave_out id old (closed_state id s))
  = inbox j (leave_out id old s).
Proof.
  intros Hj. unfold leave_out.
  change (rooms (closed_state id s)) with (rooms s).
  destruct (rooms s !! old) as [us |]; [| reflexivity].
  rewrite !inbox_cons. cbn [recipients event].
  rewrite in_room_closed_state.
  destruct (bool_decide _).
  - rewrite !inbox_cons. cbn [recipients event conns closed_state inbox].
    rewrite (decide_ext (j ∈ dom (delete id (conns s))) (j ∈ dom (conns s)))
      by (rewrite dom_delete_L; set_solver).
    apply decide_ext. set_solver.
  - apply decide_ext. set_solver.
Qed.

(** C4 (disconnect convergence).  For a connected socket in any state, a
    disconnect and an explicit ['leave room'] both succeed, leave the same
    registry and trigger the same broadcasts (same events, same addressing),
    which every other connection receives identically; when the socket was
    bound to a room, it is no longer listed there. *)
Theorem disconnect_as_leave (s : State) id currentRoom :
  conns s !! id = Some currentRoom →
  ∃ s1 out1 s2 out2,
    step (Audio:=Audio) energy0 s id LeaveRoom = Some (s1, out1)
    ∧ step (Audio:=Audio) energy0 s id Disconnect = Some (s2, out2)
    ∧ rooms s1 = rooms s2
    ∧ broadcasts out1 = broadcasts out2
    ∧ (∀ j, j ≠ id → inbox j out1 = inbox j out2)
    ∧ (∀ room, currentRoom = Some room → room ≠ EmptyString →
         members s2 room = members s room ∖ {[id]}
         ∧ (members s room = {[id]} → rooms s2 !! room = None)).
Proof.
  intros Hid.
  rewrite (step_leave s id currentRoom Hid).
  rewrite (step_disconnect s id currentRoom Hid).
  destruct (bound_room currentRoom) as [old |] eqn:Hbound.
  - apply bound_room_Some in Hbound as [-> Hold].
    eexists _, _, _, _. split; [reflexivity |]. split; [reflexivity |].
    split; [reflexivity |]. split; [| split].
    + rewrite broadcasts_app, leave_out_closed_broadcasts. cbn.
      rewrite app_nil_r. reflexivity.
    + intros j Hj. rewrite inbox_app, leave_out_closed_inbox by exact Hj.
      rewrite inbox_cons. cbn [recipients].
      rewrite decide_False by set_solver. cbn. apply app_nil_r.
    + intros room [= <-] _. split.
      * rewrite members_leave_state, decide_True by reflexivity. reflexivity.
      * intros Honly. cbn. unfold rooms_after_leave, members in *.
        destruct (rooms s !! old) as [us |] eqn:Hus; [| exact Hus].
        cbn in Honly.
        rewrite bool_decide_eq_true_2; [apply jsmap_lookup_delete_eq |].
        apply jsmap_size_empty_iff, jsmap_dom_empty_iff.
        rewrite jsmap_dom_delete, Honly. set_solver.
  - eexists _, _, _, _. split; [reflexivity |]. split; [reflexivity |].
    split; [reflexivity |]. split; [reflexivity |].
    split; [intros; reflexivity |].
    intros room -> Hroom. exfalso.
    unfold bound_room, truthy in Hbound.
    rewrite bool_decide_eq_true_2 in Hbound by exact Hroom. discriminate.
Qed.

(** *** Further properties of the server *)

Lemma rooms_after_leave_sole id room
    (rs : JsMap (JsMap (User Energy))) :
  dom (default ∅ (rs !! room)) = {[id]} →
  rooms_after_leave id room rs !! room = None.
Proof.
  intros Hsole. unfold rooms_after_leave.
  destruct (rs !! room) as [us |] eqn:Hus; [| exact Hus].
  cbn in Hsole. rewrite bool_decide_eq_true_2; [apply jsmap_lookup_delete_eq |].
  apply jsmap_size_empty_iff, jsmap_dom_empty_iff.
  rewrite jsmap_dom_delete, Hsole. set_solver.
Qed.

(** Switching rooms.  In a state the server reaches, a join by a connected
    socket binds it to the new room and to no other: it is listed in the new
    room with a fresh entry (not speaking, energy 0), beside the room's
    other participants; it is no longer listed in the room
    it was bound to, which is deleted if it was alone there; rooms that are
    neither are untouched. *)
Theorem join_switches_rooms (s : State) id currentRoom room name :
  reachable (Audio:=Audio) energy0 s →
  conns s !! id = Some currentRoom → room ≠ EmptyString →
  ∃ s' out,
    step (Audio:=Audio) energy0 s id (JoinRoom room name) = Some (s', out)
    ∧ conns s' !! id = Some (Some room)
    ∧ entry s' room id = Some (mkUser name false energy0)
    ∧ members s' room = {[id]} ∪ members s room
    ∧ (∀ r, r ≠ room → id ∉ members s' r)
    ∧ (∀ old, currentRoom = Some old → old ≠ room →
         members s' old = members s old ∖ {[id]}
         ∧ (members s old = {[id]} → rooms s' !! old = None))
    ∧ (∀ r, r ≠ room → currentRoom ≠ Some r → members s' r = members s r).
Proof.
  intros Hreach Hid Hroom.
  destruct (reachable_inv s Hreach) as [Hreg Hbind].
  destruct (step_inv_registry s id (JoinRoom room name) Hreg)
    as (s' & out & Hstep & _).
  pose proof (step_inv_binding s s' id (JoinRoom room name) out Hroom Hbind
                Hstep) as Hbind'.
  exists s', out. split; [exact Hstep |].
  rewrite (step_join s id currentRoom room name Hid) in Hstep.
  rewrite (inv_binding_bound s id currentRoom Hbind Hid) in Hstep.
  cbv zeta in Hstep. injection Hstep as <- _.
  assert (id ∈ members
            (join_state energy0 id room name
               match currentRoom with
               | Some old => leave_state id old s
               | None => s
               end) room) as Hin.
  { rewrite members_join_state, decide_True by reflexivity. set_solver. }
  split; [apply lookup_insert_eq |].
  split.
  { unfold entry. cbn [rooms join_state]. unfold rooms_after_join.
    rewrite jsmap_lookup_insert_eq. cbn. apply jsmap_lookup_insert_eq. }
  split; [| split; [| split]].
  - rewrite members_join_state, decide_True by reflexivity.
    destruct currentRoom as [old |]; [| reflexivity].
    rewrite members_leave_state.
    destruct (decide (old = room)) as [-> |]; [| reflexivity].
    pose proof Hbind as (_ & _ & Hb & _ & _).
    assert (id ∈ members s room) by (apply Hb; [discriminate | exact Hid]).
    apply set_eq. intros x. destruct (decide (x = id)); set_solver.
  - intros r Hne Hr. apply Hne.
    exact (inv_binding_unique _ id r room Hbind' Hr Hin).
  - intros old -> Hne.
    rewrite members_join_state, decide_False by congruence.
    rewrite members_leave_state, decide_True by reflexivity.
    split; [reflexivity |].
    intros Hsole. cbn [rooms join_state]. unfold rooms_after_join.
    rewrite jsmap_lookup_insert_ne by congruence.
    apply rooms_after_leave_sole. exact Hsole.
  - intros r Hne Hcur. rewrite members_join_state, decide_False by congruence.
    destruct currentRoom as [old |]; [| reflexivity].
    rewrite members_leave_state, decide_False by congruence. reflexivity.
Qed.

(** One room per connection.  In a state the server reaches, a socket is
    listed in a room exactly when its connection is live and bound to that
    room; so no socket is listed in two rooms and every listed socket is
    connected.  The socket.io room of a name holds the sockets the registry
    lists for it, and no other socket than, possibly, the one whose identity
    is that name: it holds exactly the listed sockets when no connected
    socket has that identity. *)
Theorem one_room_per_connection (s : State) :
  reachable (Audio:=Audio) energy0 s →
  (∀ id r, id ∈ members s r ↔ conns s !! id = Some (Some r))
  ∧ (∀ id r1 r2, id ∈ members s r1 → id ∈ members s r2 → r1 = r2)
  ∧ (∀ id r, id ∈ members s r → is_Some (conns s !! id))
  ∧ (∀ r, members s r ⊆ in_room s r)
  ∧ (∀ r j, j ∈ in_room s r → j ∉ members s r →
       j = r ∧ is_Some (conns s !! j))
  ∧ (∀ r, conns s !! r = None → in_room s r = members s r).
Proof.
  intros Hreach. destruct (reachable_inv s Hreach) as [_ Hbind].
  pose proof Hbind as (Hsub & Hsup & Hb & _ & _).
  split; [| split; [| split; [| split; [| split]]]].
  - intros id r. symmetry. apply Hb. discriminate.
  - intros id r1 r2. apply inv_binding_unique. exact Hbind.
  - intros id r Hr. apply Hb in Hr; [| discriminate]. eauto.
  - exact Hsub.
  - intros r j Hj Hnot. destruct (Hsup r j Hj) as [? | ?]; tauto.
  - intros r. apply (inv_binding_exact None). exact Hbind.
Qed.

Lemma sole_member_size id (us : JsMap (User Energy)) :
  id ∈ dom us → (size (delete id us) = 0 ↔ dom us = {[id]}).
Proof.
  intros Hin.
  rewrite jsmap_size_empty_iff, <- jsmap_dom_empty_iff, jsmap_dom_delete.
  split; intros H.
  - apply set_eq. intros x. destruct (decide (x = id)); set_solver.
  - set_solver.
Qed.

(** Leaving.  In a state the server reaches, ['leave room'] from a bound
    socket emits, in this order: ['user left'] to the room's remaining
    participants, not to the leaver (and to no one else, unless a connected
    socket has the room's name as its identity); the names of the remaining
    rooms, in the order the rooms were created, to every connected socket,
    only if the leaver was alone and the room is deleted; and ['room left']
    to the leaver.  The socket is then bound to no room, and a second
    ['leave room'] changes nothing and emits nothing. *)
Theorem leave_notifies (s : State) id room :
  reachable (Audio:=Audio) energy0 s →
  conns s !! id = Some (Some room) →
  ∃ s' left,
    step (Audio:=Audio) energy0 s id LeaveRoom
    = Some (s',
            [left]
            ++ (if decide (members s room = {[id]}) then
                  [mkEmission ToAll
                     (EvUpdateRooms (filter (λ r, r ≠ room) (keys (rooms s))))
                     (dom (conns s))]
                else [])
            ++ [mkEmission (ToSocket id) EvRoomLeft {[id]}])
    ∧ target left = ToRoom room ∧ event left = EvUserLeft id
    ∧ (members s room ∖ {[id]} ⊆ recipients left)
    ∧ (recipients left ⊆ (members s room ∪ {[room]}) ∖ {[id]})
    ∧ (conns s !! room = None → recipients left = members s room ∖ {[id]})
    ∧ conns s' !! id = Some None
    ∧ members s' room = members s room ∖ {[id]}
    ∧ (members s room = {[id]} ↔ rooms s' !! room = None)
    ∧ (members s room = {[id]} →
       keys (rooms s') = filter (λ r, r ≠ room) (keys (rooms s)))
    ∧ (∀ r, r ≠ room → members s' r = members s r)
    ∧ step (Audio:=Audio) energy0 s' id LeaveRoom = Some (s', []).
Proof.
  intros Hreach Hid.
  destruct (reachable_inv s Hreach) as [Hreg Hbind].
  pose proof Hbind as (_ & _ & Hb & _ & _).
  destruct (in_room_bounds None s room Hbind) as [Hsub Hsup].
  assert (id ∈ members s room) as Hin by (apply Hb; [discriminate | exact Hid]).
  destruct (proj1 (members_lookup s id room) Hin) as (us & user & Hus & Huser).
  assert (members s room = dom us) as Hmem by (unfold members; rewrite Hus; done).
  apply jsmap_elem_of_dom_2 in Huser.
  pose proof (sole_member_size id us Huser) as Hsole.
  rewrite (step_leave s id (Some room) Hid).
  rewrite (inv_binding_bound s id (Some room) Hbind Hid). cbv zeta.
  eexists _, _. split.
  { f_equal. f_equal. unfold leave_out. rewrite Hus, Hmem.
    rewrite <- keys_delete.
    destruct (decide (dom us = {[id]})) as [Hone | Hmore].
    - rewrite bool_decide_eq_true_2 by (apply Hsole; assumption).
      reflexivity.
    - rewrite bool_decide_eq_false_2; [reflexivity |].
      intros Hsize. apply Hmore. apply Hsole; assumption. }
  cbn [target event recipients].
  split; [reflexivity |]. split; [reflexivity |].
  split; [set_solver |]. split; [set_solver |].
  split.
  { intros Hfree. rewrite (inv_binding_exact None s room Hbind Hfree).
    reflexivity. }
  split; [cbn; apply lookup_insert_eq |].
  split.
  { change (members (leave_state id room s) room = members s room ∖ {[id]}).
    rewrite members_leave_state, decide_True by reflexivity. reflexivity. }
  split.
  { cbn [rooms leave_state]. unfold rooms_after_leave. rewrite Hus, Hmem.
    rewrite <- Hsole. case_bool_decide as Hsize.
    - rewrite jsmap_lookup_delete_eq. tauto.
    - rewrite jsmap_lookup_insert_eq. split; [tauto | discriminate]. }
  split.
  { intros Hone. cbn [rooms leave_state]. unfold rooms_after_leave.
    rewrite Hus, bool_decide_eq_true_2
      by (apply Hsole; rewrite <- Hmem; exact Hone).
    apply keys_delete. }
  split.
  { intros r Hne.
    change (members (leave_state id room s) r = members s r).
    rewrite members_leave_state, decide_False by congruence. reflexivity. }
  erewrite step_leave by (cbn; apply lookup_insert_eq). reflexivity.
Qed.

(** The empty room name.  The server accepts a join of the room named by the
    empty string, but its handlers then take the connection for unbound,
    [currentRoom] being falsy: in any state, after such a join the socket is
    listed in that room, yet its ['leave room'] and ['voice'] events do
    nothing, and its disconnect leaves it listed there although it is no
    longer connected. *)
Theorem empty_room_name_is_unbound (s : State) id currentRoom name :
  conns s !! id = Some currentRoom →
  ∃ s1 out1 s2,
    step (Audio:=Audio) energy0 s id (JoinRoom EmptyString name)
    = Some (s1, out1)
    ∧ id ∈ members s1 EmptyString
    ∧ step (Audio:=Audio) energy0 s1 id LeaveRoom = Some (s1, [])
    ∧ (∀ data, step (Audio:=Audio) energy0 s1 id (Voice data) = Some (s1, []))
    ∧ (∀ speaking level,
         step (Audio:=Audio) energy0 s1 id (Speaking speaking level)
         = Some (s1, []))
    ∧ step (Audio:=Audio) energy0 s1 id Disconnect = Some (s2, [])
    ∧ conns s2 !! id = None
    ∧ id ∈ members s2 EmptyString.
Proof.
  intros Hid. rewrite (step_join s id currentRoom EmptyString name Hid).
  cbv zeta. eexists _, _, _. split; [reflexivity |].
  set (s1 := join_state energy0 id EmptyString name _).
  assert (conns s1 !! id = Some (Some EmptyString)) as Hid1
    by apply lookup_insert_eq.
  assert (id ∈ members s1 EmptyString) as Hin.
  { unfold s1. rewrite members_join_state, decide_True by reflexivity.
    set_solver. }
  split; [exact Hin |].
  rewrite (step_leave s1 id _ Hid1), (step_disconnect s1 id _ Hid1).
  split; [reflexivity |]. split.
  { intros data. rewrite (step_voice s1 id _ data Hid1). reflexivity. }
  split.
  { intros speaking level.
    rewrite (step_speaking s1 id _ speaking level Hid1). reflexivity. }
  split; [reflexivity |]. split; [apply lookup_delete_eq | exact Hin].
Qed.

(** Storing the speaking state.  In any state, when the room of a bound
    sender lists it, a ['speaking'] event stores the new flag and energy
    under the sender's unchanged user name and changes no other entry, no
    connection and no socket.io room; a second event overwrites the first:
    the state is the one the second event alone would give. *)
Theorem speaking_stores_latest (s : State) id room user sp1 lv1 sp2 lv2 :
  conns s !! id = Some (Some room) → room ≠ EmptyString →
  entry s room id = Some user →
  ∃ s1 out1 s2 out2,
    step (Audio:=Audio) energy0 s id (Speaking sp1 lv1) = Some (s1, out1)
    ∧ entry s1 room id = Some (mkUser (username user) sp1 lv1)
    ∧ (∀ r j, (r, j) ≠ (room, id) → entry s1 r j = entry s r j)
    ∧ conns s1 = conns s ∧ adapter s1 = adapter s
    ∧ step (Audio:=Audio) energy0 s1 id (Speaking sp2 lv2) = Some (s2, out2)
    ∧ step (Audio:=Audio) energy0 s id (Speaking sp2 lv2) = Some (s2, out2).
Proof.
  intros Hid Hroom Hentry. unfold entry in Hentry.
  destruct (rooms s !! room) as [us |] eqn:Hus; [| discriminate].
  cbn in Hentry.
  assert (bound_room (Some room) = Some room) as Hbound.
  { apply bound_room_Some. auto. }
  rewrite !(step_speaking s id (Some room) _ _ Hid), Hbound, Hus, Hentry.
  eexists _, _, _, _. split; [reflexivity |].
  split.
  { unfold entry. cbn [rooms]. rewrite jsmap_lookup_insert_eq. cbn.
    apply jsmap_lookup_insert_eq. }
  split.
  { intros r j Hne. unfold entry. cbn [rooms]. rewrite jsmap_lookup_insert.
    destruct (decide (room = r)) as [<- |]; [| reflexivity].
    rewrite Hus. cbn.
    rewrite jsmap_lookup_insert_ne; [reflexivity | congruence]. }
  split; [reflexivity |]. split; [reflexivity |].
  erewrite step_speaking by exact Hid.
  rewrite Hbound. cbn [rooms].
  rewrite jsmap_lookup_insert_eq, jsmap_lookup_insert_eq.
  cbn [username adapter conns rooms]. rewrite !jsmap_insert_insert_eq.
  split; reflexivity.
Qed.

Lemma entry_after_leave id room (rs : JsMap (JsMap (User Energy)))
    r j :
  j ≠ id →
  rooms_after_leave id room rs !! r ≫= (λ us, us !! j)
  = rs !! r ≫= (λ us, us !! j).
Proof.
  intros Hne. unfold rooms_after_leave.
  destruct (rs !! room) as [us |] eqn:Hus; [| reflexivity].
  case_bool_decide as Hsize.
  - rewrite jsmap_lookup_delete.
    destruct (decide (room = r)) as [<- |]; [| reflexivity].
    rewrite Hus. cbn. apply jsmap_size_empty_iff in Hsize.
    rewrite <- (jsmap_lookup_delete_ne us id j) by congruence.
    rewrite Hsize. reflexivity.
  - rewrite jsmap_lookup_insert.
    destruct (decide (room = r)) as [<- |]; [| reflexivity].
    rewrite Hus. cbn. apply jsmap_lookup_delete_ne. congruence.
Qed.

Lemma entry_after_join id room name
    (rs : JsMap (JsMap (User Energy))) r j :
  j ≠ id →
  rooms_after_join energy0 id room name rs !! r ≫= (λ us, us !! j)
  = rs !! r ≫= (λ us, us !! j).
Proof.
  intros Hne. unfold rooms_after_join. rewrite jsmap_lookup_insert.
  destruct (decide (room = r)) as [<- |]; [| reflexivity].
  cbn. rewrite jsmap_lookup_insert_ne by congruence.
  destruct (rs !! room); reflexivity.
Qed.

(** A connection changes its own entries only.  In any state, whatever
    event of a socket the server handles without raising, the registry
    entry of every other socket, in every room, stays as it was. *)
Theorem others_entries_untouched (s s' : State) id ev out :
  step (Audio:=Audio) energy0 s id ev = Some (s', out) →
  ∀ r j, j ≠ id → entry s' r j = entry s r j.
Proof.
  intros Hstep r j Hne. unfold entry.
  destruct (conns s !! id) as [currentRoom |] eqn:Hid.
  - destruct ev as [| room name | | data | speaking level |].
    + rewrite (step_connect_again s id _ Hid) in Hstep. congruence.
    + rewrite (step_join s id _ room name Hid) in Hstep. cbv zeta in Hstep.
      injection Hstep as <- _. cbn. rewrite entry_after_join by exact Hne.
      destruct (bound_room currentRoom); [| reflexivity].
      apply entry_after_leave. exact Hne.
    + rewrite (step_leave s id _ Hid) in Hstep.
      destruct (bound_room currentRoom); [| congruence].
      injection Hstep as <- _. cbn. apply entry_after_leave. exact Hne.
    + rewrite (step_voice s id _ data Hid) in Hstep.
      destruct (bound_room currentRoom); congruence.
    + rewrite (step_speaking s id _ speaking level Hid) in Hstep.
      destruct (bound_room currentRoom) as [room |]; [| congruence].
      destruct (rooms s !! room) as [us |] eqn:Hus; [| discriminate].
      destruct (us !! id) as [user |]; [| congruence].
      injection Hstep as <- _. cbn [rooms]. rewrite jsmap_lookup_insert.
      destruct (decide (room = r)) as [<- |]; [| reflexivity].
      rewrite Hus. cbn. apply jsmap_lookup_insert_ne. congruence.
    + rewrite (step_disconnect s id _ Hid) in Hstep.
      destruct (bound_room currentRoom); injection Hstep as <- _;
        [| reflexivity].
      cbn. apply entry_after_leave. exact Hne.
  - destruct ev;
      try (rewrite (step_ignored s id _ Hid) in Hstep by discriminate;
           congruence).
    rewrite (step_connect s id Hid) in Hstep. injection Hstep as <- _.
    reflexivity.
Qed.

Lemma leave_out_recipients id old (s : State) (ok : gset string) :
  in_room s old ∖ {[id]} ⊆ ok → dom (conns s) ⊆ ok →
  Forall (λ e, recipients e ⊆ ok) (leave_out (Audio:=Audio) id old s).
Proof.
  intros Hroom Hall. unfold leave_out.
  destruct (rooms s !! old) as [us |]; [| constructor].
  constructor; [exact Hroom |].
  destruct (bool_decide _); repeat constructor. exact Hall.
Qed.

(** Emissions reach connected sockets only. *)
Lemma step_recipients_connected (s s' : State) id ev out :
  inv_binding s →
  step (Audio:=Audio) energy0 s id ev = Some (s', out) →
  Forall (λ e, recipients e ⊆ dom (conns s')) out.
Proof.
  intros Hbind Hstep.
  assert (∀ r, in_room s r ⊆ dom (conns s)) as Hsub.
  { destruct Hbind as (_ & Hsup & Hb & _ & _). intros r j Hj.
    apply elem_of_dom. destruct (Hsup r j Hj) as [Hm | [_ Hx]]; [| exact Hx].
    apply Hb in Hm; [| discriminate]. eauto. }
  destruct (conns s !! id) as [currentRoom |] eqn:Hid.
  - assert (id ∈ dom (conns s)) as Hdom by (apply elem_of_dom; eauto).
    destruct ev as [| room name | | data | speaking level |].
    + rewrite (step_connect_again s id _ Hid) in Hstep.
      injection Hstep as <- <-. constructor.
    + rewrite (step_join s id _ room name Hid) in Hstep. cbv zeta in Hstep.
      injection Hstep as <- <-. apply Forall_app. split.
      * destruct (bound_room currentRoom) as [old |]; [| constructor].
        apply leave_out_recipients; cbn; rewrite dom_insert_L.
        -- specialize (Hsub old). set_solver.
        -- set_solver.
      * unfold join_out. cbv zeta. cbn [conns join_state].
        rewrite dom_insert_L. repeat constructor; cbn; try set_solver.
        destruct (bound_room currentRoom) as [old |].
        -- rewrite in_room_leave_state. specialize (Hsub room).
           destruct (decide (old = room)); set_solver.
        -- specialize (Hsub room). set_solver.
    + rewrite (step_leave s id _ Hid) in Hstep.
      destruct (bound_room currentRoom) as [old |];
        injection Hstep as <- <-; [| constructor].
      cbn. rewrite dom_insert_L. apply Forall_app. split.
      * apply leave_out_recipients; [specialize (Hsub old) |]; set_solver.
      * repeat constructor. cbn. set_solver.
    + rewrite (step_voice s id _ data Hid) in Hstep.
      destruct (bound_room currentRoom) as [room |];
        injection Hstep as <- <-; repeat constructor.
      cbn. specialize (Hsub room). set_solver.
    + rewrite (step_speaking s id _ speaking level Hid) in Hstep.
      destruct (bound_room currentRoom) as [room |];
        [| injection Hstep as <- <-; constructor].
      destruct (rooms s !! room) as [us |]; [| discriminate].
      destruct (us !! id); injection Hstep as <- <-; repeat constructor.
      cbn. apply Hsub.
    + rewrite (step_disconnect s id _ Hid) in Hstep.
      destruct (bound_room currentRoom) as [old |];
        injection Hstep as <- <-; [| constructor].
      cbn. rewrite dom_delete_L. apply leave_out_recipients.
      * rewrite in_room_closed_state. specialize (Hsub old). set_solver.
      * cbn. rewrite dom_delete_L. set_solver.
  - destruct ev;
      try (rewrite (step_ignored s id _ Hid) in Hstep by discriminate;
           injection Hstep as <- <-; constructor).
    rewrite (step_connect s id Hid) in Hstep. injection Hstep as <- <-.
    constructor.
Qed.

(** Connected recipients.  In a state the server reaches, whatever event it
    handles, every socket an emission is delivered to is connected once the
    event is handled; in particular nothing is delivered to a socket that
    has disconnected. *)
Theorem emissions_reach_connected (s : State) id ev :
  reachable (Audio:=Audio) energy0 s →
  ∃ s' out,
    step (Audio:=Audio) energy0 s id ev = Some (s', out)
    ∧ ∀ e j, e ∈ out → j ∈ recipients e → is_Some (conns s' !! j).
Proof.
  intros Hreach. destruct (reachable_inv s Hreach) as [Hreg Hbind].
  destruct (step_inv_registry s id ev Hreg) as (s' & out & Hstep & _).
  exists s', out. split; [exact Hstep |].
  pose proof (step_recipients_connected s s' id ev out Hbind Hstep) as Hall.
  intros e j He Hj. rewrite Forall_forall in Hall.
  apply elem_of_dom. exact (Hall e He j Hj).
Qed.

(** Disconnecting.  In a state the server reaches, after the disconnect of
    a connected socket nothing refers to it: it is not connected, no room of
    the registry and no socket.io room lists it, and no emission of the
    disconnect is delivered to it; the bindings and the memberships of the
    other sockets stay as they were. *)
Theorem disconnect_cleans_up (s : State) id currentRoom :
  reachable (Audio:=Audio) energy0 s →
  conns s !! id = Some currentRoom →
  ∃ s' out,
    step (Audio:=Audio) energy0 s id Disconnect = Some (s', out)
    ∧ conns s' !! id = None
    ∧ (∀ r, (id ∉ members s' r) ∧ (id ∉ in_room s' r))
    ∧ (∀ e, e ∈ out → id ∉ recipients e)
    ∧ (∀ j, j ≠ id → conns s' !! j = conns s !! j)
    ∧ (∀ j r, j ≠ id → j ∈ members s' r ↔ j ∈ members s r).
Proof.
  intros Hreach Hid. destruct (reachable_inv s Hreach) as [Hreg Hbind].
  destruct (step_inv_registry s id Disconnect Hreg) as (s' & out & Hstep & _).
  pose proof (step_inv_binding s s' id Disconnect out I Hbind Hstep) as Hbind'.
  pose proof (step_recipients_connected s s' id _ out Hbind Hstep) as Hall.
  exists s', out. split; [exact Hstep |].
  assert (conns s' = delete id (conns s)) as Hconns.
  { rewrite (step_disconnect s id _ Hid) in Hstep.
    destruct (bound_room currentRoom); injection Hstep as <- _; reflexivity. }
  assert (conns s' !! id = None) as Hgone
    by (rewrite Hconns; apply lookup_delete_eq).
  pose proof Hbind' as (_ & Hsup' & Hb' & _ & _).
  split; [exact Hgone |]. split; [| split; [| split]].
  - intros r.
    assert (id ∉ members s' r) as Hout.
    { intros Hr. apply Hb' in Hr; [| discriminate]. congruence. }
    split; [exact Hout |]. intros Hr.
    destruct (Hsup' r id Hr) as [? | [_ [x Hx]]]; [tauto | congruence].
  - intros e He Hj. rewrite Forall_forall in Hall.
    apply (Hall e He), elem_of_dom in Hj. rewrite Hgone in Hj.
    destruct Hj; discriminate.
  - intros j Hne. rewrite Hconns. apply lookup_delete_ne. congruence.
  - intros j r Hne. pose proof Hbind as (_ & _ & Hb & _ & _).
    rewrite <- (Hb' j r), <- (Hb j r) by discriminate.
    rewrite Hconns, lookup_delete_ne by congruence. reflexivity.
Qed.
End Facts.

(** **** The properties on the scenario *)

Import Scenario.



(** On the scenario: a block sent by ["A"] reaches ["B"] only. *)
Example voice_relay_lobby :
  (λ r, (inbox "A" r.2, inbox "B" r.2, inbox "C" r.2))
    <$> step (Audio:=list Z) 0%Z lobby_state "A" (Voice [1; 2]%Z)
  = Some ([], [EvVoice "A" [1; 2]%Z], []).
Proof. vm_compute. reflexivity. Qed.

Lemma disconnect_as_leave_witness :
  ∃ s1 out1 s2 out2,
    step (Audio:=list Z) 0%Z lobby_state "A" LeaveRoom = Some (s1, out1)
    ∧ step (Audio:=list Z) 0%Z lobby_state "A" Disconnect = Some (s2, out2)
    ∧ rooms s1 = rooms s2
    ∧ broadcasts out1 = broadcasts out2
    ∧ (∀ j, j ≠ "A" → inbox j out1 = inbox j out2)
    ∧ (∀ room, Some "lobby" = Some room → room ≠ EmptyString →
         members s2 room = members lobby_state room ∖ {["A"]}
         ∧ (members lobby_state room = {["A"]} → rooms s2 !! room = None)).
Proof.
  apply (disconnect_as_leave (Audio:=list Z) 0%Z lobby_state "A"
           (Some "lobby")).
  vm_compute. reflexivity.
Defined.

(** The claim of C5 fails on the code: the first socket to join a room is
    itself sent the ['user joined'] event of its own join, ahead of the
    snapshot, the room list and its identity. *)
Lemma join_echoed_to_joiner :
  (λ r, inbox "A" r.2)
    <$> run (Audio:=list Z) 0%Z init
          [("A", Connect); ("A", JoinRoom "lobby" "alice")]
  = Some [EvUserJoined "A" "alice";
          EvRoomUsers [("A", mkUser "alice" false 0%Z)];
          EvUpdateRooms ["lobby"];
          EvYourId "A"].
Proof. vm_compute. reflexivity. Qed.

Lemma join_fanout_witness :
  ∃ (s : State Z) out,
    run (Audio:=list Z) 0%Z init lobby_trace = Some (s, out)
    ∧ ∃ s' pre joined users rooms_list your_id roomUsers,
        step (Audio:=list Z) 0%Z s "C" (JoinRoom "lobby" "carol")
        = Some (s', pre ++ [joined; users; rooms_list; your_id])
        ∧ rooms s' !! "lobby" = Some roomUsers
        ∧ recipients joined = members s' "lobby"
        ∧ "C" ∈ recipients joined
        ∧ last (entries roomUsers) = Some ("C", mkUser "carol" false 0%Z).
Proof.
  destruct (join_fanout (Audio:=list Z) 0%Z lobby_trace)
    as (s & out & Hrun & Hjoin).
  { unfold wf_trace, lobby_trace. repeat constructor; discriminate. }
  exists s, out. split; [exact Hrun |].
  assert (conns s !! "C" = Some (Some "den")) as Hconn.
  { revert Hrun. vm_compute. intros [= <- _]. reflexivity. }
  destruct (Hjoin "C" (Some "den") "lobby" "carol" Hconn ltac:(discriminate))
    as (s' & pre & joined & users & rooms_list & your_id & roomUsers
        & Hstep & _ & Hrooms & _ & _ & _ & Hrec & Hin & _ & Hlast & _).
  exists s', pre, joined, users, rooms_list, your_id, roomUsers.
  repeat split; try assumption. apply Hrec.
  rewrite (step_join 0%Z s "C" (Some "den") "lobby" "carol" Hconn) in Hstep.
  injection Hstep as <- _. revert Hrun. vm_compute. intros [= <- _].
  reflexivity.
Defined.

Lemma speaking_relay_witness :
  (∃ (s : State Z) out,
     run (Audio:=list Z) 0%Z init lobby_trace = Some (s, out)
     ∧ ∀ id speaking level,
         match conns s !! id with
         | Some (Some room) =>
             ∃ roomUsers user e,
               rooms s !! room = Some roomUsers
               ∧ roomUsers !! id = Some user
               ∧ step (Audio:=list Z) 0%Z s id (Speaking speaking level)
                 = Some (mkState
                           (<[room := <[id := mkUser (username user)
                                                speaking level]>
                                        roomUsers]> (rooms s))
                           (adapter s) (conns s),
                         [e])
               ∧ target e = ToRoom room
               ∧ event e = EvUserSpeaking id speaking level
               ∧ (members s room ⊆ recipients e)
               ∧ (recipients e ⊆ members s room ∪ {[room]})
               ∧ (conns s !! room = None → recipients e = members s room)
               ∧ id ∈ members s room
         | _ =>
             step (Audio:=list Z) 0%Z s id (Speaking speaking level)
             = Some (s, [])
         end)
  ∧ step (Audio:=list Z) 0%Z stale_state "A" (Speaking true (-20)%Z)
    = Some (stale_state, []).
Proof.
  destruct (speaking_relay (Audio:=list Z) 0%Z) as [Hreach Hguard]. split.
  - apply (Hreach lobby_trace).
    unfold wf_trace, lobby_trace. repeat constructor; discriminate.
  - apply (Hguard stale_state "A" "lobby"
             (Entries [("B", mkUser "bob" false 0%Z)]));
      [reflexivity | discriminate | reflexivity | reflexivity].
Defined.

(** **** The further properties on the scenario *)

Lemma lobby_reachable : reachable (Audio:=list Z) 0%Z lobby_state.
Proof.
  exists lobby_trace. eexists. split.
  - unfold wf_trace, lobby_trace. repeat constructor; discriminate.
  - vm_compute. reflexivity.
Qed.

Lemma join_switches_rooms_witness :
  ∃ s' out,
    step (Audio:=list Z) 0%Z lobby_state "C" (JoinRoom "lobby" "carol")
    = Some (s', out)
    ∧ conns s' !! "C" = Some (Some "lobby")
    ∧ members s' "lobby" = {["C"]} ∪ members lobby_state "lobby"
    ∧ rooms s' !! "den" = None.
Proof.
  destruct (join_switches_rooms (Audio:=list Z) 0%Z lobby_state "C"
              (Some "den") "lobby" "carol" lobby_reachable)
    as (s' & out & Hstep & Hconn & _ & Hmem & _ & Hold & _);
    [vm_compute; reflexivity | discriminate |].
  exists s', out. repeat split; try assumption.
  apply (Hold "den" eq_refl); [discriminate | vm_compute; reflexivity].
Defined.

Lemma one_room_per_connection_witness :
  in_room lobby_state "lobby" = members lobby_state "lobby"
  ∧ ∀ id r1 r2,
      id ∈ members lobby_state r1 → id ∈ members lobby_state r2 → r1 = r2.
Proof.
  destruct (one_room_per_connection (Audio:=list Z) 0%Z lobby_state
              lobby_reachable) as (_ & Hone & _ & _ & _ & Hroom).
  split; [apply Hroom; vm_compute; reflexivity | exact Hone].
Defined.

Lemma leave_notifies_witness :
  ∃ s' left,
    step (Audio:=list Z) 0%Z lobby_state "C" LeaveRoom
    = Some (s',
            [left; mkEmission ToAll (EvUpdateRooms ["lobby"])
                     (dom (conns lobby_state));
             mkEmission (ToSocket "C") EvRoomLeft {["C"]}])
    ∧ recipients left = ∅
    ∧ conns s' !! "C" = Some None.
Proof.
  destruct (leave_notifies (Audio:=list Z) 0%Z lobby_state "C" "den"
              lobby_reachable)
    as (s' & left & Hstep & _ & _ & _ & _ & Hexact & Hconn & _);
    [vm_compute; reflexivity |].
  exists s', left. split; [| split; [| exact Hconn]].
  - rewrite Hstep. rewrite decide_True by (vm_compute; reflexivity).
    reflexivity.
  - rewrite Hexact by (vm_compute; reflexivity). vm_compute. reflexivity.
Defined.

Lemma empty_room_name_is_unbound_witness :
  ∃ s1 out1 s2,
    step (Audio:=list Z) 0%Z lobby_state "A" (JoinRoom EmptyString "alice")
    = Some (s1, out1)
    ∧ step (Audio:=list Z) 0%Z s1 "A" Disconnect = Some (s2, [])
    ∧ conns s2 !! "A" = None
    ∧ "A" ∈ members s2 EmptyString.
Proof.
  destruct (empty_room_name_is_unbound (Audio:=list Z) 0%Z lobby_state "A"
              (Some "lobby") "alice")
    as (s1 & out1 & s2 & Hjoin & _ & _ & _ & _ & Hclose & Hconn & Hin);
    [vm_compute; reflexivity |].
  exists s1, out1, s2. auto.
Defined.

Lemma speaking_stores_latest_witness :
  ∃ s1 out1 s2 out2,
    step (Audio:=list Z) 0%Z lobby_state "A" (Speaking true (-20)%Z)
    = Some (s1, out1)
    ∧ entry s1 "lobby" "A" = Some (mkUser "alice" true (-20)%Z)
    ∧ step (Audio:=list Z) 0%Z s1 "A" (Speaking false (-60)%Z)
      = Some (s2, out2)
    ∧ step (Audio:=list Z) 0%Z lobby_state "A" (Speaking false (-60)%Z)
      = Some (s2, out2).
Proof.
  destruct (speaking_stores_latest (Audio:=list Z) 0%Z lobby_state "A" "lobby"
              (mkUser "alice" false 0%Z) true (-20)%Z false (-60)%Z)
    as (s1 & out1 & s2 & out2 & H1 & He & _ & _ & _ & H2 & H3);
    [vm_compute; reflexivity | discriminate | vm_compute; reflexivity |].
  exists s1, out1, s2, out2. auto.
Defined.

Lemma others_entries_untouched_witness :
  ∃ s' out,
    step (Audio:=list Z) 0%Z lobby_state "A" Disconnect = Some (s', out)
    ∧ entry s' "lobby" "B" = entry lobby_state "lobby" "B".
Proof.
  destruct (step (Audio:=list Z) 0%Z lobby_state "A" Disconnect)
    as [[s' out] |] eqn:Hstep.
  - exists s', out. split; [reflexivity |].
    apply (others_entries_untouched (Audio:=list Z) 0%Z lobby_state s' "A"
             Disconnect out Hstep).
    discriminate.
  - vm_compute in Hstep. discriminate.
Defined.

Lemma emissions_reach_connected_witness :
  ∃ s' out,
    step (Audio:=list Z) 0%Z lobby_state "A" Disconnect = Some (s', out)
    ∧ ∀ e j, e ∈ out → j ∈ recipients e → is_Some (conns s' !! j).
Proof.
  exact (emissions_reach_connected (Audio:=list Z) 0%Z lobby_state "A"
           Disconnect lobby_reachable).
Defined.

Lemma disconnect_cleans_up_witness :
  ∃ s' out,
    step (Audio:=list Z) 0%Z lobby_state "A" Disconnect = Some (s', out)
    ∧ conns s' !! "A" = None
    ∧ ∀ r, ("A" ∉ members s' r) ∧ ("A" ∉ in_room s' r).
Proof.
  destruct (disconnect_cleans_up (Audio:=list Z) 0%Z lobby_state "A"
              (Some "lobby") lobby_reachable)
    as (s' & out & Hstep & Hconn & Hin & _); [vm_compute; reflexivity |].
  exists s', out. auto.
Defined.

End ServerFacts.

Module ClientMore.
Import JsNum JsNumFacts Client ClientFacts ClientPage.

(** **** The detector over time *)

Lemma detect_last c energy now :
  lastVoiceDetectTime (detectVoiceActivity energy now c).2
  = if gtb energy ENERGY_THRESHOLD then now else lastVoiceDetectTime c.
Proof.
  unfold detectVoiceActivity.
  destruct (gtb energy ENERGY_THRESHOLD); [reflexivity |].
  destruct (bool_decide _); reflexivity.
Qed.

Lemma detect_speaking c energy now :
  (detectVoiceActivity energy now c).1
  = gtb energy ENERGY_THRESHOLD
    || bool_decide (now - lastVoiceDetectTime c < SPEECH_PADDING)%Z.
Proof.
  unfold detectVoiceActivity.
  destruct (gtb energy ENERGY_THRESHOLD); [reflexivity |].
  destruct (bool_decide _); reflexivity.
Qed.

Lemma vad_run_cons c energy now rest :
  vad_run c ((energy, now) :: rest)
  = (detectVoiceActivity energy now c).1
    :: vad_run (detectVoiceActivity energy now c).2 rest.
Proof.
  cbn [vad_run]. destruct (detectVoiceActivity energy now c). reflexivity.
Qed.

(** After a detection at [t0], while time does not run backwards. *)
Lemma vad_held c readings (t0 : Z) k ek tk :
  (t0 <= lastVoiceDetectTime c)%Z →
  Forall (λ r, t0 <= r.2)%Z readings →
  readings !! k = Some (ek, tk) →
  (tk - t0 < SPEECH_PADDING)%Z →
  vad_run c readings !! k = Some true.
Proof.
  revert c k. induction readings as [| [e t] rest IH]; intros c k Hlast Hall Hk Hpad.
  - discriminate.
  - apply Forall_cons in Hall as [Ht Hall]. cbn in Ht.
    rewrite vad_run_cons. destruct k as [| k]; cbn in Hk |- *.
    + injection Hk as -> ->. rewrite detect_speaking. f_equal.
      apply orb_true_iff. right. apply bool_decide_eq_true. lia.
    + apply IH; try assumption. rewrite detect_last.
      destruct (gtb e ENERGY_THRESHOLD); assumption.
Qed.

(** Hold-over.  Over readings whose times do not decrease, once a reading
    exceeds the threshold every later reading taken less than 300 ms after
    it is classified speaking, whatever its energy and whatever the state
    of the detector was. *)
Theorem vad_holds_over c readings i k ei ti ek tk :
  StronglySorted Z.le readings.*2 →
  readings !! i = Some (ei, ti) →
  gtb ei ENERGY_THRESHOLD = true →
  i ≤ k →
  readings !! k = Some (ek, tk) →
  (tk - ti < SPEECH_PADDING)%Z →
  vad_run c readings !! k = Some true.
Proof.
  revert c i k. induction readings as [| [e t] rest IH];
    intros c i k Hsorted Hi Hloud Hik Hk Hpad.
  - discriminate.
  - cbn in Hsorted. apply StronglySorted_inv in Hsorted as [Hsorted Hall].
    rewrite vad_run_cons. destruct i as [| i]; cbn in Hi.
    + injection Hi as -> ->. destruct k as [| k]; cbn in Hk |- *.
      * rewrite detect_speaking, Hloud. reflexivity.
      * apply (vad_held _ rest ti k ek tk); try assumption.
        -- rewrite detect_last, Hloud. lia.
        -- rewrite Forall_fmap in Hall. exact Hall.
    + destruct k as [| k]; [lia |]. cbn in Hk |- *.
      apply (IH _ i k); try assumption. lia.
Qed.

Lemma vad_holds_over_witness :
  vad_run init
    [(Fin (-20), 1000); (Fin (-60), 1100); (NaN, 1299)]%Z !! 2
  = Some true.
Proof.
  apply (vad_holds_over init _ 0 2 (Fin (-20)) 1000%Z NaN 1299%Z).
  - cbn. repeat constructor; lia.
  - reflexivity.
  - unfold ENERGY_THRESHOLD. apply gtb_Fin. lra.
  - lia.
  - reflexivity.
  - unfold SPEECH_PADDING. lia.
Defined.

(** While no reading exceeds the threshold the detection time stays. *)
Lemma vad_quiet c readings k ek tk :
  Forall (λ r, gtb r.1 ENERGY_THRESHOLD = false) readings →
  readings !! k = Some (ek, tk) →
  vad_run c readings !! k
  = Some (bool_decide (tk - lastVoiceDetectTime c < SPEECH_PADDING)%Z).
Proof.
  revert c k. induction readings as [| [e t] rest IH]; intros c k Hall Hk.
  - discriminate.
  - apply Forall_cons in Hall as [He Hall]. cbn in He.
    rewrite vad_run_cons. destruct k as [| k]; cbn in Hk |- *.
    + injection Hk as -> ->. rewrite detect_speaking, He. reflexivity.
    + rewrite (IH _ k Hall Hk), detect_last, He. reflexivity.
Qed.

(** Release.  When a reading exceeds the threshold and none after it does,
    a later reading is classified speaking exactly when it is taken less
    than 300 ms after that one: the detector lets go as soon as the padding
    has passed, and not before. *)
Theorem vad_releases c readings i k ei ti ek tk :
  readings !! i = Some (ei, ti) →
  gtb ei ENERGY_THRESHOLD = true →
  Forall (λ r, gtb r.1 ENERGY_THRESHOLD = false) (drop (S i) readings) →
  i < k →
  readings !! k = Some (ek, tk) →
  vad_run c readings !! k
  = Some (bool_decide (tk - ti < SPEECH_PADDING)%Z).
Proof.
  revert c i k. induction readings as [| [e t] rest IH];
    intros c i k Hi Hloud Hquiet Hik Hk.
  - discriminate.
  - rewrite vad_run_cons. destruct k as [| k]; [lia |]. cbn in Hk |- *.
    destruct i as [| i]; cbn in Hi, Hquiet.
    + injection Hi as -> ->. rewrite drop_0 in Hquiet.
      rewrite (vad_quiet _ rest k ek tk Hquiet Hk), detect_last, Hloud.
      reflexivity.
    + apply (IH _ i k); try assumption. lia.
Qed.

Lemma vad_releases_witness :
  vad_run init
    [(Fin (-20), 1000); (Fin (-60), 1100); (Fin (-60), 1300)]%Z !! 2
  = Some (bool_decide (1300 - 1000 < SPEECH_PADDING)%Z).
Proof.
  apply (vad_releases init _ 0 2 (Fin (-20)) 1000%Z (Fin (-60)) 1300%Z).
  - reflexivity.
  - unfold ENERGY_THRESHOLD. apply gtb_Fin. lra.
  - cbn.
    repeat (constructor;
            [cbn [fst]; unfold ENERGY_THRESHOLD; apply not_true_is_false;
             rewrite gtb_Fin; lra |]).
    constructor.
  - lia.
  - reflexivity.
Defined.

(** **** Loud and quiet blocks *)

Lemma ln10_pos : (0 < ln 10)%R.
Proof. rewrite <- ln_1. apply ln_increasing; lra. Qed.

Lemma ln_hundredth : (ln (/ 100) = - (2 * ln 10))%R.
Proof.
  rewrite ln_Rinv by lra. replace 100%R with (10 * 10)%R by lra.
  rewrite ln_mult by lra. lra.
Qed.

Lemma ln_thousandth : (ln (/ 1000) = - (3 * ln 10))%R.
Proof.
  rewrite ln_Rinv by lra. replace 1000%R with (10 * (10 * 10))%R by lra.
  rewrite !ln_mult by lra. lra.
Qed.

Lemma ln_monotone x y : (0 < x)%R → (x <= y)%R → (ln x <= ln y)%R.
Proof.
  intros Hx [Hlt | ->]; [| lra]. left. apply ln_increasing; assumption.
Qed.

Lemma calculateEnergy_uniform n a :
  0 < n → (0 < a)%R →
  calculateEnergy (replicate n (Fin a)) = Fin (20 * (ln a / ln 10)).
Proof.
  intros Hn Ha. rewrite calculateEnergy_rms, rms_uniform by (lia || lra).
  unfold log10. rewrite Rsign_pos by exact Ha. reflexivity.
Qed.

Lemma calculateEnergy_zero n :
  0 < n → calculateEnergy (replicate n (Fin 0)) = NegInf.
Proof.
  intros Hn. rewrite calculateEnergy_rms, rms_uniform by (lia || lra).
  unfold log10. rewrite Rsign_zero. apply mul_20_NegInf.
Qed.

Lemma loud_amplitude n a :
  0 < n → (/ 100 <= a)%R →
  gtb (calculateEnergy (replicate n (Fin a))) ENERGY_THRESHOLD = true.
Proof.
  intros Hn Ha. rewrite calculateEnergy_uniform by (lia || lra).
  unfold ENERGY_THRESHOLD. apply gtb_Fin.
  pose proof ln10_pos as HL.
  pose proof (ln_monotone (/ 100) a ltac:(lra) Ha) as Hln.
  rewrite ln_hundredth in Hln.
  replace (ln a / ln 10)%R with (-2 + (ln a + 2 * ln 10) / ln 10)%R
    by (field; lra).
  assert (0 <= (ln a + 2 * ln 10) / ln 10)%R.
  { apply Rmult_le_pos; [lra |]. left. apply Rinv_0_lt_compat. exact HL. }
  lra.
Qed.

Lemma quiet_amplitude n a :
  0 < n → (0 <= a <= / 1000)%R →
  gtb (calculateEnergy (replicate n (Fin a))) ENERGY_THRESHOLD = false.
Proof.
  intros Hn [[Hpos | <-] Ha]; [| rewrite calculateEnergy_zero by lia; done].
  rewrite calculateEnergy_uniform by (lia || lra).
  unfold ENERGY_THRESHOLD. apply not_true_is_false. rewrite gtb_Fin.
  pose proof ln10_pos as HL.
  pose proof (ln_monotone a (/ 1000) Hpos Ha) as Hln.
  rewrite ln_thousandth in Hln.
  replace (ln a / ln 10)%R with (-3 - (- ln a - 3 * ln 10) / ln 10)%R
    by (field; lra).
  assert (0 <= (- ln a - 3 * ln 10) / ln 10)%R.
  { apply Rmult_le_pos; [lra |]. left. apply Rinv_0_lt_compat. exact HL. }
  lra.
Qed.

Lemma processAudio_last c inputData now :
  vadEnabled c = true → truthy (currentUserId c) = true →
  lastVoiceDetectTime (processAudio inputData now c).1
  = if gtb (calculateEnergy inputData) ENERGY_THRESHOLD then now
    else lastVoiceDetectTime c.
Proof.
  intros Hvad Hid. unfold processAudio. rewrite Hvad, Hid. cbn [negb orb].
  unfold detectVoiceActivity.
  destruct (gtb (calculateEnergy inputData) ENERGY_THRESHOLD);
    [| destruct (bool_decide _)];
    cbn [isCurrentlySpeaking]; destruct (Bool.eqb _ _); reflexivity.
Qed.

(** The threshold in amplitudes.  With identity assigned and capture
    enabled, a block of uniform amplitude at least 0.01 (-40 dB) is always
    transmitted and renews the detection time; a block of uniform amplitude
    at most 0.001 (-60 dB), digital silence included, never renews it and is
    transmitted exactly during the 300 ms hold-over. *)
Theorem amplitude_decides_transmission c n a now :
  vadEnabled c = true → truthy (currentUserId c) = true → 0 < n →
  let inputData := replicate n (Fin a) in
  let r := processAudio inputData now c in
  ((/ 100 <= a)%R →
   In (Emit (MsgVoice inputData)) r.2 ∧ lastVoiceDetectTime r.1 = now)
  ∧ ((0 <= a <= / 1000)%R →
     lastVoiceDetectTime r.1 = lastVoiceDetectTime c
     ∧ (In (Emit (MsgVoice inputData)) r.2
        ↔ (now - lastVoiceDetectTime c < SPEECH_PADDING)%Z)).
Proof.
  intros Hvad Hid Hn. cbv zeta.
  destruct (processAudio_enabled c (replicate n (Fin a)) now Hvad Hid)
    as (Hvoice & _).
  cbv zeta in Hvoice. rewrite detect_speaking in Hvoice.
  pose proof (processAudio_last c (replicate n (Fin a)) now Hvad Hid) as Hlast.
  split.
  - intros Ha. rewrite (loud_amplitude n a Hn Ha) in Hvoice, Hlast.
    split; [apply Hvoice; reflexivity | exact Hlast].
  - intros Ha. rewrite (quiet_amplitude n a Hn Ha) in Hvoice, Hlast.
    split; [exact Hlast |]. rewrite Hvoice. cbn [orb].
    apply bool_decide_eq_true.
Qed.

Lemma amplitude_decides_transmission_witness :
  let c := mkState true (Some Running) true true 0 false (Some "A") [] false []
  in
  In (Emit (MsgVoice (replicate 4 (Fin (/ 2)))))
     (processAudio (replicate 4 (Fin (/ 2))) 5000 c).2.
Proof.
  intros c.
  apply (proj1 (amplitude_decides_transmission c 4 (/ 2)%R 5000%Z
                  eq_refl eq_refl ltac:(lia))).
  lra.
Defined.

(** **** Speaking notifications *)

Lemma notified_app out1 out2 :
  notified (out1 ++ out2) = notified out1 ++ notified out2.
Proof.
  induction out1 as [| e out1 IH]; [reflexivity |].
  destruct e as [[| | |] | | | | |]; cbn; rewrite ?IH; reflexivity.
Qed.

Lemma processAudio_notified c inputData now :
  vadEnabled c = true → truthy (currentUserId c) = true →
  let speaking :=
    (detectVoiceActivity (calculateEnergy inputData) now c).1 in
  notified (processAudio inputData now c).2
  = if Bool.eqb speaking (isCurrentlySpeaking c) then [] else [speaking].
Proof.
  intros Hvad Hid. unfold processAudio. rewrite Hvad, Hid. cbn [negb orb].
  unfold detectVoiceActivity, updateActivityMeter.
  destruct (currentUserId c) as [uid |] eqn:Huid; [| discriminate].
  destruct (gtb (calculateEnergy inputData) ENERGY_THRESHOLD);
    [| destruct (bool_decide _)];
    cbn [fst snd currentUserId isCurrentlySpeaking];
    rewrite ?Huid, ?Hid;
    destruct (isCurrentlySpeaking c); reflexivity.
Qed.

(** No double notification.  With identity assigned and capture enabled,
    over any sequence of blocks the flags of the ['speaking'] messages sent
    alternate, the first being the opposite of the speaking flag the
    sequence started with: the server is never told twice in a row that the
    user speaks, or that the user is silent. *)
Theorem notifications_alternate c blocks :
  vadEnabled c = true → truthy (currentUserId c) = true →
  let flags := notified (concat (capture_run c blocks).*2) in
  flags = alternating (negb (isCurrentlySpeaking c)) (length flags).
Proof.
  revert c. induction blocks as [| [inputData now] rest IH]; intros c Hvad Hid.
  - reflexivity.
  - destruct (processAudio_enabled c inputData now Hvad Hid)
      as (_ & _ & _ & Hcur & Hvad' & Hid').
    pose proof (processAudio_notified c inputData now Hvad Hid) as Hn.
    cbv zeta in *. rewrite <- Hid' in Hid. specialize (IH _ Hvad' Hid).
    cbn [capture_run fmap list_fmap snd concat].
    rewrite notified_app, Hn. rewrite Hcur in IH.
    set (speaking := (detectVoiceActivity _ now c).1) in *.
    destruct speaking, (isCurrentlySpeaking c); cbn [Bool.eqb app length];
      try exact IH; cbn [alternating negb]; f_equal; exact IH.
Qed.

Lemma notifications_alternate_witness :
  let c := mkState true (Some Running) true true 0 false (Some "A") [] false []
  in
  let flags :=
    notified (concat (capture_run c [([Fin 1], 1000%Z); ([Fin 0], 1400%Z)]).*2)
  in
  flags = alternating true (length flags).
Proof.
  intros c.
  exact (notifications_alternate c [([Fin 1], 1000%Z); ([Fin 0], 1400%Z)]
           eq_refl eq_refl).
Defined.

(** **** Draining the playback queue *)

Lemma playback_run_app c evs1 evs2 :
  playback_run c (evs1 ++ evs2)
  = let r1 := playback_run c evs1 in
    let r2 := playback_run r1.1 evs2 in
    (r2.1, r1.2 ++ r2.2).
Proof.
  revert c. induction evs1 as [| ev evs1 IH]; intros c; cbn [app playback_run].
  - cbv zeta. cbn. destruct (playback_run c evs2). reflexivity.
  - destruct (playback_step c ev) as [c1 out1]. rewrite IH. cbv zeta.
    destruct (playback_run c1 evs1) as [c2 out2]. cbn [fst snd].
    destruct (playback_run c2 evs2) as [c3 out3]. cbn [fst snd].
    rewrite app_assoc. reflexivity.
Qed.

(** Enough ['ended'] events empty the queue. *)
Lemma playback_drain n c :
  playback_ok c →
  length (audioQueue c) + (if isPlaying c then 1 else 0) ≤ n →
  let r := playback_run c (replicate n (SourceEnded 0)) in
  started r.2 = audioQueue c ∧ audioQueue r.1 = [] ∧ isPlaying r.1 = false
  ∧ sources r.1 = [].
Proof.
  revert c. induction n as [| n IH]; intros c [[Hidle Hbusy] Hqueue] Hn;
    cbv zeta.
  - destruct (isPlaying c) eqn:Hp; [lia |].
    destruct (Hidle eq_refl) as [Hq Hs]. cbn. rewrite Hq. auto.
  - cbn [replicate playback_run playback_step]. unfold on_ended.
    destruct (isPlaying c) eqn:Hp.
    + specialize (Hbusy eq_refl).
      destruct (sources c) as [| a0 [| a1 more]] eqn:Hs; try discriminate.
      cbn [lookup list_lookup delete list_delete].
      destruct (audioQueue c) as [| next rest] eqn:Hq.
      * rewrite playNextAudio_empty by reflexivity.
        match goal with |- context [playback_run ?c1 _] =>
          destruct (IH c1) as (H1 & H2 & H3 & H4) end.
        { split; [split; [auto | discriminate] | constructor]. }
        { cbn. lia. }
        cbv zeta in *. destruct (playback_run _ _) as [c2 out2].
        cbn in *. auto.
      * apply Forall_cons in Hqueue as [Hnext Hrest].
        erewrite playNextAudio_head; [| reflexivity | exact Hnext].
        match goal with |- context [playback_run ?c1 _] =>
          destruct (IH c1) as (H1 & H2 & H3 & H4) end.
        { split; [split; [discriminate | reflexivity] | exact Hrest]. }
        { cbn in *. lia. }
        cbv zeta in *. destruct (playback_run _ _) as [c2 out2].
        cbn in *. rewrite H1. auto.
    + destruct (Hidle eq_refl) as [Hq Hs]. rewrite Hs.
      cbn [lookup list_lookup].
      destruct (IH c) as (H1 & H2 & H3 & H4).
      { split; [split; [auto | rewrite Hp; discriminate] | exact Hqueue]. }
      { rewrite Hp, Hq. cbn. lia. }
      cbv zeta in *. destruct (playback_run c _) as [c2 out2].
      cbn in *. auto.
Qed.

Lemma playNextAudio_sources c :
  length (sources (playNextAudio c).1)
  ≤ length (sources c) + length (started (playNextAudio c).2).
Proof.
  unfold playNextAudio. destruct (audioQueue c) as [| a rest]; [cbn; lia |].
  destruct (buffer a); cbn; rewrite ?length_app; cbn; lia.
Qed.

Lemma playback_sources_started evs c :
  length (sources (playback_run c evs).1)
  ≤ length (sources c) + length (started (playback_run c evs).2).
Proof.
  revert c. induction evs as [| ev evs IH]; intros c; [cbn; lia |].
  cbn [playback_run]. specialize (IH (playback_step c ev).1).
  assert (length (sources (playback_step c ev).1)
          ≤ length (sources c) + length (started (playback_step c ev).2))
    as Hstep.
  { destruct ev as [id data | i | st]; cbn [playback_step].
    - unfold on_voice. destruct (audioContext c) as [[| |] |];
        try (cbn; lia).
      cbn [isPlaying]. destruct (isPlaying c); cbn [negb]; [cbn; lia |].
      match goal with |- context [playNextAudio ?c1] =>
        pose proof (playNextAudio_sources c1) as Hnext end.
      cbn [sources] in Hnext. exact Hnext.
    - unfold on_ended. destruct (sources c !! i) eqn:Hi; [| cbn; lia].
      pose proof (lookup_lt_Some _ _ _ Hi) as Hlt.
      match goal with |- context [playNextAudio ?c1] =>
        pose proof (playNextAudio_sources c1) as Hnext end.
      cbn [sources] in Hnext. rewrite length_delete in Hnext by eauto. lia.
    - unfold on_statechange. destruct (audioContext c); cbn; lia. }
  destruct (playback_step c ev) as [c1 out1]. cbn [fst snd] in *.
  destruct (playback_run c1 evs) as [c2 out2]. cbn [fst snd] in *.
  rewrite started_app, length_app. lia.
Qed.

Lemma enqueued_arrivals c (blocks : list (string * list num)) :
  audioContext c = Some Running →
  enqueued c ((λ b, VoiceArrives b.1 b.2) <$> blocks)
  = (λ b, mkAudioData b.1 b.2) <$> blocks.
Proof.
  revert c. induction blocks as [| [id data] rest IH]; intros c Hctx;
    [reflexivity |].
  cbn [fmap list_fmap enqueued fst snd]. rewrite Hctx. f_equal. apply IH.
  cbn [playback_step]. unfold on_voice. rewrite Hctx. cbn [isPlaying].
  destruct (isPlaying c); cbn [negb]; [reflexivity |].
  unfold playNextAudio. cbn [audioQueue].
  destruct (audioQueue c ++ _) as [| a more]; [reflexivity |].
  destruct (buffer a); reflexivity.
Qed.

(** Draining.  On a client whose context is running and whose playback is
    idle, when blocks of at least one sample arrive and then as many
    sources end, every block has been started, in arrival order, and
    playback is idle again with an empty queue. *)
Theorem playback_drains c (blocks : list (string * list num)) :
  audioContext c = Some Running →
  isPlaying c = false → audioQueue c = [] → sources c = [] →
  Forall (λ b, b.2 ≠ []) blocks →
  let evs := ((λ b, VoiceArrives b.1 b.2) <$> blocks)
             ++ replicate (length blocks) (SourceEnded 0) in
  let r := playback_run c evs in
  started r.2 = (λ b, mkAudioData b.1 b.2) <$> blocks
  ∧ audioQueue r.1 = [] ∧ isPlaying r.1 = false ∧ sources r.1 = [].
Proof.
  intros Hctx Hp Hq Hs Hblocks. cbv zeta. rewrite playback_run_app. cbv zeta.
  set (arrivals := (λ b, VoiceArrives b.1 b.2) <$> blocks).
  assert (playback_ok c) as Hinv.
  { split; [split; [auto | rewrite Hp; discriminate] |].
    rewrite Hq. constructor. }
  assert (blocks_have_samples arrivals) as Harrivals.
  { unfold arrivals, blocks_have_samples. apply Forall_fmap.
    eapply Forall_impl; [exact Hblocks |]. intros b Hb. exact Hb. }
  destruct (playback_run_inv arrivals c Hinv Harrivals) as [Hinv1 Horder].
  pose proof (playback_sources_started arrivals c) as Hsrc.
  rewrite Hq, Hs in *. cbn [app length] in *.
  unfold arrivals in Horder at 3. rewrite enqueued_arrivals in Horder by exact Hctx.
  assert (length (started (playback_run c arrivals).2)
          + length (audioQueue (playback_run c arrivals).1) = length blocks)
    as Hlen.
  { rewrite <- length_app, Horder, length_fmap. reflexivity. }
  destruct (playback_drain (length blocks) (playback_run c arrivals).1 Hinv1)
    as (H1 & H2 & H3 & H4).
  { destruct Hinv1 as [[_ Hbusy] _].
    destruct (isPlaying (playback_run c arrivals).1); [| lia].
    rewrite (Hbusy eq_refl) in Hsrc. lia. }
  cbv zeta in *. cbn [fst snd]. rewrite started_app, H1, Horder. auto.
Qed.

Lemma playback_drains_witness :
  let c := mkState false (Some Running) false false 0 false None [] false [] in
  let blocks := [("B", [Fin 1]); ("C", [Fin 0])] in
  started
    (playback_run c
       (((λ b, VoiceArrives b.1 b.2) <$> blocks)
        ++ replicate (length blocks) (SourceEnded 0))).2
  = (λ b, mkAudioData b.1 b.2) <$> blocks.
Proof.
  intros c blocks.
  apply (playback_drains c blocks eq_refl eq_refl eq_refl eq_refl).
  repeat constructor; discriminate.
Defined.

(** Without an audio context.  A client that holds no audio context, as
    one that never started voice chat with success, plays nothing: whatever
    blocks arrive, none is queued or started, and nothing changes. *)
Theorem no_context_no_playback c evs :
  audioContext c = None → sources c = [] →
  playback_run c evs = (c, []).
Proof.
  intros Hctx Hs. induction evs as [| ev evs IH]; [reflexivity |].
  cbn [playback_run].
  assert (playback_step c ev = (c, [])) as ->.
  { destruct ev as [id data | i | st]; cbn [playback_step].
    - unfold on_voice. rewrite Hctx. reflexivity.
    - unfold on_ended. rewrite Hs. reflexivity.
    - unfold on_statechange. rewrite Hctx. reflexivity. }
  rewrite IH. reflexivity.
Qed.

Lemma no_context_no_playback_witness :
  playback_run init [VoiceArrives "B" [Fin 1]; SourceEnded 0] = (init, []).
Proof. apply no_context_no_playback; reflexivity. Defined.

(** **** Starting and stopping capture *)

(** Starting.  On a client whose capture is off, [startVoiceChat] turns
    capture on exactly when the identity is assigned, the microphone is
    granted and the new context is not suspended or resumes; then the
    context is the new one, running if it had to be resumed.  When the
    microphone is granted but the resume is rejected, the stream stays
    acquired and the suspended context stays in place, with capture off.
    In every case the detector's variables, the identity and the playback
    queue are left as they were. *)
Theorem start_enables_capture env c :
  vadEnabled c = false →
  let c' := (startVoiceChat env c).1 in
  (vadEnabled c' = true
   ↔ truthy (currentUserId c) = true ∧ getUserMedia env = Resolved
     ∧ (newContextState env = Suspended → resume env = Resolved))
  ∧ (vadEnabled c' = true →
     stream c' = true
     ∧ audioContext c'
       = Some match newContextState env with
              | Suspended => Running
              | st => st
              end)
  ∧ (∀ message,
       truthy (currentUserId c) = true → getUserMedia env = Resolved →
       newContextState env = Suspended → resume env = Rejected message →
       stream c' = true ∧ audioContext c' = Some Suspended
       ∧ vadEnabled c' = false
       ∧ In (Log (LogText ("Error starting voice chat: " ++ message)))
            (startVoiceChat env c).2)
  ∧ lastVoiceDetectTime c' = lastVoiceDetectTime c
  ∧ isCurrentlySpeaking c' = isCurrentlySpeaking c
  ∧ currentUserId c' = currentUserId c
  ∧ audioQueue c' = audioQueue c ∧ isPlaying c' = isPlaying c
  ∧ sources c' = sources c.
Proof.
  intros Hvad. cbv zeta. unfold startVoiceChat.
  destruct (truthy (currentUserId c)); cbn [negb fst snd];
    [| rewrite Hvad; repeat split; try discriminate; tauto].
  destruct (getUserMedia env) as [| m]; cbn [fst snd];
    [| rewrite Hvad; repeat split; try discriminate; try tauto;
       intros (_ & H & _); discriminate].
  destruct (newContextState env); cbn [fst snd vadEnabled stream audioContext
    lastVoiceDetectTime isCurrentlySpeaking currentUserId audioQueue
    isPlaying sources attach_processing];
    try (repeat split; auto; discriminate).
  destruct (resume env) as [| m]; cbn [fst snd vadEnabled stream audioContext
    lastVoiceDetectTime isCurrentlySpeaking currentUserId audioQueue
    isPlaying sources attach_processing].
  - repeat split; auto; discriminate.
  - rewrite Hvad. repeat split; try discriminate; auto.
    + intros (_ & _ & H). discriminate (H eq_refl).
    + match goal with H : Rejected _ = Rejected _ |- _ =>
        injection H as -> end.
      rewrite !in_app_iff. right. cbn. auto.
Qed.

Lemma start_enables_capture_witness :
  let c := (on_your_id "A" init).1 in
  let env := mkBrowser Resolved Suspended Resolved in
  vadEnabled (startVoiceChat env c).1 = true
  ∧ audioContext (startVoiceChat env c).1 = Some Running.
Proof.
  intros c env.
  destruct (start_enables_capture env c eq_refl) as (Hiff & Hctx & _).
  split.
  - apply Hiff. repeat split.
  - apply Hctx, Hiff. repeat split.
Defined.

(** Stopping.  After [stopVoiceChat], a late audio callback does nothing
    and sends nothing, whatever block it carries.  The function releases
    what is held (tracks when a stream is, the context when there is one,
    the processor node when there is one) and always ends by sending
    ['leave room'], even when capture never started; it sends no ['speaking']
    message and leaves the detector's flag and the playback queue as they
    were. *)
Theorem stop_disables_capture c :
  let c' := (stopVoiceChat c).1 in
  let actions := (stopVoiceChat c).2 in
  (∀ inputData now, processAudio inputData now c' = (c', []))
  ∧ last actions = Some (Do (Emit MsgLeaveRoom))
  ∧ (∀ m, In (Do (Emit m)) actions → m = MsgLeaveRoom)
  ∧ (In StopTracks actions ↔ stream c = true)
  ∧ (In CloseContext actions ↔ is_Some (audioContext c))
  ∧ (In DisconnectProcessor actions ↔ scriptProcessor c = true)
  ∧ isCurrentlySpeaking c' = isCurrentlySpeaking c
  ∧ lastVoiceDetectTime c' = lastVoiceDetectTime c
  ∧ audioContext c' = audioContext c
  ∧ audioQueue c' = audioQueue c ∧ isPlaying c' = isPlaying c
  ∧ sources c' = sources c.
Proof.
  cbv zeta. unfold stopVoiceChat. cbn [fst snd].
  split; [intros; reflexivity |].
  destruct (stream c), (audioContext c) as [st |], (scriptProcessor c);
    cbn [app In last]; repeat split; try tauto; try discriminate;
    try (intros; exfalso; intuition (discriminate || congruence));
    try (intros m Hm; intuition congruence);
    try (intros [x Hx]; discriminate);
    eauto.
Qed.

(** **** The activity meter *)

Lemma gtb_Fin_false x y : gtb (Fin x) (Fin y) = false ↔ (x <= y)%R.
Proof.
  cbn. destruct (Rlt_dec y x); split; intros; try discriminate; try lra; auto.
Qed.

Lemma normalizedEnergy_Fin x :
  normalizedEnergy (Fin x)
  = Fin (Rmax 0 (Rmin 100 ((x + 60) * (5 / 2)))).
Proof.
  unfold normalizedEnergy, max, min. cbn [add mul isNaN orb gtb].
  unfold Rmax, Rmin.
  destruct (Rlt_dec ((x + 60) * (5 / 2)) 100),
           (Rle_dec 100 ((x + 60) * (5 / 2))); try lra;
    cbn [isNaN orb gtb].
  - destruct (Rlt_dec ((x + 60) * (5 / 2)) 0),
             (Rle_dec 0 ((x + 60) * (5 / 2))); try lra; reflexivity.
  - destruct (Rlt_dec 100 0), (Rle_dec 0 100); try lra; reflexivity.
Qed.

Lemma normalizedEnergy_low x :
  (x <= -60)%R → normalizedEnergy (Fin x) = Fin 0.
Proof.
  intros Hx. rewrite normalizedEnergy_Fin. f_equal.
  unfold Rmax, Rmin. destruct (Rle_dec 100 _), (Rle_dec 0 _); lra.
Qed.

Lemma normalizedEnergy_mid x :
  (-60 <= x <= -20)%R → normalizedEnergy (Fin x) = Fin ((x + 60) * (5 / 2)).
Proof.
  intros Hx. rewrite normalizedEnergy_Fin. f_equal.
  unfold Rmax, Rmin. destruct (Rle_dec 100 _), (Rle_dec 0 _); lra.
Qed.

Lemma normalizedEnergy_high x :
  (-20 <= x)%R → normalizedEnergy (Fin x) = Fin 100.
Proof.
  intros Hx. rewrite normalizedEnergy_Fin. f_equal.
  unfold Rmax, Rmin. destruct (Rle_dec 100 _), (Rle_dec 0 _); lra.
Qed.

Lemma normalizedEnergy_NegInf : normalizedEnergy NegInf = Fin 0.
Proof.
  unfold normalizedEnergy, max, min. cbn [add mul]. unfold scale_inf.
  rewrite Rsign_pos by lra. reflexivity.
Qed.

Lemma normalizedEnergy_PosInf : normalizedEnergy PosInf = Fin 100.
Proof.
  unfold normalizedEnergy, max, min. cbn [add mul]. unfold scale_inf.
  rewrite Rsign_pos by lra. cbn [isNaN orb gtb].
  destruct (Rlt_dec 100 0); [lra | reflexivity].
Qed.

Lemma colour_green w : (w < 30)%R → getColorForEnergy (Fin w) = "#00ff00".
Proof.
  intros Hw. unfold getColorForEnergy, ltb. cbn [gtb].
  destruct (Rlt_dec w 30); [reflexivity | lra].
Qed.

Lemma colour_yellow w :
  (30 <= w < 70)%R → getColorForEnergy (Fin w) = "#ffff00".
Proof.
  intros Hw. unfold getColorForEnergy, ltb. cbn [gtb].
  destruct (Rlt_dec w 30); [lra |]. destruct (Rlt_dec w 70); [reflexivity | lra].
Qed.

Lemma colour_red w : (70 <= w)%R → getColorForEnergy (Fin w) = "#ff0000".
Proof.
  intros Hw. unfold getColorForEnergy, ltb. cbn [gtb].
  destruct (Rlt_dec w 30); [lra |]. destruct (Rlt_dec w 70); [lra | reflexivity].
Qed.

(** The width of the meter.  For every energy that is a number the width
    is a percentage between 0 and 100: 0 up to -60 dB (and for the
    [-Infinity] of a silent block), 100 from -20 dB on, and 2.5 per dB in
    between.  Only a [NaN] energy gives a width that is no number. *)
Theorem meter_width_clamped :
  (∀ energy, isNaN energy = false →
     ∃ w, normalizedEnergy energy = Fin w ∧ (0 <= w <= 100)%R)
  ∧ (∀ x, (x <= -60)%R → normalizedEnergy (Fin x) = Fin 0)
  ∧ (∀ x, (-60 <= x <= -20)%R →
       normalizedEnergy (Fin x) = Fin ((x + 60) * (5 / 2)))
  ∧ (∀ x, (-20 <= x)%R → normalizedEnergy (Fin x) = Fin 100)
  ∧ normalizedEnergy NegInf = Fin 0
  ∧ normalizedEnergy NaN = NaN.
Proof.
  split; [| split; [| split; [| split; [| split]]]].
  - intros [x | | |] Hnan; try discriminate.
    + rewrite normalizedEnergy_Fin. eexists. split; [reflexivity |].
      unfold Rmax, Rmin.
      destruct (Rle_dec 100 _), (Rle_dec 0 _); lra.
    + exists 100%R. split; [exact normalizedEnergy_PosInf | lra].
    + exists 0%R. split; [exact normalizedEnergy_NegInf | lra].
  - exact normalizedEnergy_low.
  - exact normalizedEnergy_mid.
  - exact normalizedEnergy_high.
  - exact normalizedEnergy_NegInf.
  - reflexivity.
Qed.

Lemma meter_width_clamped_witness :
  normalizedEnergy (Fin (-45)) = Fin ((-45 + 60) * (5 / 2)).
Proof.
  apply (proj1 (proj2 (proj2 meter_width_clamped))). lra.
Defined.

(** The colour of the meter.  The meter is green below -48 dB (and for a
    silent block), yellow from -48 dB to below -32 dB, and red from -32 dB
    on; it is also red when the energy is [NaN]. *)
Theorem meter_colour_bands :
  (∀ x, (x < -48)%R → (meter_style (Fin x)).2 = "#00ff00")
  ∧ (∀ x, (-48 <= x < -32)%R → (meter_style (Fin x)).2 = "#ffff00")
  ∧ (∀ x, (-32 <= x)%R → (meter_style (Fin x)).2 = "#ff0000")
  ∧ (meter_style NegInf).2 = "#00ff00"
  ∧ (meter_style NaN).2 = "#ff0000".
Proof.
  unfold meter_style. cbn [snd].
  split; [| split; [| split; [| split]]].
  - intros x Hx. destruct (Rle_dec x (-60)).
    + rewrite normalizedEnergy_low by assumption. apply colour_green. lra.
    + rewrite normalizedEnergy_mid by lra. apply colour_green. lra.
  - intros x Hx. rewrite normalizedEnergy_mid by lra. apply colour_yellow. lra.
  - intros x Hx. destruct (Rle_dec x (-20)).
    + rewrite normalizedEnergy_mid by lra. apply colour_red. lra.
    + rewrite normalizedEnergy_high by lra. apply colour_red. lra.
  - rewrite normalizedEnergy_NegInf. apply colour_green. lra.
  - reflexivity.
Qed.

Lemma meter_colour_bands_witness :
  (meter_style (Fin (-45))).2 = "#ffff00".
Proof.
  apply (proj1 (proj2 meter_colour_bands)). lra.
Defined.

(** **** Joining from the page *)

(** Joining.  The join handler of the page sends ['join room'] only with a
    room name and a user name that are non-empty once trimmed: an event the
    server handles as one with a well-formed room name.  When either is
    empty it does nothing at all.  The room input is cleared by a join, so
    pressing the button again, without typing a room, sends nothing. *)
Theorem page_join_sends_names (trim : string → string) p :
  trim EmptyString = EmptyString →
  (∀ m, m ∈ sent (joinRoom trim p).2 →
     m = MsgJoinRoom (trim (roomInput p)) (trim (usernameInput p))
     ∧ trim (roomInput p) ≠ EmptyString
     ∧ trim (usernameInput p) ≠ EmptyString
     ∧ Server.wf_event (to_server m))
  ∧ (trim (roomInput p) = EmptyString ∨ trim (usernameInput p) = EmptyString →
     joinRoom trim p = (p, []))
  ∧ joinRoom trim (joinRoom trim p).1 = ((joinRoom trim p).1, []).
Proof.
  intros Htrim.
  assert (∀ q, trim (roomInput q) = EmptyString ∨
               trim (usernameInput q) = EmptyString →
               joinRoom trim q = (q, [])) as Hnothing.
  { intros q Hq. unfold joinRoom, truthy_string.
    destruct Hq as [-> | ->]; [reflexivity |].
    rewrite (bool_decide_eq_false_2 (EmptyString ≠ EmptyString)) by tauto.
    rewrite andb_false_r. reflexivity. }
  destruct (decide (trim (roomInput p) = EmptyString)) as [Hr | Hr];
    [| destruct (decide (trim (usernameInput p) = EmptyString)) as [Hu | Hu]].
  - rewrite (Hnothing p) by tauto. cbn [fst snd sent].
    split; [intros m Hm; inversion Hm |]. split; [reflexivity |].
    apply Hnothing. tauto.
  - rewrite (Hnothing p) by tauto. cbn [fst snd sent].
    split; [intros m Hm; inversion Hm |]. split; [reflexivity |].
    apply Hnothing. tauto.
  - split; [| split; [apply Hnothing |]].
    + unfold joinRoom, truthy_string.
      rewrite (bool_decide_eq_true_2 _ Hr), (bool_decide_eq_true_2 _ Hu).
      cbn [andb fst snd sent].
      intros m Hm. apply list_elem_of_singleton in Hm as ->. cbn. auto.
    + apply Hnothing. left. unfold joinRoom, truthy_string.
      rewrite (bool_decide_eq_true_2 _ Hr), (bool_decide_eq_true_2 _ Hu).
      cbn [andb fst roomInput]. exact Htrim.
Qed.

Lemma page_join_sends_names_witness :
  let p := mkPage "alice" "lobby" "None" true true [] in
  joinRoom (λ s, s) (joinRoom (λ s, s) p).1 = ((joinRoom (λ s, s) p).1, []).
Proof.
  intros p.
  exact (proj2 (proj2 (page_join_sends_names (λ s, s) p eq_refl))).
Defined.

End ClientMore.

(** * Client and server together *)

Module EndToEnd.
Import JsNum JsNumFacts Client ClientFacts ClientPage.
Import JsMap JsMapFacts Server ServerFacts.

(** **** A page under the list events *)

Lemma remove_first_absent userId (ul : list (string * string)) :
  userId ∉ ul.*1 → remove_first userId ul = ul.
Proof.
  induction ul as [| [id name] rest IH]; [reflexivity |].
  cbn. intros Hnot. apply not_elem_of_cons in Hnot as [Hne Hnot].
  rewrite bool_decide_eq_false_2 by congruence. rewrite IH by exact Hnot.
  reflexivity.
Qed.

(** With one item per identity, removing the first item of an identity
    removes every item of it. *)
Lemma remove_first_items userId (l : list (string * User Json)) :
  NoDup l.*1 →
  remove_first userId (item <$> l)
  = item <$> filter (λ e, e.1 ≠ userId) l.
Proof.
  induction l as [| [id user] rest IH]; intros Hnd; [reflexivity |].
  cbn in Hnd. apply NoDup_cons in Hnd as [Hfresh Hnd].
  cbn [fmap list_fmap item fst snd remove_first]. rewrite filter_cons.
  cbn [fst]. case_bool_decide as Hid.
  - subst id. rewrite decide_False by tauto.
    rewrite <- IH by exact Hnd. symmetry. apply remove_first_absent.
    rewrite <- list_fmap_compose.
    rewrite (list_fmap_ext _ fst rest) by (intros ? [? ?]; reflexivity).
    exact Hfresh.
  - rewrite decide_True by exact Hid. cbn [fmap list_fmap item fst snd].
    rewrite <- IH by exact Hnd. reflexivity.
Qed.

Lemma addUserToList_safe id name p :
  attribute_safe id = true → text_safe name = true →
  ∃ out, addUserToList id name p
         = Some (set_userList (userList p ++ [(id, name)]) p, out).
Proof.
  intros Hid Hname. unfold addUserToList. rewrite Hid, Hname. eauto.
Qed.

Lemma updateUserList_safe users p :
  Forall entry_safe users →
  ∃ p' out, updateUserList users p = Some (p', out)
            ∧ userList p' = item <$> users.
Proof.
  intros Hsafe. unfold updateUserList.
  assert (∀ p0 out0,
            ∃ p' out,
              fold_left
                (λ acc entry,
                   '(p0, out0) ← acc;
                   '(p1, out1) ← addUserToList entry.1 (username entry.2) p0;
                   Some (p1, out0 ++ out1)) users (Some (p0, out0))
              = Some (p', out)
              ∧ userList p' = userList p0 ++ (item <$> users)) as Hfold.
  { induction Hsafe as [| e rest [He1 He2] _ IH]; intros p0 out0.
    - exists p0, out0. cbn. rewrite app_nil_r. auto.
    - cbn [fold_left mbind option_bind].
      destruct (addUserToList_safe e.1 (username e.2) p0 He1 He2)
        as [out1 ->].
      cbn [mbind option_bind].
      destruct (IH (set_userList (userList p0 ++ [(e.1, username e.2)]) p0)
                  (out0 ++ out1)) as (p' & out & -> & Hlist).
      exists p', out. split; [reflexivity |].
      rewrite Hlist. cbn. rewrite <- app_assoc. reflexivity. }
  apply Hfold.
Qed.

(** A safe event is handled by the page, and changes its list as
    [list_after] says. *)
Lemma page_event_safe ev p :
  event_safe ev →
  ∃ p', page_event ev p = Some p'
        ∧ userList p' = list_after ev (userList p).
Proof.
  destruct ev as [| | id name | id | users | | |]; cbn [event_safe];
    intros Hsafe; try (exists p; split; reflexivity).
  - destruct Hsafe as [Hid Hname]. cbn [page_event list_after].
    unfold on_user_joined.
    destruct (addUserToList_safe id name p Hid Hname) as [out ->].
    eexists. split; reflexivity.
  - cbn [page_event list_after]. unfold on_user_left, removeUserFromList.
    eexists. split; [reflexivity |].
    case_bool_decide as Hin; cbn; [reflexivity |].
    symmetry. apply remove_first_absent. exact Hin.
  - cbn [page_event list_after]. unfold on_room_users.
    destruct (updateUserList_safe users p Hsafe) as (p' & out & -> & Hlist).
    exists p'. split; [reflexivity | exact Hlist].
  - eexists. split; reflexivity.
Qed.

Lemma handle_all_safe evs p :
  Forall event_safe evs →
  ∃ p', handle_all evs p = Some p'
        ∧ userList p' = fold_left (λ l ev, list_after ev l) evs (userList p).
Proof.
  unfold handle_all. intros Hsafe. revert p.
  induction Hsafe as [| ev rest Hev _ IH]; intros p.
  - exists p. split; reflexivity.
  - cbn [fold_left mbind option_bind].
    destruct (page_event_safe ev p Hev) as (p1 & -> & Hlist).
    destruct (IH p1) as (p' & -> & Hlist').
    exists p'. split; [reflexivity |]. rewrite Hlist', Hlist. reflexivity.
Qed.

(** **** The roster after a leave, a join and a speaking event *)

Lemma roster_leave_state id old (s : State Json) r :
  roster (leave_state id old s) r
  = if decide (old = r) then filter (λ e, e.1 ≠ id) (roster s old)
    else roster s r.
Proof.
  unfold roster, leave_state, rooms_after_leave. cbn [rooms].
  destruct (rooms s !! old) as [us |] eqn:Hus.
  - case_bool_decide as Hsize.
    + apply jsmap_size_empty_iff in Hsize.
      destruct (decide (old = r)) as [<- | Hne].
      * rewrite jsmap_lookup_delete_eq.
        change (entries (∅ : JsMap (User Json))
                = filter (λ e, e.1 ≠ id) (entries us)).
        rewrite <- entries_delete, Hsize. reflexivity.
      * rewrite jsmap_lookup_delete_ne by done. reflexivity.
    + destruct (decide (old = r)) as [<- | Hne].
      * rewrite jsmap_lookup_insert_eq. reflexivity.
      * rewrite jsmap_lookup_insert_ne by done. reflexivity.
  - destruct (decide (old = r)) as [<- | Hne]; [| reflexivity].
    rewrite Hus. reflexivity.
Qed.

Lemma roster_join_state id room name (s : State Json) r :
  default ∅ (rooms s !! room) !! id = None →
  roster (join_state energy0 id room name s) r
  = if decide (room = r)
    then roster s room ++ [(id, mkUser name false energy0)]
    else roster s r.
Proof.
  intros Hfresh. unfold roster, join_state, rooms_after_join. cbn [rooms].
  destruct (decide (room = r)) as [<- | Hne].
  - rewrite jsmap_lookup_insert_eq.
    change (entries (<[id := mkUser name false energy0]>
                       (default ∅ (rooms s !! room)))
            = entries (default ∅ (rooms s !! room))
              ++ [(id, mkUser name false energy0)]).
    apply entries_insert_new. exact Hfresh.
  - rewrite jsmap_lookup_insert_ne by done. reflexivity.
Qed.

Lemma roster_speaking (s : State Json) room us id user speaking level r :
  rooms s !! room = Some us → us !! id = Some user →
  item <$> roster
             (mkState
                (<[room := <[id := mkUser (username user) speaking level]> us]>
                   (rooms s)) (adapter s) (conns s)) r
  = item <$> roster s r.
Proof.
  intros Hus Huser. unfold roster. cbn [rooms].
  destruct (decide (room = r)) as [<- | Hne].
  - rewrite jsmap_lookup_insert_eq, Hus.
    change (item <$> entries (<[id := mkUser (username user) speaking level]>
                                us)
            = item <$> entries us).
    apply (fmap_entries_insert item us id user); [exact Huser | reflexivity].
  - rewrite jsmap_lookup_insert_ne by done. reflexivity.
Qed.

(** **** What the registry keeps on safe traces *)

Lemma room_ok_empty : room_ok ∅.
Proof. split; [constructor | apply unique_keys_empty]. Qed.

Lemma room_ok_delete id us : room_ok us → room_ok (delete id us).
Proof.
  intros [Hsafe Huniq]. split; [| apply unique_keys_delete, Huniq].
  rewrite entries_delete. rewrite Forall_forall in *. intros x Hx.
  apply Hsafe. exact (list_subseteq_filter _ _ x Hx).
Qed.

Lemma room_ok_insert id user us :
  entry_safe (id, user) → room_ok us → room_ok (<[id := user]> us).
Proof.
  intros He [Hsafe Huniq]. split; [| apply unique_keys_insert, Huniq].
  apply Forall_entries_insert; assumption.
Qed.

Lemma registry_ok_leave id old (s : State Json) :
  registry_ok s → registry_ok (leave_state id old s).
Proof.
  intros Hok r us. cbn [rooms leave_state]. unfold rooms_after_leave.
  destruct (rooms s !! old) as [us0 |] eqn:Hold; [| apply Hok].
  case_bool_decide.
  - rewrite jsmap_lookup_delete. case_decide; [discriminate | apply Hok].
  - rewrite jsmap_lookup_insert. case_decide; [| apply Hok].
    intros [= <-]. apply room_ok_delete. exact (Hok old us0 Hold).
Qed.

Lemma registry_ok_join id room name (s : State Json) :
  attribute_safe id = true → text_safe name = true →
  registry_ok s → registry_ok (join_state energy0 id room name s).
Proof.
  intros Hid Hname Hok r us. cbn [rooms join_state]. unfold rooms_after_join.
  rewrite jsmap_lookup_insert. case_decide; [| apply Hok].
  intros [= <-]. apply room_ok_insert; [split; assumption |].
  destruct (rooms s !! room) as [us0 |] eqn:Hroom;
    [exact (Hok room us0 Hroom) | apply room_ok_empty].
Qed.

Lemma step_registry_ok (s s' : State Json) id ev out :
  sender_safe id ev → registry_ok s →
  step (Audio:=list num) energy0 s id ev = Some (s', out) →
  registry_ok s'.
Proof.
  intros [Hid Hev] Hok.
  destruct (conns s !! id) as [cr |] eqn:Hconn.
  - destruct ev as [| room name | | data | speaking level |].
    + rewrite (step_connect_again energy0 s id cr Hconn).
      intros [= <- _]. exact Hok.
    + rewrite (step_join energy0 s id cr room name Hconn). cbv zeta.
      intros [= <- _]. apply registry_ok_join; [exact Hid | exact Hev |].
      destruct (bound_room cr); [apply registry_ok_leave |]; exact Hok.
    + rewrite (step_leave energy0 s id cr Hconn).
      destruct (bound_room cr) as [old |]; [| intros [= <- _]; exact Hok].
      cbv zeta. intros [= <- _]. exact (registry_ok_leave id old s Hok).
    + rewrite (step_voice energy0 s id cr data Hconn).
      destruct (bound_room cr); intros [= <- _]; exact Hok.
    + rewrite (step_speaking energy0 s id cr speaking level Hconn).
      destruct (bound_room cr) as [room |]; [| intros [= <- _]; exact Hok].
      destruct (rooms s !! room) as [us |] eqn:Hus; [| discriminate].
      destruct (us !! id) as [user |] eqn:Huser;
        [| intros [= <- _]; exact Hok].
      intros [= <- _] r us'. cbn [rooms]. rewrite jsmap_lookup_insert.
      case_decide; [| apply Hok]. intros [= <-].
      pose proof (Hok room us Hus) as Hroom.
      apply room_ok_insert; [| exact Hroom].
      destruct Hroom as [Hsafe _]. rewrite Forall_forall in Hsafe.
      exact (Hsafe _ (elem_of_entries us id user Huser)).
    + rewrite (step_disconnect energy0 s id cr Hconn).
      destruct (bound_room cr) as [old |]; intros [= <- _];
        [exact (registry_ok_leave id old (closed_state id s) Hok) | exact Hok].
  - destruct ev;
      try (rewrite (step_ignored energy0 s id _ Hconn) by discriminate;
           intros [= <- _]; exact Hok).
    rewrite (step_connect energy0 s id Hconn). intros [= <- _]. exact Hok.
Qed.

(** The events of a step on a safe trace are safe. *)
Lemma leave_out_safe id old (s : State Json) :
  Forall (λ e, event_safe (event e)) (leave_out (Audio:=list num) id old s).
Proof.
  unfold leave_out. destruct (rooms s !! old); [| constructor].
  destruct (bool_decide _); repeat constructor.
Qed.

Lemma step_out_safe (s s' : State Json) id ev out :
  sender_safe id ev → registry_ok s →
  step (Audio:=list num) energy0 s id ev = Some (s', out) →
  Forall (λ e, event_safe (event e)) out.
Proof.
  intros [Hid Hev] Hok.
  destruct (conns s !! id) as [cr |] eqn:Hconn.
  - destruct ev as [| room name | | data | speaking level |].
    + rewrite (step_connect_again energy0 s id cr Hconn).
      intros [= _ <-]. constructor.
    + rewrite (step_join energy0 s id cr room name Hconn). cbv zeta.
      intros [= _ <-]. apply Forall_app. split.
      * destruct (bound_room cr); [apply leave_out_safe | constructor].
      * unfold join_out. cbv zeta. repeat constructor; cbn [event event_safe];
          try assumption.
        apply Forall_entries_insert; [split; assumption |].
        match goal with |- context [rooms ?s1 !! room] =>
          assert (registry_ok s1) as Hok1
            by (destruct (bound_room cr);
                [apply registry_ok_leave |]; exact Hok);
          destruct (rooms s1 !! room) as [us0 |] eqn:Hroom
        end; [exact (proj1 (Hok1 room us0 Hroom)) | constructor].
    + rewrite (step_leave energy0 s id cr Hconn).
      destruct (bound_room cr) as [old |]; intros [= _ <-]; [| constructor].
      apply Forall_app. split; [apply leave_out_safe | repeat constructor].
    + rewrite (step_voice energy0 s id cr data Hconn).
      destruct (bound_room cr); intros [= _ <-]; repeat constructor.
    + rewrite (step_speaking energy0 s id cr speaking level Hconn).
      destruct (bound_room cr) as [room |];
        [| intros [= _ <-]; constructor].
      destruct (rooms s !! room) as [us |]; [| discriminate].
      destruct (us !! id); intros [= _ <-]; repeat constructor.
    + rewrite (step_disconnect energy0 s id cr Hconn).
      destruct (bound_room cr) as [old |]; intros [= _ <-];
        [apply leave_out_safe | constructor].
  - destruct ev;
      try (rewrite (step_ignored energy0 s id _ Hconn) by discriminate;
           intros [= _ <-]; constructor).
    rewrite (step_connect energy0 s id Hconn). intros [= _ <-]. constructor.
Qed.

(** No room is named after a socket. *)
Lemma step_rooms_apart ids (s s' : State Json) id ev out :
  sender_apart ids id ev → inv_binding s → rooms_apart ids s →
  step (Audio:=list num) energy0 s id ev = Some (s', out) →
  rooms_apart ids s'.
Proof.
  intros [Hid Hev] Hbind [Hdom Hrooms].
  destruct (conns s !! id) as [cr |] eqn:Hconn.
  - pose proof (inv_binding_bound s id cr Hbind Hconn) as Hbound.
    destruct ev as [| room name | | data | speaking level |].
    + rewrite (step_connect_again energy0 s id cr Hconn).
      intros [= <- _]. split; assumption.
    + rewrite (step_join energy0 s id cr room name Hconn). cbv zeta.
      intros [= <- _].
      assert (∀ s1 : State Json, conns s1 = conns s →
                rooms_apart ids (join_state energy0 id room name s1)) as Hjoin.
      { intros s1 Hs1. unfold rooms_apart. cbn [conns join_state].
        rewrite Hs1. split; [rewrite dom_insert_L; set_solver |].
        intros j r. rewrite lookup_insert. case_decide; [| apply Hrooms].
        intros [= <-]. exact Hev. }
      destruct (bound_room cr); apply Hjoin; reflexivity.
    + rewrite (step_leave energy0 s id cr Hconn).
      destruct (bound_room cr) as [old |];
        [| intros [= <- _]; split; assumption].
      cbv zeta. intros [= <- _]. unfold rooms_apart. cbn [conns leave_state].
      split; [rewrite dom_insert_L; set_solver |].
      intros j r. rewrite lookup_insert. case_decide; [discriminate |].
      apply Hrooms.
    + rewrite (step_voice energy0 s id cr data Hconn).
      destruct (bound_room cr); intros [= <- _]; split; assumption.
    + rewrite (step_speaking energy0 s id cr speaking level Hconn).
      destruct (bound_room cr) as [room |];
        [| intros [= <- _]; split; assumption].
      destruct (rooms s !! room) as [us |]; [| discriminate].
      destruct (us !! id); intros [= <- _]; split; assumption.
    + rewrite (step_disconnect energy0 s id cr Hconn).
      assert (rooms_apart ids (closed_state id s)) as Hclosed.
      { split; cbn [conns closed_state].
        - rewrite dom_delete_L. set_solver.
        - intros j r. rewrite lookup_delete. case_decide; [discriminate |].
          apply Hrooms. }
      destruct (bound_room cr) as [old |]; intros [= <- _]; exact Hclosed.
  - destruct ev;
      try (rewrite (step_ignored energy0 s id _ Hconn) by discriminate;
           intros [= <- _]; split; assumption).
    rewrite (step_connect energy0 s id Hconn). intros [= <- _].
    unfold rooms_apart. cbn [conns].
    split; [rewrite dom_insert_L; set_solver |].
    intros j r. rewrite lookup_insert. case_decide; [discriminate |].
    apply Hrooms.
Qed.

(** **** What a list makes of the emissions of a leave and of a join *)

Lemma fold_update_rooms j (b : bool) names sockets l :
  fold_left (λ l ev, list_after ev l)
    (inbox j (if b then [mkEmission ToAll
                           (EvUpdateRooms (Audio:=list num) (Energy:=Json)
                              names) sockets]
              else [])) l
  = l.
Proof.
  destruct b; [| reflexivity]. rewrite inbox_cons.
  destruct (decide _); reflexivity.
Qed.

Lemma fold_leave_out j id old (s : State Json) us l :
  rooms s !! old = Some us →
  fold_left (λ l ev, list_after ev l)
    (inbox j (leave_out (Audio:=list num) id old s)) l
  = if decide (j ∈ in_room s old ∖ {[id]}) then remove_first id l else l.
Proof.
  intros Hus. unfold leave_out. rewrite Hus, inbox_cons.
  cbn [recipients event].
  destruct (decide (j ∈ in_room s old ∖ {[id]})).
  - cbn [fold_left list_after]. apply fold_update_rooms.
  - apply fold_update_rooms.
Qed.

Lemma fold_join_out j id room name (s : State Json) l :
  fold_left (λ l ev, list_after ev l)
    (inbox j (join_out (Audio:=list num) energy0 id room name s)) l
  = if decide (j = id)
    then item <$> entries (<[id := mkUser name false energy0]>
                             (default ∅ (rooms s !! room)))
    else if decide (j ∈ {[id]} ∪ in_room s room) then l ++ [(id, name)]
         else l.
Proof.
  unfold join_out. cbv zeta. rewrite !inbox_cons. cbn [recipients event].
  destruct (decide (j ∈ {[id]} ∪ in_room s room)),
    (decide (j ∈ ({[id]} : gset string))) as [Hj | Hj],
    (decide (j ∈ dom (conns (join_state energy0 id room name s)))),
    (decide (j = id));
    try reflexivity; exfalso; set_solver.
Qed.

(** A socket bound to a room is in the socket.io room of a name no socket
    has for its identity exactly when the name is that of its room. *)
Lemma bound_in_room (s : State Json) j r x :
  inv_binding s → conns s !! x = None → conns s !! j = Some (Some r) →
  j ∈ in_room s x ↔ x = r.
Proof.
  intros Hbind Hx Hj. rewrite (inv_binding_exact None s x Hbind Hx).
  destruct Hbind as (_ & _ & Hb & _ & _).
  rewrite <- (Hb j x) by discriminate. rewrite Hj. naive_solver.
Qed.

Lemma leave_stage (s : State Json) id old us j r l :
  rooms s !! old = Some us → unique_keys us →
  (j ∈ in_room s old ↔ old = r) → j ≠ id →
  l = item <$> roster s r →
  fold_left (λ l ev, list_after ev l)
    (inbox j (leave_out (Audio:=list num) id old s)) l
  = item <$> roster (leave_state id old s) r.
Proof.
  intros Hus Huniq Hin Hne ->.
  rewrite (fold_leave_out j id old s us _ Hus), roster_leave_state.
  destruct (decide (old = r)) as [-> | Hr].
  - rewrite decide_True by (apply elem_of_difference; split;
                            [apply Hin; reflexivity | set_solver]).
    apply remove_first_items. unfold roster. rewrite Hus. exact Huniq.
  - rewrite decide_False; [reflexivity |].
    intros H. apply elem_of_difference in H as [H _]. apply Hin in H.
    congruence.
Qed.

Lemma join_stage (s : State Json) id room name j r l :
  (j ∈ in_room s room ↔ room = r) → j ≠ id →
  default ∅ (rooms s !! room) !! id = None →
  l = item <$> roster s r →
  fold_left (λ l ev, list_after ev l)
    (inbox j (join_out (Audio:=list num) energy0 id room name s)) l
  = item <$> roster (join_state energy0 id room name s) r.
Proof.
  intros Hin Hne Hfresh ->.
  rewrite fold_join_out, (roster_join_state id room name s r Hfresh).
  rewrite (decide_False (P:=j = id)) by exact Hne.
  destruct (decide (room = r)) as [-> | Hr].
  - rewrite decide_True by (apply elem_of_union; right; apply Hin;
                            reflexivity).
    rewrite fmap_app. reflexivity.
  - rewrite decide_False; [reflexivity |].
    intros H. apply elem_of_union in H as [H | H]; [set_solver |].
    apply Hin in H. congruence.
Qed.

(** **** The lists follow the registry *)

Lemma bound_has_room (s : State Json) id old :
  inv_binding s → conns s !! id = Some (Some old) →
  ∃ us, rooms s !! old = Some us.
Proof.
  intros (_ & _ & Hb & _ & _) Hid. apply Hb in Hid; [| discriminate].
  apply members_lookup in Hid as (us & _ & Hus & _). eauto.
Qed.

Lemma apart_free ids (s : State Json) x :
  rooms_apart ids s → x ∉ ids → conns s !! x = None.
Proof. intros [Hdom _] Hx. apply not_elem_of_dom. set_solver. Qed.

Lemma step_lists_mirror ids (s s' : State Json) id ev out lists :
  wf_event ev → sender_apart ids id ev →
  inv_binding s → rooms_apart ids s → registry_ok s →
  lists_mirror s lists →
  step (Audio:=list num) energy0 s id ev = Some (s', out) →
  lists_mirror s'
    (λ j, fold_left (λ l ev, list_after ev l) (inbox j out) (lists j)).
Proof.
  intros Hwf [Hids Hev] Hbind Hapart Hok Hmir.
  destruct (conns s !! id) as [cr |] eqn:Hid.
  - pose proof (inv_binding_bound s id cr Hbind Hid) as Hbound.
    assert (∀ old, cr = Some old → conns s !! old = None) as Hold.
    { intros old ->. apply (apart_free ids); [exact Hapart |].
      destruct Hapart as [_ Hrooms]. exact (Hrooms id old Hid). }
    destruct ev as [| room name | | data | speaking level |].
    + rewrite (step_connect_again energy0 s id cr Hid).
      intros [= <- <-] j r Hj. apply Hmir. exact Hj.
    + rewrite (step_join energy0 s id cr room name Hid), Hbound. cbv zeta.
      intros [= <- <-] j r Hj. cbn [conns join_state] in Hj.
      rewrite inbox_app, fold_left_app.
      assert (conns s !! room = None) as Hroom
        by (apply (apart_free ids); assumption).
      destruct (decide (j = id)) as [-> | Hne].
      * assert (conns match cr with
                      | Some old => leave_state id old s
                      | None => s
                      end = conns s) as Hconns by (destruct cr; reflexivity).
        rewrite Hconns, lookup_insert_eq in Hj. injection Hj as <-.
        rewrite fold_join_out, decide_True by reflexivity.
        unfold roster. cbn [rooms join_state]. unfold rooms_after_join.
        rewrite jsmap_lookup_insert_eq. reflexivity.
      * destruct cr as [old |].
        -- cbn [conns leave_state] in Hj.
           rewrite lookup_insert_ne in Hj by done.
           destruct (bound_has_room s id old Hbind Hid) as [us Hus].
           pose proof (binding_leave s id old Hbind Hid)
             as (_ & _ & _ & Hout & _).
           apply join_stage.
           ++ rewrite in_room_leave_state.
              rewrite <- (bound_in_room s j r room Hbind Hroom Hj).
              destruct (decide (old = room)) as [<- |]; set_solver.
           ++ exact Hne.
           ++ apply jsmap_not_elem_of_dom. exact (Hout id room eq_refl).
           ++ apply (leave_stage s id old us); auto.
              ** exact (proj2 (Hok old us Hus)).
              ** apply bound_in_room; auto.
        -- rewrite lookup_insert_ne in Hj by done.
           pose proof (binding_unbound s id Hbind Hid)
             as (_ & _ & _ & Hout & _).
           apply join_stage.
           ++ apply bound_in_room; assumption.
           ++ exact Hne.
           ++ apply jsmap_not_elem_of_dom. exact (Hout id room eq_refl).
           ++ apply Hmir. exact Hj.
    + rewrite (step_leave energy0 s id cr Hid), Hbound.
      destruct cr as [old |];
        [| intros [= <- <-] j r Hj; apply Hmir; exact Hj].
      cbv zeta. intros [= <- <-] j r Hj. cbn [conns leave_state] in Hj.
      destruct (decide (j = id)) as [-> | Hne];
        [rewrite lookup_insert_eq in Hj; discriminate |].
      rewrite lookup_insert_ne in Hj by done.
      rewrite inbox_app, fold_left_app.
      rewrite (inbox_cons j (mkEmission (ToSocket id) EvRoomLeft {[id]})).
      cbn [recipients]. rewrite decide_False by set_solver.
      destruct (bound_has_room s id old Hbind Hid) as [us Hus].
      apply (leave_stage s id old us); auto.
      * exact (proj2 (Hok old us Hus)).
      * apply bound_in_room; auto.
    + rewrite (step_voice energy0 s id cr data Hid).
      destruct (bound_room cr); intros [= <- <-] j r Hj;
        [| apply Hmir; exact Hj].
      rewrite inbox_cons. destruct (decide _); apply Hmir; exact Hj.
    + rewrite (step_speaking energy0 s id cr speaking level Hid).
      destruct (bound_room cr) as [room |];
        [| intros [= <- <-] j r Hj; apply Hmir; exact Hj].
      destruct (rooms s !! room) as [us |] eqn:Hus; [| discriminate].
      destruct (us !! id) as [user |] eqn:Huser;
        [| intros [= <- <-] j r Hj; apply Hmir; exact Hj].
      intros [= <- <-] j r Hj. cbn [conns] in Hj.
      rewrite (roster_speaking s room us id user speaking level r Hus Huser).
      rewrite inbox_cons. destruct (decide _); apply Hmir; exact Hj.
    + rewrite (step_disconnect energy0 s id cr Hid), Hbound.
      destruct cr as [old |]; intros [= <- <-] j r Hj;
        cbn [conns leave_state closed_state] in Hj;
        (destruct (decide (j = id)) as [-> | Hne];
         [rewrite lookup_delete_eq in Hj; discriminate |]);
        rewrite lookup_delete_ne in Hj by done.
      * destruct (bound_has_room s id old Hbind Hid) as [us Hus].
        apply (leave_stage (closed_state id s) id old us); auto.
        -- exact (proj2 (Hok old us Hus)).
        -- rewrite in_room_closed_state.
           rewrite <- (bound_in_room s j r old Hbind (Hold old eq_refl) Hj).
           set_solver.
        -- apply Hmir. exact Hj.
      * apply Hmir. exact Hj.
  - destruct ev;
      try (rewrite (step_ignored energy0 s id _ Hid) by discriminate;
           intros [= <- <-] j r Hj; apply Hmir; exact Hj).
    rewrite (step_connect energy0 s id Hid). intros [= <- <-] j r Hj.
    cbn [conns] in Hj.
    destruct (decide (j = id)) as [-> | Hne];
      [rewrite lookup_insert_eq in Hj; discriminate |].
    rewrite lookup_insert_ne in Hj by done. apply Hmir. exact Hj.
Qed.

Lemma registry_ok_init : registry_ok (init : State Json).
Proof. intros r us. cbn. rewrite jsmap_lookup_empty. discriminate. Qed.

Lemma rooms_apart_init ids : rooms_apart ids (init : State Json).
Proof.
  split; cbn; [rewrite dom_empty_L; set_solver |].
  intros j r. rewrite lookup_empty. discriminate.
Qed.

Lemma run_lists_mirror ids evs (s s' : State Json) out lists :
  wf_trace evs → apart ids evs → markup_safe evs →
  inv_registry s → inv_binding s → rooms_apart ids s → registry_ok s →
  lists_mirror s lists →
  run (Audio:=list num) energy0 s evs = Some (s', out) →
  lists_mirror s'
    (λ j, fold_left (λ l ev, list_after ev l) (inbox j out) (lists j))
  ∧ registry_ok s'
  ∧ Forall (λ e, event_safe (event e)) out.
Proof.
  revert s out lists.
  induction evs as [| [id ev] evs IH];
    intros s out lists Hwf Hap Hsafe Hreg Hbind Hapart Hok Hmir.
  - intros [= <- <-]. split; [exact Hmir | split; [exact Hok | constructor]].
  - apply Forall_cons in Hwf as [Hev Hwf].
    apply Forall_cons in Hap as [Hap1 Hap].
    apply Forall_cons in Hsafe as [Hsafe1 Hsafe].
    cbn [fst snd] in Hev, Hap1, Hsafe1. cbn [run].
    destruct (step_inv_registry energy0 s id ev Hreg)
      as (s1 & out1 & Hstep & Hreg1).
    rewrite Hstep.
    pose proof (step_inv_binding energy0 s s1 id ev out1 Hev Hbind Hstep)
      as Hbind1.
    pose proof (step_rooms_apart ids s s1 id ev out1 Hap1 Hbind Hapart Hstep)
      as Hapart1.
    pose proof (step_registry_ok s s1 id ev out1 Hsafe1 Hok Hstep) as Hok1.
    pose proof (step_out_safe s s1 id ev out1 Hsafe1 Hok Hstep) as Hout1.
    pose proof (step_lists_mirror ids s s1 id ev out1 lists Hev Hap1 Hbind
                  Hapart Hok Hmir Hstep) as Hmir1.
    destruct (run energy0 s1 evs) as [[s2 out2] |] eqn:Hrun; [| discriminate].
    intros [= <- <-].
    destruct (IH s1 out2 _ Hwf Hap Hsafe Hreg1 Hbind1 Hapart1 Hok1 Hmir1 Hrun)
      as (Hmir2 & Hok2 & Hout2).
    split; [| split; [exact Hok2 | apply Forall_app; split; assumption]].
    intros j r Hj. rewrite inbox_app, fold_left_app.
    exact (Hmir2 j r Hj).
Qed.


Lemma pair_wf : wf_trace pair_trace.
Proof. unfold wf_trace, pair_trace. repeat constructor; discriminate. Qed.

Lemma pair_reachable : reachable (Audio:=list num) energy0 pair_state.
Proof.
  exists pair_trace. eexists. split; [exact pair_wf |].
  vm_compute. reflexivity.
Qed.


(** **** From the microphone of one client to the speakers of the others *)

Lemma processAudio_sent_loud c inputData now :
  vadEnabled c = true → truthy (currentUserId c) = true →
  gtb (calculateEnergy inputData) ENERGY_THRESHOLD = true →
  sent (processAudio inputData now c).2
  = MsgVoice inputData
    :: (if isCurrentlySpeaking c then []
        else [MsgSpeaking true (calculateEnergy inputData)]).
Proof.
  intros Hvad Hid Hloud. unfold processAudio. rewrite Hvad, Hid.
  cbn [negb orb]. unfold detectVoiceActivity, updateActivityMeter.
  rewrite Hloud.
  destruct (currentUserId c) as [uid |] eqn:Huid; [| discriminate].
  cbn [fst snd currentUserId isCurrentlySpeaking]. rewrite ?Huid, ?Hid.
  destruct (isCurrentlySpeaking c); reflexivity.
Qed.

Lemma loud_has_samples inputData :
  gtb (calculateEnergy inputData) ENERGY_THRESHOLD = true → inputData ≠ [].
Proof. intros Hloud ->. rewrite calculateEnergy_empty in Hloud. discriminate. Qed.

Lemma idle_plays_at_once cj id data :
  data ≠ [] →
  audioContext cj = Some Running → isPlaying cj = false →
  audioQueue cj = [] →
  started (playback_run cj [VoiceArrives id data]).2 = [mkAudioData id data].
Proof.
  intros Hdata Hctx Hplay Hqueue. cbn [playback_run playback_step].
  unfold Client.on_voice. rewrite Hctx. cbv zeta.
  cbn [isPlaying]. rewrite Hplay. cbn [negb].
  unfold playNextAudio. cbn [audioQueue]. rewrite Hqueue. cbn [app buffer].
  destruct data; [contradiction | reflexivity].
Qed.



End EndToEnd.
